(** * The mutation-capture-and-replay daemon of the Markdown editor

    A shallow embedding of [src/hooks/useEditorHTMLDaemon.ts]:
    the hook observes edits on a live editable element (the watched
    element), compiles the raw mutation records into an operation log
    while undoing them on the live tree, and replays the log on a
    detached mirror document.

    The browser objects the hook talks to (DOM nodes, [MutationObserver],
    [document.evaluate]) are modelled first; the functions of the hook
    follow, under their own names. *)

From Stdlib Require Import Ascii String DecimalString DecimalNat DecimalFacts.
From stdpp Require Import gmap strings list.

Set Default Proof Using "Type".

(* ===================================================================== *)
(** * Exceptions *)
(* ===================================================================== *)

(** The hook has no [try]/[catch]: a DOM exception raised by a browser
    call ends the running function and every caller.  [NotModelled] marks
    an XPath string outside the address grammar modelled below; nothing
    is claimed about such strings. *)
Inductive DOMException :=
| NotFoundError
| HierarchyRequestError
| TypeError
| SyntaxError
| NotModelled.

Inductive result (A : Type) :=
| Ok (a : A)
| Throw (e : DOMException).
Arguments Ok {A} a.
Arguments Throw {A} e.

Global Instance result_fmap : FMap result := λ A B f m,
  match m with
  | Ok a => Ok (f a)
  | Throw e => Throw e
  end.
Global Instance result_ret : MRet result := λ A a, Ok a.
Global Instance result_bind : MBind result := λ A B f m,
  match m with
  | Ok a => f a
  | Throw e => Throw e
  end.

(* ===================================================================== *)
(** * Strings *)
(* ===================================================================== *)

Module Str.

(** The double quote character, written by its code point. *)
Definition dquote_char : ascii := "034"%char.
Definition dquote : string := String dquote_char EmptyString.

(** Decimal rendering of a number, as JavaScript's number-to-string
    conversion does for a non-negative integer. *)
Definition of_nat (n : nat) : string := NilZero.string_of_uint (Nat.to_uint n).

Definition is_upper (c : ascii) : bool :=
  let n := nat_of_ascii c in (65 <=? n) && (n <=? 90).
Definition is_lower (c : ascii) : bool :=
  let n := nat_of_ascii c in (97 <=? n) && (n <=? 122).
Definition is_digit (c : ascii) : bool :=
  let n := nat_of_ascii c in (48 <=? n) && (n <=? 57).

Definition lower_ascii (c : ascii) : ascii :=
  if is_upper c then ascii_of_nat (nat_of_ascii c + 32) else c.

Definition upper_ascii (c : ascii) : ascii :=
  if is_lower c then ascii_of_nat (nat_of_ascii c - 32) else c.

(** ASCII lower-casing, as an XPath name test is matched against the
    name of an HTML element: only [A] to [Z] change. *)
Fixpoint ascii_lowercase (s : string) : string :=
  match s with
  | EmptyString => EmptyString
  | String c s' => String (lower_ascii c) (ascii_lowercase s')
  end.

(** The capital letters among the code units from 128 to 255: [U+00C0]
    to [U+00DE], without the multiplication sign [U+00D7]. *)
Definition is_upper_latin1 (c : ascii) : bool :=
  let n := nat_of_ascii c in (192 <=? n) && (n <=? 222) && negb (n =? 215).

Definition lower_unit (c : ascii) : ascii :=
  if is_upper c || is_upper_latin1 c then ascii_of_nat (nat_of_ascii c + 32) else c.

(** [String.prototype.toLowerCase]: every capital letter becomes its
    small letter, the accented ones too.  A string is a sequence of code
    units below 256, and among these a capital letter and its small
    letter are 32 apart. *)
Fixpoint toLowerCase (s : string) : string :=
  match s with
  | EmptyString => EmptyString
  | String c s' => String (lower_unit c) (toLowerCase s')
  end.

Fixpoint forallb (f : ascii → bool) (s : string) : bool :=
  match s with
  | EmptyString => true
  | String c s' => f c && forallb f s'
  end.

(** [strip_prefix p s] is [Some r] when [s = p +:+ r]. *)
Fixpoint strip_prefix (p s : string) : option string :=
  match p with
  | EmptyString => Some s
  | String a p' =>
      match s with
      | EmptyString => None
      | String b s' => if Ascii.eqb a b then strip_prefix p' s' else None
      end
  end.

(** Splits at the first occurrence of [c]. *)
Fixpoint split_at (c : ascii) (s : string) : option (string * string) :=
  match s with
  | EmptyString => None
  | String a s' =>
      if Ascii.eqb a c then Some (EmptyString, s')
      else match split_at c s' with
           | Some (l, r) => Some (String a l, r)
           | None => None
           end
  end.

(** Splits on every ["/"]; the result is never empty. *)
Fixpoint split_slash (s : string) : list string :=
  match s with
  | EmptyString => [EmptyString]
  | String a s' =>
      if Ascii.eqb a "/" then EmptyString :: split_slash s'
      else match split_slash s' with
           | h :: t => String a h :: t
           | [] => [String a EmptyString]
           end
  end.

(** Removes a final ["]"]. *)
Fixpoint unbracket (s : string) : option string :=
  match s with
  | EmptyString => None
  | String a EmptyString => if Ascii.eqb a "]" then Some EmptyString else None
  | String a s' => String a <$> unbracket s'
  end.

End Str.

(** [Array.prototype.pop]: the last element and the array without it;
    nothing on an empty array. *)
Definition pop {A : Type} (l : list A) : option (A * list A) :=
  match rev l with
  | [] => None
  | x :: r => Some (x, rev r)
  end.

(* ===================================================================== *)
(** * The DOM *)
(* ===================================================================== *)

(** Nodes are JavaScript objects: they have an identity ([===] compares
    it), and they sit in one heap whether they belong to the live
    document, to the mirror document or to no document at all. *)
Definition nid := nat.

Inductive NodeKind :=
| Element (tagName id className : string)
| Text (data : string)
| Comment (data : string)
| Document.

Record Node := mkNode {
  kind : NodeKind;
  parentNode : option nid;
  childNodes : list nid
}.

Abbreviation DOM := (gmap nat Node).

Module Dom.

Definition parent_of (d : DOM) (n : nid) : option nid := d !! n ≫= parentNode.

Definition children_of (d : DOM) (n : nid) : list nid :=
  match d !! n with
  | Some nd => childNodes nd
  | None => []
  end.

Definition kind_of (d : DOM) (n : nid) : option NodeKind := kind <$> d !! n.

(** [Node.nodeType] *)
Definition nodeType (d : DOM) (n : nid) : option nat :=
  match kind_of d n with
  | Some (Element _ _ _) => Some 1
  | Some (Text _) => Some 3
  | Some (Comment _) => Some 8
  | Some Document => Some 9
  | None => None
  end.

(** [Node.nodeName] *)
Definition nodeName (d : DOM) (n : nid) : option string :=
  match kind_of d n with
  | Some (Element t _ _) => Some t
  | Some (Text _) => Some "#text"
  | Some (Comment _) => Some "#comment"
  | Some Document => Some "#document"
  | None => None
  end.

(** [Element.id], [Element.className], [Element.tagName]: [undefined]
    ([None]) on a node that is not an element. *)
Definition id (d : DOM) (n : nid) : option string :=
  match kind_of d n with
  | Some (Element _ i _) => Some i
  | _ => None
  end.
Definition className (d : DOM) (n : nid) : option string :=
  match kind_of d n with
  | Some (Element _ _ c) => Some c
  | _ => None
  end.
Definition tagName (d : DOM) (n : nid) : option string :=
  match kind_of d n with
  | Some (Element t _ _) => Some t
  | _ => None
  end.

Definition is_text (d : DOM) (n : nid) : bool :=
  bool_decide (nodeType d n = Some 3).
Definition is_element (d : DOM) (n : nid) : bool :=
  bool_decide (nodeType d n = Some 1).

(** The siblings before [n], in tree order: the prefix of the child
    list up to the first occurrence of [n]. *)
Fixpoint before (n : nid) (l : list nid) : list nid :=
  match l with
  | [] => []
  | x :: l' => if decide (x = n) then [] else x :: before n l'
  end.

(** [Node.nextSibling] in a child list. *)
Fixpoint after (n : nid) (l : list nid) : list nid :=
  match l with
  | [] => []
  | x :: l' => if decide (x = n) then l' else after n l'
  end.

Definition nextSibling (d : DOM) (n : nid) : option nid :=
  match parent_of d n with
  | Some p => head (after n (children_of d p))
  | None => None
  end.

(** The chain [n.previousSibling], [n.previousSibling.previousSibling],
    ... : the preceding siblings, nearest first. *)
Definition previousSiblings (d : DOM) (n : nid) : list nid :=
  match parent_of d n with
  | Some p => rev (before n (children_of d p))
  | None => []
  end.

Definition set_children (p : nid) (l : list nid) (d : DOM) : DOM :=
  alter (λ nd, mkNode (kind nd) (parentNode nd) l) p d.
Definition set_parent (n : nid) (p : option nid) (d : DOM) : DOM :=
  alter (λ nd, mkNode (kind nd) p (childNodes nd)) n d.
Definition set_kind (n : nid) (k : NodeKind) (d : DOM) : DOM :=
  alter (λ nd, mkNode k (parentNode nd) (childNodes nd)) n d.

Fixpoint remove_node (n : nid) (l : list nid) : list nid :=
  match l with
  | [] => []
  | x :: l' => if decide (x = n) then remove_node n l' else x :: remove_node n l'
  end.

(** Puts [x] in front of [ref]; at the end when [ref] is [null]. *)
Fixpoint insert_before (x : nid) (ref : option nid) (l : list nid) : list nid :=
  match l with
  | [] => [x]
  | y :: l' =>
      if decide (ref = Some y) then x :: y :: l'
      else y :: insert_before x ref l'
  end.

(** The DOM's "remove" of a node from its parent. *)
Definition detach (n : nid) (d : DOM) : DOM :=
  match parent_of d n with
  | Some p => set_parent n None (set_children p (remove_node n (children_of d p)) d)
  | None => d
  end.

(** [a] is an inclusive ancestor of [n]. *)
Fixpoint is_inclusive_ancestor (fuel : nat) (d : DOM) (a n : nid) : bool :=
  if decide (a = n) then true
  else match fuel with
       | 0 => false
       | S fuel' =>
           match parent_of d n with
           | Some p => is_inclusive_ancestor fuel' d a p
           | None => false
           end
       end.

Definition can_have_children (k : NodeKind) : bool :=
  match k with
  | Element _ _ _ | Document => true
  | _ => false
  end.
Definition is_document (k : NodeKind) : bool :=
  match k with
  | Document => true
  | _ => false
  end.

Definition has_element_child (d : DOM) (p : nid) : bool :=
  existsb (is_element d) (children_of d p).

(** [parent.removeChild(child)] *)
Definition removeChild (d : DOM) (parent child : nid) : result DOM :=
  if decide (parent_of d child = Some parent) then Ok (detach child d)
  else Throw NotFoundError.

(** [parent.insertBefore(node, child)]: the validity checks of the DOM
    standard's pre-insert, then removal of [node] from where it is and
    insertion in front of [child]. *)
Definition insertBefore (d : DOM) (parent node : nid) (child : option nid)
  : result DOM :=
  match kind_of d parent, kind_of d node with
  | Some pk, Some nk =>
      if negb (can_have_children pk) then Throw HierarchyRequestError
      else if is_inclusive_ancestor (size d) d node parent
      then Throw HierarchyRequestError
      else if bool_decide (child ≠ None ∧ (child ≫= parent_of d) ≠ Some parent)
      then Throw NotFoundError
      else if is_document nk then Throw HierarchyRequestError
      else if is_document pk &&
              (is_text d node || (is_element d node && has_element_child d parent))
      then Throw HierarchyRequestError
      else
        let reference :=
          if decide (child = Some node) then nextSibling d node else child in
        let d1 := detach node d in
        Ok (set_parent node (Some parent)
              (set_children parent
                 (insert_before node reference (children_of d1 parent)) d1))
  | _, _ => Throw TypeError
  end.

(** A node identity not yet in the heap. *)
Definition fresh_id (d : DOM) : nid := S (foldr Nat.max 0 (elements (dom d))).

(** [node.cloneNode(true)]: a detached deep copy, made of new nodes.
    The recursion on the children is cut by [fuel]; a tree is never
    deeper than the heap is large.  Where it is cut, or where [n] is not
    in the heap, the copy is an empty comment. *)
Fixpoint cloneNode (fuel : nat) (n : nid) (d : DOM) : DOM * nid :=
  let c := fresh_id d in
  match fuel, d !! n with
  | S fuel', Some nd =>
      let d1 := <[c := mkNode (kind nd) None []]> d in
      (foldl (λ d' ch,
                let '(d'', cc) := cloneNode fuel' ch d' in
                set_parent cc (Some c)
                  (set_children c (children_of d'' c ++ [cc]) d''))
             d1 (childNodes nd),
       c)
  | _, _ => (<[c := mkNode (Comment "") None []]> d, c)
  end.

(** The nodes of the tree below [n], [n] first, in document order. *)
Fixpoint descendants (fuel : nat) (d : DOM) (n : nid) : list nid :=
  match fuel with
  | 0 => []
  | S fuel' => n :: flat_map (descendants fuel' d) (children_of d n)
  end.

(** The texts of the text nodes below [n], in document order. *)
Fixpoint text_of (fuel : nat) (d : DOM) (n : nid) : string :=
  match fuel with
  | 0 => ""
  | S fuel' =>
      match kind_of d n with
      | Some (Text s) => s
      | Some (Element _ _ _) =>
          foldr (λ ch acc, text_of fuel' d ch +:+ acc) "" (children_of d n)
      | _ => ""
      end
  end.

(** The getter of [Node.textContent]: [null] on a document. *)
Definition textContent (d : DOM) (n : nid) : option string :=
  match kind_of d n with
  | Some (Text s) | Some (Comment s) => Some s
  | Some (Element _ _ _) => Some (text_of (size d) d n)
  | _ => None
  end.

(** The setter of [Node.textContent]: on an element, the children are
    replaced by one new text node, or by nothing when the text is
    empty. *)
Definition set_textContent (d : DOM) (n : nid) (s : string) : DOM :=
  match kind_of d n with
  | Some (Text _) => set_kind n (Text s) d
  | Some (Comment _) => set_kind n (Comment s) d
  | Some (Element _ _ _) =>
      let d1 := foldr detach d (children_of d n) in
      if decide (s = "") then d1
      else
        let t := fresh_id d1 in
        set_children n [t] (<[t := mkNode (Text s) (Some n) []]> d1)
  | _ => d
  end.

End Dom.

(* ===================================================================== *)
(** * XPath addresses *)
(* ===================================================================== *)

(** [document.evaluate] is the browser's XPath 1.0 engine.  It is
    modelled on the expressions the hook builds:

    - [//*[@id="i"]], every element whose [id] is [i];
    - [//body], every [body] element;
    - a path that starts at the document node;

    each followed by child steps [/name[k]] and [/text()[k]].  Name
    tests follow the rule for HTML documents: the test and the element's
    name are compared in lower case. *)
Module XPath.

Inductive step :=
| ChildElement (name : string) (position : nat)
| ChildText (position : nat).

Inductive base :=
| FromDocument
| AnyBody
| AnyWithId (i : string).

Record expr := mkExpr { start : base; steps : list step }.

Definition is_name_start (c : ascii) : bool :=
  Str.is_upper c || Str.is_lower c || Ascii.eqb c "_".
Definition is_name_char (c : ascii) : bool :=
  is_name_start c || Str.is_digit c || Ascii.eqb c "-" || Ascii.eqb c ".".

(** An XML name without a prefix. *)
Definition valid_name (s : string) : bool :=
  match s with
  | EmptyString => false
  | String c _ => is_name_start c && Str.forallb is_name_char s
  end.

Definition id_prefix : string := "//*[@id=" +:+ Str.dquote.
Definition id_suffix : string := Str.dquote +:+ "]".

(** ** Parsing *)

Definition parse_step (seg : string) : option step :=
  '(name, rest) ← Str.split_at "[" seg;
  digits ← Str.unbracket rest;
  u ← NilZero.uint_of_string digits;
  if String.eqb name "text()" then Some (ChildText (Nat.of_uint u))
  else if valid_name name then Some (ChildElement name (Nat.of_uint u))
  else None.

Fixpoint parse_segments (segs : list string) : option (list step) :=
  match segs with
  | [] => Some []
  | seg :: segs' =>
      st ← parse_step seg;
      sts ← parse_segments segs';
      Some (st :: sts)
  end.

(** The steps that follow a start: nothing, or ["/step/step..."]. *)
Definition parse_steps (s : string) : option (list step) :=
  match s with
  | EmptyString => Some []
  | _ =>
      match Str.split_slash s with
      | EmptyString :: segs => parse_segments segs
      | _ => None
      end
  end.

Definition parse (s : string) : option expr :=
  match Str.strip_prefix id_prefix s with
  | Some r =>
      '(i, r') ← Str.split_at Str.dquote_char r;
      r'' ← Str.strip_prefix "]" r';
      mkExpr (AnyWithId i) <$> parse_steps r''
  | None =>
      match Str.strip_prefix "//body" s with
      | Some r => mkExpr AnyBody <$> parse_steps r
      | None =>
          match s with
          | EmptyString => None
          | String c _ =>
              (* a relative path is resolved from the context node, which
                 is the document node *)
              mkExpr FromDocument <$>
                (if Ascii.eqb c "/" then parse_steps s
                 else parse_segments (Str.split_slash s))
          end
      end
  end.

(** ** Rendering, the inverse of parsing *)

Definition segment (st : step) : string :=
  match st with
  | ChildElement name k => name +:+ "[" +:+ Str.of_nat k +:+ "]"
  | ChildText k => "text()[" +:+ Str.of_nat k +:+ "]"
  end.

Definition render_step (st : step) : string := "/" +:+ segment st.

Definition render_base (b : base) : string :=
  match b with
  | FromDocument => ""
  | AnyBody => "//body"
  | AnyWithId i => id_prefix +:+ i +:+ id_suffix
  end.

Fixpoint render_steps (sts : list step) : string :=
  match sts with
  | [] => ""
  | st :: sts' => render_step st +:+ render_steps sts'
  end.

Definition render (e : expr) : string :=
  render_base (start e) +:+ render_steps (steps e).

(** ** Evaluation *)

Definition named (d : DOM) (name : string) (n : nid) : bool :=
  match Dom.tagName d n with
  | Some t => String.eqb (Str.ascii_lowercase t) (Str.ascii_lowercase name)
  | None => false
  end.

Definition has_id (d : DOM) (i : string) (n : nid) : bool :=
  match Dom.id d n with
  | Some j => String.eqb i j && negb (String.eqb i "")
  | None => false
  end.

(** The [k]-th match (from 1) of a node test among a child list. *)
Definition nth_match (test : nid → bool) (k : nat) (l : list nid) : option nid :=
  match k with
  | 0 => None
  | S k' => List.filter test l !! k'
  end.

Definition eval_step (d : DOM) (st : step) (context : list nid) : list nid :=
  match st with
  | ChildElement name k =>
      omap (λ c, nth_match (named d name) k (Dom.children_of d c)) context
  | ChildText k =>
      omap (λ c, nth_match (Dom.is_text d) k (Dom.children_of d c)) context
  end.

Definition eval_base (d : DOM) (doc : nid) (b : base) : list nid :=
  match b with
  | FromDocument => [doc]
  | AnyBody => List.filter (named d "body") (Dom.descendants (size d) d doc)
  | AnyWithId i => List.filter (has_id d i) (Dom.descendants (size d) d doc)
  end.

(** The node set an expression selects. *)
Definition eval (d : DOM) (doc : nid) (e : expr) : list nid :=
  foldl (λ context st, eval_step d st context) (eval_base d doc (start e)) (steps e).

(** [FIRST_ORDERED_NODE_TYPE]: the selected node that comes first in
    document order; [null] when nothing is selected. *)
Definition first_ordered (d : DOM) (doc : nid) (selected : list nid) : option nid :=
  head (List.filter (λ n, bool_decide (n ∈ selected)) (Dom.descendants (size d) d doc)).

(** [doc.evaluate(XPath, doc, null, FIRST_ORDERED_NODE_TYPE).singleNodeValue] *)
Definition evaluate (d : DOM) (doc : nid) (XPath : string) : result (option nid) :=
  match parse XPath with
  | Some e => Ok (first_ordered d doc (eval d doc e))
  | None => Throw NotModelled
  end.

End XPath.

(* ===================================================================== *)
(** * Mutation records and the observer *)
(* ===================================================================== *)

Module Mutation.

Inductive kind_name := childList | characterData | attributes.

(** A [MutationRecord]. *)
Record t := mk {
  type : kind_name;
  target : nid;
  addedNodes : list nid;
  removedNodes : list nid;
  previousSibling : option nid;
  nextSibling : option nid;
  oldValue : option string
}.

End Mutation.

Abbreviation MutationRecord := Mutation.t.

(** A [MutationObserver]: the node it is registered on, and the records
    the browser has queued for it but not yet handed to its callback. *)
Record MutationObserver := mkObserver {
  observed : option nid;
  records : list MutationRecord
}.

Module Observer.

Definition observe (target : nid) (o : MutationObserver) : MutationObserver :=
  mkObserver (Some target) (records o).

(** [disconnect] also empties the observer's record queue. *)
Definition disconnect (o : MutationObserver) : MutationObserver :=
  mkObserver None [].

Definition takeRecords (o : MutationObserver) : list MutationRecord * MutationObserver :=
  (records o, mkObserver (observed o) []).

End Observer.

(* ===================================================================== *)
(** * The hook *)
(* ===================================================================== *)

(** Hook's persistent variables *)
Record TDaemonState := mkDaemonState {
  Observer : MutationObserver;
  MutationQueue : list MutationRecord
}.

(** Type of actions to perform on the mirror document *)
Inductive TOperationType := TEXT | ADD | REMOVE.

(** The [node] field holds an address or a node. *)
Inductive OperationNode :=
| Address (XPath : string)
| NodeObject (n : nid).

Module Operation.

(** Instructions for DOM manipulations on the mirror document; an
    optional field that is [null] or left out is [None]. *)
Record t := mk {
  type : TOperationType;
  node : OperationNode;
  nodeText : option string;
  parentNode : option string;
  siblingNode : option string
}.

End Operation.

Abbreviation TOperationLog := Operation.t.

Global Instance TOperationType_eq_dec : EqDecision TOperationType.
Proof. solve_decision. Defined.
Global Instance OperationNode_eq_dec : EqDecision OperationNode.
Proof. solve_decision. Defined.
Global Instance TOperationLog_eq_dec : EqDecision TOperationLog.
Proof. solve_decision. Defined.

(** Everything the hook's closures reach: the heap of DOM nodes, the two
    refs, the daemon state, and how often [FinalizeChanges] was called. *)
Record Hook := mkHook {
  heap : DOM;
  WatchElementRef : option nid;
  MirrorDocumentRef : option nid;
  DaemonState : TDaemonState;
  FinalizeChanges_calls : nat
}.

(** The observer's callback: [state.MutationQueue.push(...mutationList)],
    run by the browser with the queued records. *)
Definition deliver (h : Hook) : Hook :=
  let st := DaemonState h in
  mkHook (heap h) (WatchElementRef h) (MirrorDocumentRef h)
    (mkDaemonState (mkObserver (observed (Observer st)) [])
       (MutationQueue st ++ records (Observer st)))
    (FinalizeChanges_calls h).

Definition toggleObserve (bObserver : bool) (h : Hook) : Hook :=
  let st := DaemonState h in
  let with_observer o :=
    mkHook (heap h) (WatchElementRef h) (MirrorDocumentRef h)
      (mkDaemonState o (MutationQueue st)) (FinalizeChanges_calls h) in
  if negb bObserver then with_observer (Observer.disconnect (Observer st))
  else match WatchElementRef h with
       | None => h
       | Some w => with_observer (Observer.observe w (Observer st))
       end.

(** ** Helper to get the precise location in the original DOM tree *)

Definition count_text (d : DOM) (siblings : list nid) : nat :=
  foldl (λ textNodeIndex sibling,
           if Dom.is_text d sibling then S textNodeIndex else textNodeIndex)
        1 siblings.

(** The loop over [parent.childNodes]: the count of earlier element
    siblings of the same name when [node] is met, nothing when it is not
    met. *)
Fixpoint count_same (d : DOM) (node : nid) (siblings : list nid) (nodeCount : nat)
  : option nat :=
  match siblings with
  | [] => None
  | sibling :: rest =>
      if decide (sibling = node) then Some nodeCount
      else count_same d node rest
             (if Dom.is_element d sibling
                 && bool_decide (Dom.nodeName d sibling = Dom.nodeName d node)
              then S nodeCount else nodeCount)
  end.

Definition has_id (d : DOM) (node : nid) : option string :=
  match Dom.id d node with
  | Some i => if decide (i = "") then None else Some i
  | None => None
  end.

Definition looks_like (d : DOM) (node w : nid) : bool :=
  bool_decide (Dom.className d node = Dom.className d w)
  && bool_decide (Dom.tagName d node = Dom.tagName d w).

Definition lower_name (d : DOM) (node : nid) : string :=
  Str.toLowerCase (default "" (Dom.nodeName d node)).

(** [None] when the recursion on [parentNode] is cut by [fuel]. *)
Fixpoint getXPathFromNode_rec (fuel : nat) (d : DOM) (W : option nid) (node : nid)
  : option string :=
  match fuel with
  | 0 => None
  | S fuel' =>
      match W with
      | None => Some ""
      | Some w =>
          let parent := Dom.parent_of d node in
          match has_id d node with
          | Some i =>
              (* XPath upper limit: any element with an ID *)
              Some ("//*[@id=" +:+ Str.dquote +:+ i +:+ Str.dquote +:+ "]")
          | None =>
              if looks_like d node w then
                (* XPath upper limit: The watched element. *)
                Some "//body"
              else if Dom.is_text d node then
                let textNodeIndex := count_text d (Dom.previousSiblings d node) in
                match parent with
                | Some p =>
                    s ← getXPathFromNode_rec fuel' d W p;
                    Some (s +:+ "/text()" +:+ "[" +:+ Str.of_nat textNodeIndex +:+ "]")
                | None => Some ("text()" +:+ "[" +:+ Str.of_nat textNodeIndex +:+ "]")
                end
              else
                match parent with
                | None => Some ""
                | Some p =>
                    match count_same d node (Dom.children_of d p) 0 with
                    | Some nodeCount =>
                        s ← getXPathFromNode_rec fuel' d W p;
                        Some (s +:+ "/" +:+ lower_name d node
                                +:+ "[" +:+ Str.of_nat (nodeCount + 1) +:+ "]")
                    | None => Some ""
                    end
                end
          end
      end
  end.

(** The chain of the ancestors of a node is never longer than the heap
    is large, unless it runs in a circle. *)
Definition getXPathFromNode (d : DOM) (W : option nid) (node : nid) : string :=
  default "" (getXPathFromNode_rec (S (size d)) d W node).

Definition getNodeFromXPath (d : DOM) (doc : option nid) (XPath : string)
  : result (option nid) :=
  match doc with
  | None => Ok None
  | Some doc => XPath.evaluate d doc XPath
  end.

(** ** Replaying on the mirror document *)

Module UpdateMirrorDocument.

Definition Text (d : DOM) (Mirror : option nid) (XPath : string) (Text : option string)
  : result DOM :=
  if decide (XPath = "") then Ok d
  else
    NodeResult ← getNodeFromXPath d Mirror XPath;
    match NodeResult with
    | None => Ok d
    | Some NodeResult => Ok (Dom.set_textContent d NodeResult (default "" Text))
    end.

Definition Remove (d : DOM) (Mirror : option nid) (XPathParent XPathSelf : option string)
  : result DOM :=
  match XPathParent, XPathSelf with
  | Some XPathParent, Some XPathSelf =>
      if decide (XPathParent = "") then Ok d
      else if decide (XPathSelf = "") then Ok d
      else
        parentNode ← getNodeFromXPath d Mirror XPathParent;
        match parentNode with
        | None => Ok d
        | Some parentNode =>
            targetNode ← getNodeFromXPath d Mirror XPathSelf;
            match targetNode with
            | None => Ok d
            | Some targetNode => Dom.removeChild d parentNode targetNode
            end
        end
  | _, _ => Ok d
  end.

Definition Add (d : DOM) (Mirror : option nid) (XPathParent : option string)
  (Node : option nid) (XPathSibling : option string) : result DOM :=
  match XPathParent, Node with
  | Some XPathParent, Some targetNode =>
      if decide (XPathParent = "") then Ok d
      else
        parentNode ← getNodeFromXPath d Mirror XPathParent;
        match parentNode with
        | None => Ok d
        | Some parentNode =>
            SiblingNode ←
              match XPathSibling with
              | None => Ok None
              | Some XPathSibling =>
                  if decide (XPathSibling = "") then Ok None
                  else getNodeFromXPath d Mirror XPathSibling
              end;
            Dom.insertBefore d parentNode targetNode SiblingNode
        end
  | _, _ => Ok d
  end.

End UpdateMirrorDocument.

(** One turn of the loop of [SyncToMirror].  The casts [node as string]
    and [node as Node] are unchecked: an address where a node is expected
    makes [insertBefore] raise a [TypeError] unless it is the empty
    string; a node where an address is expected is not modelled. *)
Definition apply_operation (Mirror : option nid) (d : DOM) (operation : TOperationLog)
  : result DOM :=
  match Operation.type operation, Operation.node operation with
  | TEXT, Address node =>
      UpdateMirrorDocument.Text d Mirror node (Operation.nodeText operation)
  | REMOVE, Address node =>
      UpdateMirrorDocument.Remove d Mirror (Operation.parentNode operation) (Some node)
  | ADD, NodeObject node =>
      UpdateMirrorDocument.Add d Mirror (Operation.parentNode operation) (Some node)
        (Operation.siblingNode operation)
  | ADD, Address node =>
      if decide (node = "")
      then UpdateMirrorDocument.Add d Mirror (Operation.parentNode operation) None
             (Operation.siblingNode operation)
      else match Operation.parentNode operation with
           | None => Ok d
           | Some XPathParent =>
               if decide (XPathParent = "") then Ok d
               else
                 parentNode ← getNodeFromXPath d Mirror XPathParent;
                 match parentNode with
                 | None => Ok d
                 | Some _ => Throw TypeError
                 end
           end
  | _, NodeObject _ => Throw NotModelled
  end.

(** The [while] loop of [SyncToMirror]; it stops when [Operations.pop()]
    finds the array empty, and runs at most [turns] times. *)
Fixpoint SyncToMirror_loop (turns : nat) (Mirror : option nid)
  (Operations : list TOperationLog) (d : DOM) : result DOM :=
  match turns, pop Operations with
  | S turns', Some (operation, Operations') =>
      d' ← apply_operation Mirror d operation;
      SyncToMirror_loop turns' Mirror Operations' d'
  | _, _ => Ok d
  end.

(** Sync to the mirror document, middleman function *)
Definition SyncToMirror (Mirror : option nid) (Operations : list TOperationLog) (d : DOM)
  : result DOM :=
  SyncToMirror_loop (length Operations) Mirror Operations d.

(** ** Flush all changes in the MutationQueue *)

(** What [JSON.stringify] shows of an operation: every field, except
    that a DOM node is rendered as an empty object whatever node it is. *)
Definition JSON_view (o : TOperationLog)
  : TOperationType * option string * option string * option string * option string :=
  (Operation.type o,
   match Operation.node o with
   | Address s => Some s
   | NodeObject _ => None
   end,
   Operation.nodeText o, Operation.parentNode o, Operation.siblingNode o).

(** [JSON.stringify(latestOperationLog) === JSON.stringify(Operation)];
    [latestOperationLog] is [undefined] on an empty log. *)
Definition JSON_same (latestOperationLog : option TOperationLog) (Operation : TOperationLog)
  : bool :=
  match latestOperationLog with
  | None => false
  | Some latest => bool_decide (JSON_view latest = JSON_view Operation)
  end.

Section FlushQueue.

Variable W : option nid.

(** Text Changed *)
Definition compile_text (d : DOM) (mutation : MutationRecord)
  (OperationLogs : list TOperationLog) : list TOperationLog :=
  match Mutation.oldValue mutation, Mutation.type mutation with
  | Some _, Mutation.characterData =>
      let Operation :=
        Operation.mk TEXT
          (Address (getXPathFromNode d W (Mutation.target mutation)))
          (Dom.textContent d (Mutation.target mutation)) None None in
      let latestOperationLog := last OperationLogs in
      if JSON_same latestOperationLog Operation then OperationLogs
      else OperationLogs ++ [Operation]
  | _, _ => OperationLogs
  end.

(** Nodes removed: the loop runs from the last removed node to the
    first, so it is given the list reversed. *)
Fixpoint compile_removed (mutation : MutationRecord) (reversed : list nid)
  (d : DOM) (OperationLogs : list TOperationLog)
  : result (DOM * list TOperationLog) :=
  match reversed with
  | [] => Ok (d, OperationLogs)
  | removed :: rest =>
      (* rollback *)
      d' ← Dom.insertBefore d (Mutation.target mutation) removed
             (Mutation.nextSibling mutation);
      compile_removed mutation rest d'
        (OperationLogs ++
           [Operation.mk REMOVE
              (Address (getXPathFromNode d' W removed)) None
              (Some (getXPathFromNode d' W (Mutation.target mutation))) None])
  end.

(** Nodes added, from the last to the first as well. *)
Fixpoint compile_added (mutation : MutationRecord) (reversed : list nid)
  (d : DOM) (OperationLogs : list TOperationLog)
  : result (DOM * list TOperationLog) :=
  match reversed with
  | [] => Ok (d, OperationLogs)
  | added :: rest =>
      (* rollback *)
      d' ← match Dom.parent_of d added with
            | Some _ => Dom.removeChild d (Mutation.target mutation) added
            | None => Ok d
            end;
      let '(d'', clone) := Dom.cloneNode (size d') added d' in
      compile_added mutation rest d''
        (OperationLogs ++
           [Operation.mk ADD (NodeObject clone) None
              (Some (getXPathFromNode d'' W (Mutation.target mutation)))
              (match Mutation.nextSibling mutation with
               | Some nextSibling => Some (getXPathFromNode d'' W nextSibling)
               | None => None
               end)])
  end.

Definition compile_record (mutation : MutationRecord) (d : DOM)
  (OperationLogs : list TOperationLog) : result (DOM * list TOperationLog) :=
  let OperationLogs := compile_text d mutation OperationLogs in
  '(d, OperationLogs) ←
     compile_removed mutation (rev (Mutation.removedNodes mutation)) d OperationLogs;
  compile_added mutation (rev (Mutation.addedNodes mutation)) d OperationLogs.

(** The [while] loop: it stops when [MutationQueue.pop()] finds the
    queue empty, and runs at most [turns] times.  What is left of the
    queue is returned with the tree and the log. *)
Fixpoint compile_loop (turns : nat) (MutationQueue : list MutationRecord) (d : DOM)
  (OperationLogs : list TOperationLog)
  : result (list MutationRecord * DOM * list TOperationLog) :=
  match turns, pop MutationQueue with
  | S turns', Some (mutation, MutationQueue') =>
      '(d', OperationLogs') ← compile_record mutation d OperationLogs;
      compile_loop turns' MutationQueue' d' OperationLogs'
  | _, _ => Ok (MutationQueue, d, OperationLogs)
  end.

Definition compile (MutationQueue : list MutationRecord) (d : DOM)
  : result (list MutationRecord * DOM * list TOperationLog) :=
  compile_loop (length MutationQueue) MutationQueue d [].

End FlushQueue.

Definition FlushQueue (h : Hook) : result Hook :=
  (* OB's callback is asynchronous; make sure no records are left behind *)
  let '(taken, observer) := Observer.takeRecords (Observer (DaemonState h)) in
  let queue := MutationQueue (DaemonState h) ++ taken in
  let h1 := mkHook (heap h) (WatchElementRef h) (MirrorDocumentRef h)
              (mkDaemonState observer queue) (FinalizeChanges_calls h) in
  if decide (queue = []) then Ok h1
  else
    let h2 := toggleObserve false h1 in
    '(queue', d, OperationLogs) ← compile (WatchElementRef h2) queue (heap h2);
    d' ← SyncToMirror (MirrorDocumentRef h2) OperationLogs d;
    (* FinalizeChanges() *)
    let h3 := mkHook d' (WatchElementRef h2) (MirrorDocumentRef h2)
                (mkDaemonState (Observer (DaemonState h2)) queue')
                (S (FinalizeChanges_calls h2)) in
    (* Start observing again. *)
    Ok (toggleObserve true h3).

(** ** The address rules in the words of the specification *)

(** What the rules of an address say, written without the helpers of
    [getXPathFromNode]. *)
Module AddressRules.

(** An absolute lookup by identifier. *)
Definition quote : string := String "034"%char EmptyString.
Definition by_id (i : string) : string := "//*[@id=" +:+ quote +:+ i +:+ quote +:+ "]".

(** The sentinel that stands for the root of the document. *)
Definition sentinel : string := "//body".

(** A node without a non-empty identifier attribute. *)
Definition no_id (d : DOM) (node : nid) : Prop :=
  Dom.id d node = None ∨ Dom.id d node = Some "".

(** The identity of the watched root: its tag and its class. *)
Definition is_watched_root (d : DOM) (w node : nid) : Prop :=
  Dom.tagName d node = Dom.tagName d w ∧ Dom.className d node = Dom.className d w.

(** The decimal numeral of a number, digit by digit from the last. *)
Definition digit (n : nat) : ascii :=
  List.nth n ["0"; "1"; "2"; "3"; "4"; "5"; "6"; "7"; "8"; "9"]%char "0"%char.

Fixpoint decimal_from (fuel n : nat) (rest : string) : string :=
  match fuel with
  | 0 => rest
  | S fuel' =>
      let rest' := String (digit (n mod 10)) rest in
      if n / 10 =? 0 then rest' else decimal_from fuel' (n / 10) rest'
  end.

Definition decimal (n : nat) : string := decimal_from (S n) n "".

(** The capital letters and, at the same places, their small letters:
    the letters of the alphabet, then the accented letters among the
    code units below 256. *)
Definition capitals : list ascii :=
  list_ascii_of_string "ABCDEFGHIJKLMNOPQRSTUVWXYZ"
  ++ ["192"; "193"; "194"; "195"; "196"; "197"; "198"; "199"; "200"; "201"; "202";
      "203"; "204"; "205"; "206"; "207"; "208"; "209"; "210"; "211"; "212"; "213";
      "214"; "216"; "217"; "218"; "219"; "220"; "221"; "222"]%char.

Definition smalls : list ascii :=
  list_ascii_of_string "abcdefghijklmnopqrstuvwxyz"
  ++ ["224"; "225"; "226"; "227"; "228"; "229"; "230"; "231"; "232"; "233"; "234";
      "235"; "236"; "237"; "238"; "239"; "240"; "241"; "242"; "243"; "244"; "245";
      "246"; "248"; "249"; "250"; "251"; "252"; "253"; "254"]%char.

Definition letters : list (ascii * ascii) := zip capitals smalls.

Definition small (c : ascii) : ascii :=
  match List.find (λ l, Ascii.eqb (fst l) c) letters with
  | Some l => snd l
  | None => c
  end.

Fixpoint lower_case (s : string) : string :=
  match s with
  | EmptyString => EmptyString
  | String c s' => String (small c) (lower_case s')
  end.

(** The step to the [k]-th text node among the children. *)
Definition text_step (k : nat) : string := "/text()[" +:+ decimal k +:+ "]".

(** The step to the [k]-th child element of a name: the name is
    written in small letters. *)
Definition element_step (name : string) (k : nat) : string :=
  "/" +:+ lower_case name +:+ "[" +:+ decimal k +:+ "]".

End AddressRules.

(** ** What the proofs speak of *)

(** [sibling] is an element with the node name of [node]. *)
Definition same_name (d : DOM) (node sibling : nid) : bool :=
  Dom.is_element d sibling
  && bool_decide (Dom.nodeName d sibling = Dom.nodeName d node).

(** The records of a queue compiled one after the other, newest first;
    [compile_loop] does this when it has turns enough. *)
Fixpoint compile_records (W : option nid) (newest_first : list MutationRecord)
  (d : DOM) (OperationLogs : list TOperationLog) : result (DOM * list TOperationLog) :=
  match newest_first with
  | [] => Ok (d, OperationLogs)
  | mutation :: rest =>
      '(d', OperationLogs') ← compile_record W mutation d OperationLogs;
      compile_records W rest d' OperationLogs'
  end.

(** A record of a change of the text of [t], as the browser makes it:
    the old text is kept, and no node is added or removed. *)
Definition text_edit (t : nid) (r : MutationRecord) : Prop :=
  Mutation.type r = Mutation.characterData
  ∧ Mutation.target r = t
  ∧ is_Some (Mutation.oldValue r)
  ∧ Mutation.addedNodes r = []
  ∧ Mutation.removedNodes r = [].

(** The operation compiled from a change of the text of [t]. *)
Definition text_operation (W : option nid) (d : DOM) (t : nid) : TOperationLog :=
  Operation.mk TEXT (Address (getXPathFromNode d W t)) (Dom.textContent d t) None None.

(** An address that is empty, or that selects no node of the mirror
    document. *)
Definition selects_nothing (Mirror : option nid) (d : DOM) (XPath : string) : Prop :=
  XPath = "" ∨ getNodeFromXPath d Mirror XPath = Ok None.

Definition absent (Mirror : option nid) (d : DOM) (field : option string) : Prop :=
  match field with
  | None => True
  | Some XPath => selects_nothing Mirror d XPath
  end.

(** An operation without the node it acts on: a [TEXT] whose address,
    a [REMOVE] whose parent address or own address, an [ADD] whose parent
    address is missing, empty or selects nothing; an [ADD] without a node
    to add. *)
Definition Unresolved (Mirror : option nid) (d : DOM) (operation : TOperationLog) : Prop :=
  match Operation.type operation, Operation.node operation with
  | TEXT, Address node => selects_nothing Mirror d node
  | REMOVE, Address node =>
      absent Mirror d (Operation.parentNode operation)
      ∨ node = ""
      ∨ ∃ XPathParent parentNode,
          Operation.parentNode operation = Some XPathParent
          ∧ getNodeFromXPath d Mirror XPathParent = Ok (Some parentNode)
          ∧ getNodeFromXPath d Mirror node = Ok None
  | ADD, node => absent Mirror d (Operation.parentNode operation) ∨ node = Address ""
  | _, _ => False
  end.

(** The heap a call left, or [d] when the call threw. *)
Definition flushed_or (d : DOM) (r : result DOM) : DOM :=
  match r with
  | Ok d' => d'
  | Throw _ => d
  end.

(** A simple rendering of the content of [n], in the manner of
    [innerHTML]: tags in lower case, attributes left out, text as it
    is. *)
Fixpoint outerHTML (fuel : nat) (d : DOM) (n : nid) : string :=
  match fuel with
  | 0 => ""
  | S fuel' =>
      match Dom.kind_of d n with
      | Some (Element t _ _) =>
          "<" +:+ Str.toLowerCase t +:+ ">"
          +:+ foldr (λ ch acc, outerHTML fuel' d ch +:+ acc) "" (Dom.children_of d n)
          +:+ "</" +:+ Str.toLowerCase t +:+ ">"
      | Some (Text s) => s
      | _ => ""
      end
  end.

Definition innerHTML (d : DOM) (n : nid) : string :=
  foldr (λ ch acc, outerHTML (size d) d ch +:+ acc) "" (Dom.children_of d n).

(** ** Addresses that can be resolved *)

Module Stable.

Definition quote_free (i : string) : bool :=
  Str.forallb (λ c, negb (Ascii.eqb c Str.dquote_char)) i.

(** The tag name as an HTML document gives it: without lower-case
    letters. *)
Definition html_tag (d : DOM) (n : nid) : bool :=
  match Dom.tagName d n with
  | Some t => Str.forallb (λ c, negb (Str.is_lower c)) t
  | None => true
  end.

Definition well_formed_step (st : XPath.step) : Prop :=
  match st with
  | XPath.ChildElement name _ => XPath.valid_name name = true
  | XPath.ChildText _ => True
  end.

(** The expressions [getXPathFromNode] writes for the nodes below. *)
Definition well_formed (e : XPath.expr) : Prop :=
  match XPath.start e with
  | XPath.AnyWithId i => quote_free i = true
  | XPath.AnyBody => True
  | XPath.FromDocument => False
  end
  ∧ Forall well_formed_step (XPath.steps e).

Section address.

Variables (d : DOM) (doc w : nid).

(** [i] is the id of [n] and of no other element of the document. *)
Definition unique_id (i : string) (n : nid) : Prop :=
  List.filter (XPath.has_id d i) (Dom.descendants (size d) d doc) = [n].

(** The nodes whose address leads back to them: a node with an id of its
    own in the document, free of double quotes; the watched element;
    and, below a node of this kind, a text node, or an element that does
    not look like the watched element and whose name is an XML name, among
    siblings named as HTML names them. *)
Inductive address : nid → Prop :=
| by_id n i :
    Dom.id d n = Some i → i ≠ "" → quote_free i = true → unique_id i n →
    address n
| watched :
    has_id d w = None → address w
| text_child n p :
    has_id d n = None → looks_like d n w = false → Dom.is_text d n = true →
    Dom.parent_of d n = Some p → n ∈ Dom.children_of d p →
    address p → address n
| element_child n p :
    has_id d n = None → looks_like d n w = false → Dom.is_element d n = true →
    XPath.valid_name (lower_name d n) = true →
    Dom.parent_of d n = Some p → n ∈ Dom.children_of d p →
    Forall (λ x, html_tag d x = true) (Dom.children_of d p) →
    address p → address n.

End address.

End Stable.

(** The heap and the log a compilation left; the heap as it was and an
    empty log when it threw. *)
Definition compiled (W : option nid) (MutationQueue : list MutationRecord) (d : DOM)
  : DOM * list TOperationLog :=
  match compile W MutationQueue d with
  | Ok (_, d', OperationLogs) => (d', OperationLogs)
  | Throw _ => (d, [])
  end.

(** An operation that names no place in the mirror document: the
    address of a [TEXT], the two addresses of a [REMOVE], the parent
    address of an [ADD] are empty. *)
Definition blank (operation : TOperationLog) : Prop :=
  match Operation.type operation, Operation.node operation with
  | TEXT, Address node => node = ""
  | REMOVE, Address node => node = "" ∧ Operation.parentNode operation = Some ""
  | ADD, NodeObject _ => Operation.parentNode operation = Some ""
  | _, _ => False
  end.

(** [c] in the heap [D] is a copy of [n] in the heap [d], [fuel] levels
    deep: the two nodes are of the same kind, with the same name, id and
    class or with the same text, and have as many children, which are
    copies of each other in the same way; [new] holds of every node of
    the copy. *)
Fixpoint copy_of (fuel : nat) (new : nid → Prop) (d : DOM) (n : nid) (D : DOM) (c : nid)
  : Prop :=
  match fuel with
  | 0 => True
  | S fuel' =>
      new c
      ∧ Dom.kind_of D c = Dom.kind_of d n
      ∧ Forall2 (λ x y, copy_of fuel' new d x D y)
          (Dom.children_of d n) (Dom.children_of D c)
  end.

(** ** The mirror document as a mirror *)

Module Mirror.

(** Two child lists that the node tests of an address cannot tell
    apart: they are as long, have their text nodes at the same places,
    and have elements of the same names at the same places. *)
Definition alike (d : DOM) (l l' : list nid) : Prop :=
  Forall2 (λ x y, Dom.is_text d x = Dom.is_text d y ∧ Dom.tagName d x = Dom.tagName d y)
    l l'.

Section counterpart.

Variables (d : DOM) (mirror w body : nid).

(** [n'] is in the mirror document what [n] is in the live document:
    the one element of the mirror document with the id of [n]; the body
    for the watched element; and below two such nodes, the children at
    the same place of two child lists that are alike.  The conditions on
    [n] are those under which its address can be resolved. *)
Inductive counterpart : nid → nid → Prop :=
| of_id n n' i :
    Dom.id d n = Some i → i ≠ "" → Stable.quote_free i = true →
    List.filter (XPath.has_id d i) (Dom.descendants (size d) d mirror) = [n'] →
    counterpart n n'
| of_watched :
    has_id d w = None → counterpart w body
| of_text n p n' p' i :
    has_id d n = None → looks_like d n w = false → Dom.is_text d n = true →
    Dom.parent_of d n = Some p →
    Dom.children_of d p !! i = Some n → Dom.children_of d p' !! i = Some n' →
    alike d (Dom.children_of d p) (Dom.children_of d p') →
    counterpart p p' → counterpart n n'
| of_element n p n' p' i :
    has_id d n = None → looks_like d n w = false → Dom.is_element d n = true →
    XPath.valid_name (lower_name d n) = true →
    Dom.parent_of d n = Some p →
    Dom.children_of d p !! i = Some n → Dom.children_of d p' !! i = Some n' →
    alike d (Dom.children_of d p) (Dom.children_of d p') →
    Forall (λ x, Stable.html_tag d x = true) (Dom.children_of d p) →
    counterpart p p' → counterpart n n'.

End counterpart.

End Mirror.

(** The state after a flush that returned. *)
Definition flushed (h : Hook) : Hook :=
  match FlushQueue h with
  | Ok h' => h'
  | Throw _ => h
  end.

(* ===================================================================== *)
(** * Well-formed heaps *)
(* ===================================================================== *)

Module Tree.

(** The number of ancestors of [n]; [None] when the chain of
    [parentNode] is longer than [fuel]. *)
Fixpoint depth (fuel : nat) (d : DOM) (n : nid) : option nat :=
  match fuel with
  | 0 => None
  | S fuel' =>
      match Dom.parent_of d n with
      | None => Some 0
      | Some p => S <$> depth fuel' d p
      end
  end.

(** The ancestors of [n] end at a node without parent: there is no
    cycle of [parentNode] above [n]. *)
Definition rooted (d : DOM) (n : nid) : Prop := is_Some (depth (size d) d n).


(** What a well-formed heap says of a node: its children are distinct
    and have it for parent, it is among the children of its parent, a
    document has no parent, and the chain of its ancestors ends. *)
Definition wf_node (d : DOM) (n : nid) (nd : Node) : Prop :=
  NoDup (childNodes nd)
  ∧ Forall (λ c, Dom.parent_of d c = Some n) (childNodes nd)
  ∧ match parentNode nd with
    | Some p => n ∈ Dom.children_of d p ∧ Dom.is_document (kind nd) = false
    | None => True
    end
  ∧ rooted d n.

Definition wf (d : DOM) : Prop := map_Forall (wf_node d) d.


Global Instance wf_node_dec d n nd : Decision (wf_node d n nd).
Proof. unfold wf_node. destruct (parentNode nd); apply _. Defined.
Global Instance wf_dec d : Decision (wf d).
Proof. unfold wf. apply _. Defined.

(** The kind of a node, its text left out. *)
Definition skeleton (k : NodeKind) : NodeKind :=
  match k with
  | Text _ => Text ""
  | Comment _ => Comment ""
  | _ => k
  end.

(** On the nodes of [d], the heap [d'] has the tree of [d]: the same
    parents, the same children in the same order, the same kinds of nodes
    with the same names; the texts may differ. *)
Definition same_structure (d d' : DOM) : Prop :=
  ∀ n, is_Some (d !! n) →
    is_Some (d' !! n)
    ∧ Dom.parent_of d' n = Dom.parent_of d n
    ∧ Dom.children_of d' n = Dom.children_of d n
    ∧ skeleton <$> Dom.kind_of d' n = skeleton <$> Dom.kind_of d n.

End Tree.

(* ===================================================================== *)
(** * The mutations the browser records *)
(* ===================================================================== *)

Module Browser.

(** The heap after the children of [target] were replaced by [children],
    the nodes of [removed] having lost their parent and those of [added]
    having got [target] for parent. *)
Definition relink (target : nid) (children added removed : list nid) (d : DOM) : DOM :=
  foldr (λ a, Dom.set_parent a (Some target))
    (foldr (λ x, Dom.set_parent x None) (Dom.set_children target children d) removed)
    added.

(** One recorded mutation, as the DOM standard queues it.  A [childList]
    record tells that, among the children of [target], the run
    [removedNodes] was replaced by the run [addedNodes], between
    [previousSibling] and [nextSibling]; the added nodes had no parent
    (a node that is moved is first removed, with a record of its own).  A
    [characterData] record tells that the text of [target] was
    replaced, and keeps the old text. *)
Inductive step (d : DOM) (r : MutationRecord) : DOM → Prop :=
| childList_step pre post :
    Mutation.type r = Mutation.childList →
    Mutation.oldValue r = None →
    Dom.is_element d (Mutation.target r) = true →
    Dom.children_of d (Mutation.target r) = pre ++ Mutation.removedNodes r ++ post →
    Mutation.previousSibling r = last pre →
    Mutation.nextSibling r = head post →
    NoDup (Mutation.addedNodes r) →
    Forall (λ a, is_Some (d !! a) ∧ Dom.parent_of d a = None) (Mutation.addedNodes r) →
    step d r
      (relink (Mutation.target r) (pre ++ Mutation.addedNodes r ++ post)
         (Mutation.addedNodes r) (Mutation.removedNodes r) d)
| characterData_step old new :
    Mutation.type r = Mutation.characterData →
    Mutation.oldValue r = Some old →
    Mutation.addedNodes r = [] →
    Mutation.removedNodes r = [] →
    Dom.kind_of d (Mutation.target r) = Some (Text old) →
    step d r (Dom.set_kind (Mutation.target r) (Text new) d).

(** A batch: the records of the mutations that lead from [d0] to the
    last heap, oldest first, every heap on the way being well formed. *)
Inductive steps (d0 : DOM) : list MutationRecord → DOM → Prop :=
| steps_nil : Tree.wf d0 → steps d0 [] d0
| steps_snoc q d r d' :
    steps d0 q d → step d r d' → Tree.wf d' → steps d0 (q ++ [r]) d'.

End Browser.

(* ===================================================================== *)
(** * The editor component *)
(* ===================================================================== *)

(** Helpers of [src/components/Editor.tsx], the component that mounts
    the hook on its editing area. *)
Module Editor.

Definition paragraph_names : list string :=
  ["p"; "div"; "main"; "body"; "h1"; "h2"; "h3"; "h4"; "h5"; "h6"; "section"].

(** [/^(p|div|main|body|h1|h2|h3|h4|h5|h6|section)$/i.test(nodeName)]:
    the whole name is one of the alternatives, letter case left aside. *)
Definition tagNames (nodeName : string) : bool :=
  bool_decide (Str.toLowerCase nodeName ∈ paragraph_names).

(** [current.nodeName && tagNames.test(current.nodeName)]; the test is
    taken to be a regular expression without state. *)
Definition is_paragraph (d : DOM) (test : string → bool) (current : nid) : bool :=
  match Dom.nodeName d current with
  | Some name => negb (String.eqb name "") && test name
  | None => false
  end.

(** The loop of [FindNearestParagraph], up the chain of [parentNode];
    [None] when the chain is longer than [fuel]. *)
Fixpoint FindNearestParagraph_rec (fuel : nat) (d : DOM) (test : string → bool)
  (current : nid) : option (option nid) :=
  match fuel with
  | 0 => None
  | S fuel' =>
      if is_paragraph d test current then Some (Some current)
      else match Dom.parent_of d current with
           | Some parent => FindNearestParagraph_rec fuel' d test parent
           | None => Some None
           end
  end.

Definition FindNearestParagraph (d : DOM) (node : nid) (tagTest : option (string → bool))
  : option nid :=
  default None (FindNearestParagraph_rec (S (size d)) d (default tagNames tagTest) node).

(** The loop of [GetNextSiblings], along the chain of [nextSibling]; it
    is cut after [fuel] turns. *)
Fixpoint GetNextSiblings_loop (fuel : nat) (d : DOM) (current : nid) : list nid :=
  match fuel with
  | 0 => []
  | S fuel' =>
      match Dom.nextSibling d current with
      | Some nextSibling => nextSibling :: GetNextSiblings_loop fuel' d nextSibling
      | None => []
      end
  end.

(** A node has fewer siblings than the heap has nodes. *)
Definition GetNextSiblings (d : DOM) (node : nid) : list nid :=
  GetNextSiblings_loop (size d) d node.

(** ** The nearest sibling to move to

    [GetNextAvailableSibling] and [GetPrevAvailableSibling], of the later
    version of the component. *)

Definition newline : string := String "010"%char EmptyString.

(** [sibling && (sibling.nodeType === Node.ELEMENT_NODE ||
    sibling.textContent && sibling.textContent !== newline)] *)
Definition available (d : DOM) (sibling : option nid) : bool :=
  match sibling with
  | Some s =>
      Dom.is_element d s
      || match Dom.textContent d s with
         | Some t => negb (String.eqb t "") && negb (String.eqb t newline)
         | None => false
         end
  | None => false
  end.

(** [Node.previousSibling] *)
Definition previousSibling (d : DOM) (n : nid) : option nid :=
  head (Dom.previousSiblings d n).

(** The [do ... while] loop of the two functions, which differ in the
    sibling they look at; [None] when the chain of [parentNode] is longer
    than [fuel]. *)
Fixpoint available_sibling (fuel : nat) (d : DOM) (sibling : DOM → nid → option nid)
  (upperLimit current : nid) : option (option nid) :=
  match fuel with
  | 0 => None
  | S fuel' =>
      if available d (sibling d current) then Some (sibling d current)
      else match Dom.parent_of d current with
           | Some parent =>
               if decide (parent = upperLimit) then Some None
               else available_sibling fuel' d sibling upperLimit parent
           | None => Some None
           end
  end.

Definition GetNextAvailableSibling (d : DOM) (node upperLimit : nid) : option nid :=
  default None (available_sibling (S (size d)) d Dom.nextSibling upperLimit node).

Definition GetPrevAvailableSibling (d : DOM) (node upperLimit : nid) : option nid :=
  default None (available_sibling (S (size d)) d previousSibling upperLimit node).

End Editor.

(* ===================================================================== *)
(** * Text of a component *)
(* ===================================================================== *)

(** [src/components/Editor_Parts/Utils/CommonFunctions.ts].  A character
    of a string is one code unit; the no-break space is code unit 160. *)
Module CommonFunctions.

Definition nbsp : ascii := "160"%char.

(** [s.replace(/ /g, ' ')] *)
Fixpoint replace_nbsp (s : string) : string :=
  match s with
  | EmptyString => EmptyString
  | String c s' => String (if Ascii.eqb c nbsp then " "%char else c) (replace_nbsp s')
  end.

(** The body of the loop: what a text node adds to the result. *)
Definition textActual (textContent : string) : string :=
  if String.eqb textContent "" then textContent
  else if String.eqb textContent (String nbsp EmptyString) then ""
  else replace_nbsp textContent.

(** The nodes [elementWalker.nextNode()] returns one after the other:
    the text nodes below the root of the walker, in document order. *)
Definition text_nodes (d : DOM) (root : nid) : list nid :=
  List.filter (Dom.is_text d) (tail (Dom.descendants (size d) d root)).

Definition data_of (d : DOM) (node : nid) : string :=
  match Dom.kind_of d node with
  | Some (Text s) => s
  | _ => ""
  end.

Definition CompileAllTextNode (d : DOM) (ContainerElement : option nid) : option string :=
  match ContainerElement with
  | None => None
  | Some ContainerElement =>
      Some (foldl (λ textContentResult node,
                     textContentResult +:+ textActual (data_of d node))
                  "" (text_nodes d ContainerElement))
  end.

(** Text and comment nodes have no children. *)
Definition leaves (d : DOM) : Prop :=
  map_Forall (λ _ nd, Dom.can_have_children (kind nd) = false → childNodes nd = []) d.

Global Instance leaves_dec d : Decision (leaves d).
Proof. unfold leaves. apply _. Defined.

(** A string without no-break space. *)
Definition nbsp_free (s : string) : bool :=
  Str.forallb (λ c, negb (Ascii.eqb c nbsp)) s.

End CommonFunctions.

(* ===================================================================== *)
(** * Editing a sub-element *)
(* ===================================================================== *)

(** The component [Editor] of the first version of the editor keeps the
    sub-elements that are being edited in [EditingQueue], a plain object
    used as a dictionary, and the state [isEditingSubElement] beside
    it. *)
Module SubElements.

Record t := mk {
  EditingQueue : gmap string (option nid);
  isEditingSubElement : bool
}.

Definition initial : t := mk ∅ false.

(** [Identifier] is [None] when it is [undefined].  An assignment to
    the key ["__proto__"] sets the prototype of the object and adds no
    key. *)
Definition toggleEditingSubElement (bSubEditing : bool) (Identifier : option string)
  (ElementRef : option nid) (s : t) : t :=
  match Identifier with
  | None => s
  | Some Identifier =>
      if decide (Identifier = "") then s
      else if negb bSubEditing then
        let remaining := delete Identifier (EditingQueue s) in
        mk remaining
          (if Nat.eqb (size remaining) 0 then false else isEditingSubElement s)
      else
        mk (if decide (Identifier = "__proto__") then EditingQueue s
            else <[Identifier := ElementRef]> (EditingQueue s))
           true
  end.

(** A call of [NotifyParent]. *)
Record call := Notify {
  bSubEditing : bool;
  Identifier : option string;
  ElementRef : option nid
}.

Definition run (calls : list call) (s : t) : t :=
  foldl (λ s c, toggleEditingSubElement (bSubEditing c) (Identifier c) (ElementRef c) s)
        s calls.

End SubElements.

(* ===================================================================== *)
(** * The life of the hook *)
(* ===================================================================== *)

(** The first layout effect of the hook has no dependency list: React
    runs it after every render, once the refs are set, and runs the
    clean-up that the last run returned before it runs the effect again
    and when the component is taken away. *)
Module Lifecycle.

(** The clean-up [() => { toggleObserve(false); }]. *)
Inductive cleanup := StopObserving.

(** The body of the effect: the state it leaves and the clean-up it
    returns, none when there is no watched element. *)
Definition effect (h : Hook) : Hook * option cleanup :=
  match WatchElementRef h with
  | None => (h, None)
  | Some _ => (toggleObserve true h, Some StopObserving)
  end.

Definition run_cleanup (c : option cleanup) (h : Hook) : Hook :=
  match c with
  | Some StopObserving => toggleObserve false h
  | None => h
  end.

(** A mounted hook: its state, and the clean-up of the last run of the
    effect. *)
Record Mounted := mkMounted {
  hook : Hook;
  pending : option cleanup
}.

Definition set_ref (W : option nid) (h : Hook) : Hook :=
  mkHook (heap h) W (MirrorDocumentRef h) (DaemonState h) (FinalizeChanges_calls h).

(** The browser queues a record for an observer that observes. *)
Definition queue_record (r : MutationRecord) (h : Hook) : Hook :=
  let st := DaemonState h in
  match observed (Observer st) with
  | Some _ =>
      mkHook (heap h) (WatchElementRef h) (MirrorDocumentRef h)
        (mkDaemonState (mkObserver (observed (Observer st)) (records (Observer st) ++ [r]))
           (MutationQueue st))
        (FinalizeChanges_calls h)
  | None => h
  end.

(** What happens to a mounted hook: a render that leaves [W] in the ref
    of the watched element, a mutation of the page with its record, the
    observer's callback, and a flush that returns. *)
Inductive step : Mounted → Mounted → Prop :=
| render W m :
    step m (let '(h, c) := effect (set_ref W (run_cleanup (pending m) (hook m))) in
            mkMounted h c)
| mutate d r m :
    step m (mkMounted
              (queue_record r
                 (mkHook d (WatchElementRef (hook m)) (MirrorDocumentRef (hook m))
                    (DaemonState (hook m)) (FinalizeChanges_calls (hook m))))
              (pending m))
| callback m : step m (mkMounted (deliver (hook m)) (pending m))
| flush m h' : FlushQueue (hook m) = Ok h' → step m (mkMounted h' (pending m)).

(** The hook as [useState] and the first render leave it, before any
    effect has run. *)
Definition fresh (d : DOM) (Mirror : option nid) : Mounted :=
  mkMounted (mkHook d None Mirror (mkDaemonState (mkObserver None []) []) 0) None.

Definition unmount (m : Mounted) : Hook := run_cleanup (pending m) (hook m).

End Lifecycle.

(* ===================================================================== *)
(** * Example documents *)
(* ===================================================================== *)

Module Example.

Definition element (t i c : string) (p : option nid) (ch : list nid) : Node :=
  mkNode (Element t i c) p ch.
Definition text (s : string) (p : option nid) : Node := mkNode (Text s) p [].

(** The page of the editor: [<main class="Editor-Inner">] is the
    watched element, with one paragraph.  Nodes 10 to 14 are the mirror
    document, whose body has the same content. *)
Definition page : DOM := list_to_map [
  (0, mkNode Document None [1]);
  (1, element "HTML" "" "" (Some 0) [2]);
  (2, element "BODY" "" "" (Some 1) [3]);
  (3, element "MAIN" "" "Editor-Inner" (Some 2) [4]);
  (4, element "P" "" "" (Some 3) [5]);
  (5, text "Hello" (Some 4));
  (10, mkNode Document None [11]);
  (11, element "HTML" "" "" (Some 10) [12]);
  (12, element "BODY" "" "" (Some 11) [13]);
  (13, element "P" "" "" (Some 12) [14]);
  (14, text "Hello" (Some 13))].

(** The same page with a detached paragraph, nodes 20 and 21. *)
Definition page_with_spare : DOM :=
  <[20 := element "P" "" "" None [21]]> (<[21 := text "World" (Some 20)]> page).

(** The page after [oldParagraph.replaceWith(newParagraph)], where the
    new paragraph is the spare one: the watched element holds the new
    paragraph, the old one is detached. *)
Definition page_replaced : DOM :=
  Dom.set_parent 20 (Some 3)
    (Dom.set_parent 4 None (Dom.set_children 3 [20] page_with_spare)).

(** The record of that replacement. *)
Definition replaced : MutationRecord :=
  Mutation.mk Mutation.childList 3 [20] [4] None None None.

(** A document whose body is the watched element: a paragraph with a
    text, and two paragraphs with the same id. *)
Definition body_page : DOM := list_to_map [
  (0, mkNode Document None [1]);
  (1, element "HTML" "" "" (Some 0) [2]);
  (2, element "BODY" "" "" (Some 1) [3; 5; 6]);
  (3, element "P" "" "" (Some 2) [4]);
  (4, text "Hello" (Some 3));
  (5, element "P" "a" "" (Some 2) []);
  (6, element "P" "a" "" (Some 2) [])].

(** The page with the spare paragraph put in as a second paragraph. *)
Definition page_two : DOM :=
  Dom.set_parent 20 (Some 3) (Dom.set_children 3 [4; 20] page_with_spare).

(** The page after [watched.replaceChildren()], and the record of it:
    both paragraphs are removed at once. *)
Definition page_emptied : DOM :=
  Browser.relink 3 [] [] [4; 20] page_two.

Definition emptied : MutationRecord :=
  Mutation.mk Mutation.childList 3 [] [4; 20] None None None.

(** A page whose watched element has a heading that the mirror lacks,
    after the spare paragraph was inserted in front of that heading, and
    the record of the insertion. *)
Definition page_inserted : DOM :=
  Dom.set_parent 20 (Some 3)
    (Dom.set_children 3 [4; 20; 30]
       (<[30 := element "H1" "" "" (Some 3) []]> page_with_spare)).

Definition inserted : MutationRecord :=
  Mutation.mk Mutation.childList 3 [20] [] (Some 4) (Some 30) None.

(** Two paragraphs, [A] and [B], in the watched element and in the
    mirror; the same after the second paragraph was deleted from the
    watched element, and the record of the deletion. *)
Definition page_ab : DOM := list_to_map [
  (0, mkNode Document None [1]);
  (1, element "HTML" "" "" (Some 0) [2]);
  (2, element "BODY" "" "" (Some 1) [3]);
  (3, element "MAIN" "" "Editor-Inner" (Some 2) [4; 6]);
  (4, element "P" "" "" (Some 3) [5]);
  (5, text "A" (Some 4));
  (6, element "P" "" "" (Some 3) [7]);
  (7, text "B" (Some 6));
  (10, mkNode Document None [11]);
  (11, element "HTML" "" "" (Some 10) [12]);
  (12, element "BODY" "" "" (Some 11) [13; 15]);
  (13, element "P" "" "" (Some 12) [14]);
  (14, text "A" (Some 13));
  (15, element "P" "" "" (Some 12) [16]);
  (16, text "B" (Some 15))].

Definition page_ab_deleted : DOM := Browser.relink 3 [4] [] [6] page_ab.

Definition deleted : MutationRecord :=
  Mutation.mk Mutation.childList 3 [] [6] (Some 4) None None.

(** The record of a change of the text of node [t]. *)
Definition typed_in (t : nid) (old : string) : MutationRecord :=
  Mutation.mk Mutation.characterData t [] [] None None (Some old).

Definition typed (old : string) : MutationRecord := typed_in 5 old.

Definition idle (d : DOM) : Hook :=
  mkHook d (Some 3) (Some 10) (mkDaemonState (mkObserver (Some 3) []) []) 0.

(** The browser has queued a record that the callback has not seen. *)
Definition undelivered (d : DOM) (r : MutationRecord) : Hook :=
  mkHook d (Some 3) (Some 10) (mkDaemonState (mkObserver (Some 3) [r]) []) 0.

End Example.

(* ===================================================================== *)
(** * An insertion between two paragraphs *)
(* ===================================================================== *)

Module Insertion.

(** The two paragraphs [A] and [B] of [Example.page_ab], and a detached
    paragraph [C], nodes 20 and 21. *)
Definition page : DOM :=
  <[20 := Example.element "P" "" "" None [21]]>
    (<[21 := Example.text "C" (Some 20)]> Example.page_ab).

(** The page after the paragraph [C] was inserted between the two, and
    the record of the insertion. *)
Definition page_inserted : DOM := Browser.relink 3 [4; 20; 6] [20] [] page.

Definition inserted : MutationRecord :=
  Mutation.mk Mutation.childList 3 [20] [] (Some 4) (Some 6) None.

End Insertion.

(* ===================================================================== *)
(** * A heading with an id *)
(* ===================================================================== *)

Module Heading.

(** The page of the editor with a heading after the paragraph of the
    watched element, [<h1 id=k>Title</h1>], nodes 6 and 7; the mirror
    document has no such heading. *)
Definition page : DOM :=
  Dom.set_children 3 [4; 6]
    (<[6 := Example.element "H1" "k" "" (Some 3) [7]]>
       (<[7 := Example.text "Title" (Some 6)]> Example.page)).

End Heading.

(* ===================================================================== *)
(** * Properties *)
(* ===================================================================== *)

(** ** Arrays *)

Lemma pop_nil {A} : pop (@nil A) = None.
Proof. reflexivity. Qed.

Lemma pop_snoc {A} (l : list A) (x : A) : pop (l ++ [x]) = Some (x, l).
Proof. unfold pop. by rewrite rev_unit, rev_involutive. Qed.

Lemma pop_None {A} (l : list A) : pop l = None → l = [].
Proof.
  destruct l as [|x l] using rev_ind; [done|]. by rewrite pop_snoc.
Qed.

Lemma pop_Some {A} (l l' : list A) (x : A) : pop l = Some (x, l') → l = l' ++ [x].
Proof.
  destruct l as [|y l _] using rev_ind; [done|].
  rewrite pop_snoc. by intros [= -> ->].
Qed.

(** ** The two loops run to the end of their array *)

Lemma compile_loop_snoc W turns q r d logs :
  compile_loop W (S turns) (q ++ [r]) d logs =
  compile_record W r d logs ≫= λ '(d', logs'), compile_loop W turns q d' logs'.
Proof. simpl. rewrite pop_snoc. reflexivity. Qed.

Lemma compile_loop_drains W q : ∀ turns d logs q' d' logs',
  length q ≤ turns →
  compile_loop W turns q d logs = Ok (q', d', logs') → q' = [].
Proof.
  induction q as [|r q IH] using rev_ind; intros turns d logs q' d' logs' Hlen.
  - destruct turns; simpl; congruence.
  - rewrite length_app in Hlen. simpl in Hlen.
    destruct turns as [|turns]; [lia|].
    rewrite compile_loop_snoc.
    destruct (compile_record W r d logs) as [[d1 logs1]|e]; simpl; [|done].
    apply IH. lia.
Qed.

Lemma compile_loop_records W q : ∀ turns d logs,
  length q ≤ turns →
  compile_loop W turns q d logs
  = compile_records W (rev q) d logs ≫= λ '(d', logs'), Ok ([], d', logs').
Proof.
  induction q as [|r q IH] using rev_ind; intros turns d logs Hlen.
  - destruct turns; reflexivity.
  - rewrite length_app in Hlen. simpl in Hlen.
    destruct turns as [|turns]; [lia|].
    rewrite compile_loop_snoc, rev_unit. simpl.
    destruct (compile_record W r d logs) as [[d1 logs1]|e]; simpl; [|done].
    apply IH. lia.
Qed.

Lemma compile_as_records W q d :
  compile W q d = compile_records W (rev q) d [] ≫= λ '(d', logs'), Ok ([], d', logs').
Proof. by apply compile_loop_records. Qed.

Lemma SyncToMirror_snoc Mirror ops op d :
  SyncToMirror Mirror (ops ++ [op]) d =
  apply_operation Mirror d op ≫= SyncToMirror Mirror ops.
Proof.
  unfold SyncToMirror. rewrite length_app, Nat.add_comm. simpl.
  by rewrite pop_snoc.
Qed.

Lemma SyncToMirror_nil Mirror d : SyncToMirror Mirror [] d = Ok d.
Proof. reflexivity. Qed.

(** ** Observation *)

Lemma toggleObserve_false_queue h :
  MutationQueue (DaemonState (toggleObserve false h)) = MutationQueue (DaemonState h).
Proof. reflexivity. Qed.

Lemma FlushQueue_deliver h : FlushQueue (deliver h) = FlushQueue h.
Proof.
  destruct h as [d w m [[o rs] q] k]. unfold FlushQueue, deliver. simpl.
  by rewrite app_nil_r.
Qed.

(** C8, as the code has it: [toggleObserve(false)] disconnects the
    observer and leaves the queue as it is; the undelivered records are
    merged by [FlushQueue], which takes them before it stops observing,
    so that a flush sees exactly what it would see had the browser
    delivered them; and a second start, or a second stop, changes
    nothing. *)
Theorem toggleObserve_contract (h : Hook) :
  observed (Observer (DaemonState (toggleObserve false h))) = None
  ∧ MutationQueue (DaemonState (toggleObserve false h)) = MutationQueue (DaemonState h)
  ∧ MutationQueue (DaemonState (deliver h))
    = MutationQueue (DaemonState h) ++ records (Observer (DaemonState h))
  ∧ FlushQueue h = FlushQueue (deliver h)
  ∧ toggleObserve false (toggleObserve false h) = toggleObserve false h
  ∧ toggleObserve true (toggleObserve true h) = toggleObserve true h.
Proof.
  repeat split.
  - symmetry. apply FlushQueue_deliver.
  - destruct h as [d [w|] m [o q] k]; reflexivity.
Qed.

(** C8, as the claim states it, fails: stopping the observer while a
    record is still undelivered does not move that record to the queue;
    the record is in neither place afterwards. *)
Lemma toggleObserve_false_does_not_merge :
  let h := Example.undelivered Example.page (Example.typed "Hell") in
  records (Observer (DaemonState h)) = [Example.typed "Hell"]
  ∧ MutationQueue (DaemonState (toggleObserve false h))
    ≠ MutationQueue (DaemonState h) ++ records (Observer (DaemonState h))
  ∧ MutationQueue (DaemonState (toggleObserve false h)) = []
  ∧ records (Observer (DaemonState (toggleObserve false h))) = [].
Proof. repeat split. discriminate. Qed.

(** ** Flushing *)

(** C7: a flush that finds the queue empty, the undelivered records
    counted in, returns at once: the heap, and with it the mirror
    document, is untouched, [FinalizeChanges] is not called, and nothing
    else changes either. *)
Theorem FlushQueue_empty_queue (h : Hook) :
  MutationQueue (DaemonState h) ++ records (Observer (DaemonState h)) = [] →
  FlushQueue h = Ok h
  ∧ ∀ h', FlushQueue h = Ok h' →
      heap h' = heap h ∧ FinalizeChanges_calls h' = FinalizeChanges_calls h.
Proof.
  intros Hq. apply app_eq_nil in Hq as [Hq Hr].
  assert (FlushQueue h = Ok h) as H.
  { destruct h as [d w m [[o rs] q] k]. simpl in *. subst. reflexivity. }
  split; [done|]. intros h'. rewrite H. by intros [= <-].
Qed.

Lemma FlushQueue_empty_queue_witness :
  FlushQueue (Example.idle Example.page) = Ok (Example.idle Example.page)
  ∧ ∀ h', FlushQueue (Example.idle Example.page) = Ok h' →
      heap h' = heap (Example.idle Example.page)
      ∧ FinalizeChanges_calls h' = FinalizeChanges_calls (Example.idle Example.page).
Proof. apply FlushQueue_empty_queue. reflexivity. Defined.

(** C10: when [FlushQueue] returns, the queue is empty and so is the
    observer's own record list: the undelivered records were taken
    first, and the loop popped every record of the merged queue.  Each
    record of the merged queue was compiled once, the newest first, and
    the log so compiled is the one replayed. *)
Theorem FlushQueue_leaves_queue_empty (h h' : Hook) :
  FlushQueue h = Ok h' →
  MutationQueue (DaemonState h') = []
  ∧ records (Observer (DaemonState h')) = []
  ∧ ∃ d logs,
      compile_records (WatchElementRef h)
        (rev (MutationQueue (DaemonState h) ++ records (Observer (DaemonState h))))
        (heap h) [] = Ok (d, logs)
      ∧ SyncToMirror (MirrorDocumentRef h) logs d = Ok (heap h').
Proof.
  destruct h as [d w m [[o rs] q] k]. unfold FlushQueue. simpl.
  destruct (decide (q ++ rs = [])) as [Hq|Hq].
  - intros [= <-]. rewrite Hq. split; [done|]. split; [done|]. by exists d, [].
  - destruct (compile w (q ++ rs) d) as [[[q' d'] logs]|e] eqn:Hc; simpl; [|done].
    pose proof Hc as Hq'. apply compile_loop_drains in Hq' as ->; [|done].
    rewrite compile_as_records in Hc.
    destruct (compile_records w (rev (q ++ rs)) d []) as [[d1 logs1]|e] eqn:Hr;
      simpl in Hc; [|done].
    injection Hc as -> ->.
    destruct (SyncToMirror m logs d') as [d''|e] eqn:Hs; simpl; [|done].
    intros [= <-]. split; [by destruct w|]. split; [by destruct w|].
    exists d', logs. split; [done|]. by destruct w.
Qed.

Lemma FlushQueue_leaves_queue_empty_witness :
  let h := Example.undelivered (Dom.set_kind 5 (Text "HelloX") Example.page)
             (Example.typed "Hello") in
  MutationQueue (DaemonState (flushed h)) = []
  ∧ records (Observer (DaemonState (flushed h))) = []
  ∧ ∃ d logs,
      compile_records (WatchElementRef h)
        (rev (MutationQueue (DaemonState h) ++ records (Observer (DaemonState h))))
        (heap h) [] = Ok (d, logs)
      ∧ SyncToMirror (MirrorDocumentRef h) logs d = Ok (heap (flushed h)).
Proof.
  intros h. apply (FlushQueue_leaves_queue_empty h (flushed h)).
  vm_compute. reflexivity.
Defined.

(** ** Addresses *)

Lemma depth_lt fuel d n k : Tree.depth fuel d n = Some k → k < fuel.
Proof.
  revert n k. induction fuel as [|fuel IH]; intros n k; simpl; [done|].
  destruct (Dom.parent_of d n) as [p|]; [|intros [= <-]; lia].
  destruct (Tree.depth fuel d p) as [k'|] eqn:Hp; simpl; [|done].
  intros [= <-]. apply IH in Hp. lia.
Qed.

Lemma depth_mono fuel fuel' d n k :
  Tree.depth fuel d n = Some k → fuel ≤ fuel' → Tree.depth fuel' d n = Some k.
Proof.
  revert fuel' n k. induction fuel as [|fuel IH]; intros fuel' n k; simpl; [done|].
  intros H Hle. destruct fuel' as [|fuel']; [lia|]. simpl.
  destruct (Dom.parent_of d n) as [p|]; [|done].
  destruct (Tree.depth fuel d p) as [k'|] eqn:Hp; simpl in *; [|done].
  rewrite (IH fuel' p k'); [done|done|lia].
Qed.

Lemma depth_parent fuel d n p k :
  Tree.depth fuel d n = Some k → Dom.parent_of d n = Some p →
  ∃ k', k = S k' ∧ Tree.depth (pred fuel) d p = Some k'.
Proof.
  destruct fuel as [|fuel]; simpl; [done|]. intros H Hp. rewrite Hp in H.
  destruct (Tree.depth fuel d p) as [k'|]; simpl in *; [|done].
  injection H as <-. eauto.
Qed.

(** The address is computed as soon as the chain of ancestors fits in
    the fuel. *)
Lemma getXPathFromNode_rec_total fuel d W n k :
  Tree.depth fuel d n = Some k → is_Some (getXPathFromNode_rec fuel d W n).
Proof.
  revert n k. induction fuel as [|fuel IH]; intros n k; simpl; [done|].
  destruct W as [w|]; [|eauto].
  destruct (Dom.parent_of d n) as [p|].
  - destruct (Tree.depth fuel d p) as [k'|] eqn:Hp; simpl; [|done]. intros _.
    destruct (IH _ _ Hp) as [s Hs]. rewrite Hs. simpl.
    repeat case_match; eauto.
  - intros _. repeat case_match; eauto.
Qed.

Lemma getXPathFromNode_rec_mono fuel fuel' d W n s :
  getXPathFromNode_rec fuel d W n = Some s → fuel ≤ fuel' →
  getXPathFromNode_rec fuel' d W n = Some s.
Proof.
  revert fuel' n s. induction fuel as [|fuel IH]; intros fuel' n s; simpl; [done|].
  intros H Hle. destruct fuel' as [|fuel']; [lia|]. simpl.
  destruct W as [w|]; [|done].
  destruct (has_id d n); [done|].
  destruct (looks_like d n w); [done|].
  destruct (Dom.parent_of d n) as [p|]; [|done].
  destruct (Dom.is_text d n).
  - destruct (getXPathFromNode_rec fuel d (Some w) p) as [s'|] eqn:Hp; [|done].
    rewrite (IH fuel' p s'); [done|done|lia].
  - destruct (count_same d n (Dom.children_of d p) 0); [|done].
    destruct (getXPathFromNode_rec fuel d (Some w) p) as [s'|] eqn:Hp; [|done].
    rewrite (IH fuel' p s'); [done|done|lia].
Qed.

(** Above a rooted node the recursion of [getXPathFromNode] reaches its
    end, so that the address of the parent is what the recursive call
    returns. *)
Lemma getXPathFromNode_parent d W n p :
  Tree.rooted d n → Dom.parent_of d n = Some p →
  getXPathFromNode_rec (size d) d W p = Some (getXPathFromNode d W p).
Proof.
  intros [k Hk] Hp.
  destruct (depth_parent _ _ _ _ _ Hk Hp) as (k' & -> & Hk').
  destruct (getXPathFromNode_rec_total _ _ W _ _ Hk') as [s Hs].
  unfold getXPathFromNode.
  rewrite (getXPathFromNode_rec_mono _ (S (size d)) _ _ _ _ Hs) by lia.
  rewrite (getXPathFromNode_rec_mono _ (size d) _ _ _ _ Hs) by lia.
  done.
Qed.

(** For a rooted node the recursion is not cut: the address is what the
    recursion returns, not the fallback. *)
Lemma getXPathFromNode_computed d W n :
  Tree.rooted d n →
  getXPathFromNode_rec (S (size d)) d W n = Some (getXPathFromNode d W n).
Proof.
  intros [k Hk]. destruct (getXPathFromNode_rec_total _ _ W _ _ Hk) as [s Hs].
  unfold getXPathFromNode.
  by rewrite (getXPathFromNode_rec_mono _ (S (size d)) _ _ _ _ Hs) by lia.
Qed.

Lemma count_text_spec d l :
  count_text d (rev l) = S (length (List.filter (Dom.is_text d) l)).
Proof.
  unfold count_text.
  assert (∀ l a, foldl (λ i s, if Dom.is_text d s then S i else i) a l
                 = a + length (List.filter (Dom.is_text d) l)) as H.
  { clear l. induction l as [|x l IH]; intros a; simpl; [lia|].
    rewrite IH. destruct (Dom.is_text d x); simpl; lia. }
  rewrite H. f_equal. induction l as [|x l IH]; simpl; [done|].
  rewrite List.filter_app, length_app, IH. simpl.
  destruct (Dom.is_text d x); simpl; lia.
Qed.

Lemma count_same_spec d node l a :
  node ∈ l →
  count_same d node l a
  = Some (a + length (List.filter (same_name d node) (Dom.before node l))).
Proof.
  revert a. induction l as [|x l IH]; intros a Hin; [by apply elem_of_nil in Hin|].
  simpl. destruct (decide (x = node)) as [->|Hne]; simpl.
  - f_equal. lia.
  - apply elem_of_cons in Hin as [->|Hin]; [done|].
    rewrite IH by done. unfold same_name at 2.
    destruct (Dom.is_element d x && _); simpl; f_equal; lia.
Qed.

Lemma count_same_None d node l a : node ∉ l → count_same d node l a = None.
Proof.
  revert a. induction l as [|x l IH]; intros a Hin; [done|].
  simpl. apply not_elem_of_cons in Hin as [Hne Hin].
  destruct (decide (x = node)); [done|]. by apply IH.
Qed.

(** The four cases of [getXPathFromNode], with the two counts written as
    counts. *)
Lemma getXPathFromNode_cases (d : DOM) (w node : nid) :
  Tree.rooted d node →
  let address := getXPathFromNode d (Some w) in
  (∀ i, Dom.id d node = Some i → i ≠ "" →
     address node = "//*[@id=" +:+ Str.dquote +:+ i +:+ Str.dquote +:+ "]")
  ∧ (has_id d node = None → looks_like d node w = true → address node = "//body")
  ∧ (has_id d w = None → address w = "//body")
  ∧ (∀ p, has_id d node = None → looks_like d node w = false →
       Dom.is_text d node = true → Dom.parent_of d node = Some p →
       address node
       = address p +:+ "/text()["
         +:+ Str.of_nat
               (1 + length (List.filter (Dom.is_text d)
                              (Dom.before node (Dom.children_of d p))))
         +:+ "]")
  ∧ (∀ p, has_id d node = None → looks_like d node w = false →
       Dom.is_text d node = false → Dom.parent_of d node = Some p →
       node ∈ Dom.children_of d p →
       address node
       = address p +:+ "/" +:+ lower_name d node +:+ "["
         +:+ Str.of_nat
               (1 + length (List.filter (same_name d node)
                              (Dom.before node (Dom.children_of d p))))
         +:+ "]").
Proof.
  intros Hroot address. subst address. unfold getXPathFromNode at 1 2 3 4 6.
  repeat split.
  - intros i Hi Hne. simpl. unfold has_id. rewrite Hi.
    by destruct (decide (i = "")).
  - intros Hid Hw. simpl. by rewrite Hid, Hw.
  - intros Hid. simpl. rewrite Hid. unfold looks_like.
    by rewrite !bool_decide_eq_true_2.
  - intros p Hid Hw Ht Hp. simpl. rewrite Hid, Hw, Ht, Hp.
    rewrite (getXPathFromNode_parent d (Some w) node p Hroot Hp). simpl.
    unfold Dom.previousSiblings. rewrite Hp, count_text_spec. done.
  - intros p Hid Hw Ht Hp Hin. simpl. rewrite Hid, Hw, Ht, Hp.
    rewrite (count_same_spec d node _ 0 Hin).
    rewrite (getXPathFromNode_parent d (Some w) node p Hroot Hp). simpl.
    by rewrite Nat.add_1_r.
Qed.

Lemma to_uint_nonnil (k : nat) : Nat.to_uint k ≠ Decimal.Nil.
Proof.
  rewrite <- (DecimalNat.Unsigned.of_to k) at 1.
  rewrite DecimalNat.Unsigned.to_of. apply DecimalFacts.unorm_nonnil.
Qed.

(** *** The rules in the words of the specification *)

Lemma small_lower_unit (c : ascii) : AddressRules.small c = Str.lower_unit c.
Proof. destruct c as [[] [] [] [] [] [] [] []]; reflexivity. Qed.

Lemma lower_case_toLowerCase (s : string) : AddressRules.lower_case s = Str.toLowerCase s.
Proof. induction s as [|c s IH]; simpl; [done|]. by rewrite small_lower_unit, IH. Qed.

Lemma to_lu_small (n : nat) (acc : Decimal.uint) :
  n < 10 →
  NilEmpty.string_of_uint (Decimal.revapp (DecimalNat.Unsigned.to_lu n) acc)
  = String (AddressRules.digit n) (NilEmpty.string_of_uint acc).
Proof.
  intros Hn. do 10 (destruct n as [|n]; [reflexivity|]). lia.
Qed.

Lemma to_lu_digit (q r : nat) (acc : Decimal.uint) :
  q ≠ 0 → r < 10 →
  ∃ acc',
    Decimal.revapp (DecimalNat.Unsigned.to_lu (r + 10 * q)) acc
    = Decimal.revapp (DecimalNat.Unsigned.to_lu q) acc'
    ∧ NilEmpty.string_of_uint acc'
      = String (AddressRules.digit r) (NilEmpty.string_of_uint acc).
Proof.
  intros Hq Hr.
  pose proof (DecimalNat.Unsigned.to_lu_tenfold q Hq) as H0.
  do 10 (destruct r as [|r];
    [ cbn [Nat.add]; rewrite ?DecimalNat.Unsigned.to_lu_succ, H0;
      cbn [Decimal.Little.succ Decimal.revapp]; eexists; split; reflexivity |]).
  lia.
Qed.

Lemma decimal_from_to_lu (fuel : nat) : ∀ n acc,
  n < fuel →
  NilEmpty.string_of_uint (Decimal.revapp (DecimalNat.Unsigned.to_lu n) acc)
  = AddressRules.decimal_from fuel n (NilEmpty.string_of_uint acc).
Proof.
  induction fuel as [|fuel IH]; intros n acc Hn; [lia|].
  cbn [AddressRules.decimal_from].
  pose proof (Nat.div_mod_eq n 10) as Hdm.
  pose proof (Nat.mod_upper_bound n 10 ltac:(lia)) as Hr.
  destruct (Nat.eqb_spec (n / 10) 0) as [Hq|Hq].
  - rewrite Hq in Hdm. replace (n mod 10) with n by lia.
    apply to_lu_small. lia.
  - destruct (to_lu_digit (n / 10) (n mod 10) acc Hq Hr) as (acc' & Hrev & Hstr).
    replace (n mod 10 + 10 * (n / 10)) with n in Hrev by lia.
    rewrite Hrev, <- Hstr. apply IH. lia.
Qed.

(** The number in an address is the decimal numeral of the number. *)
Lemma of_nat_decimal (n : nat) : Str.of_nat n = AddressRules.decimal n.
Proof.
  unfold Str.of_nat, AddressRules.decimal, NilZero.string_of_uint.
  pose proof (to_uint_nonnil n) as Hnil.
  destruct (Nat.to_uint n) eqn:Hu; [done|..];
    rewrite <- Hu, DecimalNat.Unsigned.to_uint_alt;
    apply (decimal_from_to_lu (S n) n Decimal.Nil); lia.
Qed.

Lemma has_id_None (d : DOM) (node : nid) :
  has_id d node = None ↔ AddressRules.no_id d node.
Proof.
  unfold has_id, AddressRules.no_id. destruct (Dom.id d node) as [i|].
  - destruct (decide (i = "")) as [->|Hne]; split; try done; eauto.
    intros [?|[= ?]]; done.
  - split; eauto.
Qed.

Lemma looks_like_true (d : DOM) (w node : nid) :
  looks_like d node w = true ↔ AddressRules.is_watched_root d w node.
Proof.
  unfold looks_like, AddressRules.is_watched_root.
  rewrite andb_true_iff, !bool_decide_eq_true. tauto.
Qed.

(** C5: the rules of the address, in the order of their priority.  A
    node with a non-empty [id] is looked up by it; failing that, a node
    with the tag and the class of the watched element, as the watched
    element itself, is the sentinel [//body]; failing that, a text node
    has the address of its parent, then [/text()] and, in decimal, one
    more than the number of text nodes among the siblings before it; any
    other node has the address of its parent, then its name in small
    letters and, in decimal, one more than the number of elements of the
    same name among the siblings before it. *)
Theorem getXPathFromNode_rules (d : DOM) (w node : nid) :
  Tree.rooted d node →
  let address := getXPathFromNode d (Some w) in
  (∀ i, Dom.id d node = Some i → i ≠ "" → address node = AddressRules.by_id i)
  ∧ (AddressRules.no_id d node → AddressRules.is_watched_root d w node →
     address node = AddressRules.sentinel)
  ∧ (AddressRules.no_id d w → address w = AddressRules.sentinel)
  ∧ (∀ p, AddressRules.no_id d node → ¬ AddressRules.is_watched_root d w node →
       Dom.is_text d node = true → Dom.parent_of d node = Some p →
       address node
       = address p
         +:+ AddressRules.text_step
               (1 + length (List.filter (Dom.is_text d)
                              (Dom.before node (Dom.children_of d p)))))
  ∧ (∀ p name, AddressRules.no_id d node → ¬ AddressRules.is_watched_root d w node →
       Dom.is_text d node = false → Dom.parent_of d node = Some p →
       node ∈ Dom.children_of d p → Dom.nodeName d node = Some name →
       address node
       = address p
         +:+ AddressRules.element_step name
               (1 + length (List.filter (same_name d node)
                              (Dom.before node (Dom.children_of d p))))).
Proof.
  intros Hroot address. subst address.
  destruct (getXPathFromNode_cases d w node Hroot) as (R1 & R2 & R3 & R4 & R5).
  assert (∀ n, ¬ AddressRules.is_watched_root d w n → looks_like d n w = false) as Hnot.
  { intros n Hn. destruct (looks_like d n w) eqn:Hl; [|done].
    by apply looks_like_true in Hl. }
  split; [|split; [|split; [|split]]].
  - intros i Hi Hne. exact (R1 i Hi Hne).
  - intros Hid%has_id_None Hw%looks_like_true. exact (R2 Hid Hw).
  - intros Hid%has_id_None. exact (R3 Hid).
  - intros p Hid%has_id_None Hw%Hnot Ht Hp. rewrite (R4 p Hid Hw Ht Hp).
    unfold AddressRules.text_step. by rewrite of_nat_decimal.
  - intros p name Hid%has_id_None Hw%Hnot Ht Hp Hin Hname.
    rewrite (R5 p Hid Hw Ht Hp Hin).
    unfold AddressRules.element_step, lower_name. rewrite Hname. simpl.
    by rewrite of_nat_decimal, lower_case_toLowerCase.
Qed.

Lemma getXPathFromNode_rules_witness :
  getXPathFromNode Example.page_ab (Some 3) 7 = "//body/p[2]/text()[1]"
  ∧ getXPathFromNode Example.body_page (Some 2) 5
    = "//*[@id=" +:+ String "034"%char (String "a"%char (String "034"%char "]")).
Proof.
  split.
  - destruct (getXPathFromNode_rules Example.page_ab 3 7) as (_ & _ & _ & T & _);
      [eexists; vm_compute; reflexivity|].
    destruct (getXPathFromNode_rules Example.page_ab 3 6) as (_ & _ & W & _ & E);
      [eexists; vm_compute; reflexivity|].
    unfold nid in *.
    rewrite (T 6); [|by left|intros [H _]; vm_compute in H; discriminate|done..].
    rewrite (E 3 "P");
      [|by right|intros [H _]; vm_compute in H; discriminate|done|done| |done].
    + rewrite W by (by right). vm_compute. reflexivity.
    + apply (list_elem_of_lookup_2 _ 1). reflexivity.
  - destruct (getXPathFromNode_rules Example.body_page 2 5) as (I & _);
      [eexists; vm_compute; reflexivity|].
    unfold nid in *. rewrite (I "a"); [|vm_compute; reflexivity|done].
    vm_compute. reflexivity.
Defined.

(** ** Compiling a queue *)

Lemma compile_records_app W l1 l2 d logs :
  compile_records W (l1 ++ l2) d logs
  = compile_records W l1 d logs ≫= λ '(d', logs'), compile_records W l2 d' logs'.
Proof.
  revert d logs. induction l1 as [|r l1 IH]; intros d logs; simpl; [done|].
  destruct (compile_record W r d logs) as [[d1 logs1]|e]; simpl; [|done].
  apply IH.
Qed.

(** Against an operation that carries an address, the comparison of the
    two [JSON.stringify] texts is the comparison of the operations. *)
Lemma JSON_same_text W d t latest :
  JSON_same latest (text_operation W d t)
  = bool_decide (latest = Some (text_operation W d t)).
Proof.
  destruct latest as [[ty nd tx pa si]|]; simpl; [|done].
  unfold JSON_view, text_operation. simpl.
  apply bool_decide_ext. split.
  - destruct nd; intros [= -> -> -> -> ->]; done.
  - by intros [= -> -> -> -> ->].
Qed.

Lemma compile_record_text_edit W d t r logs :
  text_edit t r →
  compile_record W r d logs
  = Ok (d, if decide (last logs = Some (text_operation W d t)) then logs
           else logs ++ [text_operation W d t]).
Proof.
  intros (Hty & Ht & [old Hold] & Ha & Hr).
  unfold compile_record, compile_text. rewrite Hty, Ht, Hold, Ha, Hr. simpl.
  fold (text_operation W d t). rewrite JSON_same_text.
  by destruct (decide (last logs = Some (text_operation W d t)));
    [rewrite bool_decide_eq_true_2|rewrite bool_decide_eq_false_2].
Qed.

(** C4: two changes of the text of one node that follow each other in
    the queue compile to what the later one alone compiles to, wherever
    they stand in the queue; alone in the queue, they compile to exactly
    one [TEXT] operation, which carries the address of the node and its
    present text; and compiling a change of text pushes its operation
    only when it differs from the last operation of the log. *)
Theorem text_edits_collapse (W : option nid) (d : DOM) (t : nid) (r1 r2 : MutationRecord) :
  text_edit t r1 → text_edit t r2 →
  compile W [r1; r2] d = Ok ([], d, [text_operation W d t])
  ∧ (∀ q q' d0, compile W (q ++ [r1; r2] ++ q') d0 = compile W (q ++ [r2] ++ q') d0)
  ∧ (∀ logs,
       compile_record W r1 d logs
       = Ok (d, if decide (last logs = Some (text_operation W d t)) then logs
                else logs ++ [text_operation W d t])).
Proof.
  intros H1 H2. repeat split.
  - rewrite compile_as_records. simpl.
    rewrite (compile_record_text_edit W d t r2 [] H2). simpl.
    rewrite (compile_record_text_edit W d t r1 _ H1). simpl.
    by rewrite decide_True.
  - intros q q' d0. rewrite !compile_as_records, !rev_app_distr. simpl.
    rewrite <- !app_assoc. simpl. rewrite !compile_records_app.
    destruct (compile_records W (rev q') d0 []) as [[d1 logs1]|e]; simpl; [|done].
    rewrite !(compile_record_text_edit W d1 t r2 _ H2). simpl.
    rewrite (compile_record_text_edit W d1 t r1 _ H1). simpl.
    destruct (decide (last logs1 = Some (text_operation W d1 t))) as [Hl|Hl].
    + by rewrite decide_True.
    + by rewrite decide_True by apply last_snoc.
  - intros logs. by apply compile_record_text_edit.
Qed.

Lemma text_edits_collapse_witness :
  let d := Dom.set_kind 5 (Text "HelloXY") Example.page in
  compile (Some 3) [Example.typed "Hello"; Example.typed "HelloX"] d
  = Ok ([], d, [Operation.mk TEXT (Address "//body/p[1]/text()[1]") (Some "HelloXY")
                  None None]).
Proof.
  intros d.
  destruct (text_edits_collapse (Some 3) d 5 (Example.typed "Hello") (Example.typed "HelloX"))
    as (H & _).
  - repeat split; eauto.
  - repeat split; eauto.
  - rewrite H. vm_compute. reflexivity.
Defined.

(** ** Reading the heap after a write *)

Lemma size_alter (f : Node → Node) n (d : DOM) : size (alter f n d) = size d.
Proof. by rewrite <- !size_dom, dom_alter_L. Qed.

Lemma parent_of_set_children p l d n :
  Dom.parent_of (Dom.set_children p l d) n = Dom.parent_of d n.
Proof.
  unfold Dom.parent_of, Dom.set_children.
  destruct (decide (p = n)) as [->|Hne]; [|by rewrite lookup_alter_ne].
  rewrite lookup_alter_eq. by destruct (d !! n).
Qed.

Lemma kind_of_set_children p l d n :
  Dom.kind_of (Dom.set_children p l d) n = Dom.kind_of d n.
Proof.
  unfold Dom.kind_of, Dom.set_children.
  destruct (decide (p = n)) as [->|Hne]; [|by rewrite lookup_alter_ne].
  rewrite lookup_alter_eq. by destruct (d !! n).
Qed.

Lemma children_of_set_children p l d n :
  Dom.children_of (Dom.set_children p l d) n
  = if decide (p = n ∧ is_Some (d !! p)) then l else Dom.children_of d n.
Proof.
  unfold Dom.children_of, Dom.set_children.
  destruct (decide (p = n)) as [->|Hne]; [rewrite lookup_alter_eq|rewrite lookup_alter_ne by done].
  - destruct (d !! n) eqn:E; simpl.
    + rewrite decide_True; [done|]. split; [done|]. eauto.
    + rewrite decide_False; [done|]. intros [_ [? ?]]. congruence.
  - rewrite decide_False; [done|]. by intros [? _].
Qed.

Lemma parent_of_set_parent n q d m :
  Dom.parent_of (Dom.set_parent n q d) m
  = if decide (n = m ∧ is_Some (d !! n)) then q else Dom.parent_of d m.
Proof.
  unfold Dom.parent_of, Dom.set_parent.
  destruct (decide (n = m)) as [->|Hne]; [rewrite lookup_alter_eq|rewrite lookup_alter_ne by done].
  - destruct (d !! m) eqn:E; simpl.
    + rewrite decide_True; [done|]. split; [done|]. eauto.
    + rewrite decide_False; [done|]. intros [_ [? ?]]. congruence.
  - rewrite decide_False; [done|]. by intros [? _].
Qed.

Lemma kind_of_set_parent n q d m :
  Dom.kind_of (Dom.set_parent n q d) m = Dom.kind_of d m.
Proof.
  unfold Dom.kind_of, Dom.set_parent.
  destruct (decide (n = m)) as [->|Hne]; [|by rewrite lookup_alter_ne].
  rewrite lookup_alter_eq. by destruct (d !! m).
Qed.

Lemma children_of_set_parent n q d m :
  Dom.children_of (Dom.set_parent n q d) m = Dom.children_of d m.
Proof.
  unfold Dom.children_of, Dom.set_parent.
  destruct (decide (n = m)) as [->|Hne]; [|by rewrite lookup_alter_ne].
  rewrite lookup_alter_eq. by destruct (d !! m).
Qed.

Lemma kind_of_is_Some d n : is_Some (Dom.kind_of d n) ↔ is_Some (d !! n).
Proof. unfold Dom.kind_of. by rewrite fmap_is_Some. Qed.

Lemma parent_of_is_Some d n p : Dom.parent_of d n = Some p → is_Some (d !! n).
Proof. unfold Dom.parent_of. destruct (d !! n); [eauto|done]. Qed.

Lemma kind_of_detach n d m : Dom.kind_of (Dom.detach n d) m = Dom.kind_of d m.
Proof.
  unfold Dom.detach. destruct (Dom.parent_of d n); [|done].
  by rewrite kind_of_set_parent, kind_of_set_children.
Qed.

Lemma lookup_detach_is_Some n d m : is_Some (Dom.detach n d !! m) ↔ is_Some (d !! m).
Proof. by rewrite <- !kind_of_is_Some, kind_of_detach. Qed.

Lemma size_detach n d : size (Dom.detach n d) = size d.
Proof.
  unfold Dom.detach. destruct (Dom.parent_of d n); [|done].
  unfold Dom.set_parent, Dom.set_children. by rewrite !size_alter.
Qed.

Lemma parent_of_detach n d m :
  Dom.parent_of (Dom.detach n d) m = if decide (n = m) then None else Dom.parent_of d m.
Proof.
  unfold Dom.detach. destruct (Dom.parent_of d n) as [p|] eqn:Hp.
  - rewrite parent_of_set_parent, parent_of_set_children.
    destruct (decide (n = m)) as [->|Hne].
    + rewrite decide_True; [done|]. split; [done|].
      apply parent_of_is_Some in Hp. unfold Dom.set_children.
      apply lookup_alter_is_Some. done.
    + rewrite decide_False; [done|]. by intros [? _].
  - case_decide; subst; done.
Qed.

Lemma children_of_detach n d m :
  Dom.children_of (Dom.detach n d) m
  = if decide (Dom.parent_of d n = Some m)
    then Dom.remove_node n (Dom.children_of d m) else Dom.children_of d m.
Proof.
  unfold Dom.detach. destruct (Dom.parent_of d n) as [p|] eqn:Hp.
  - rewrite children_of_set_parent, children_of_set_children.
    destruct (decide (p = m)) as [->|Hne]; repeat case_decide; try done;
      try (exfalso; tauto); try congruence.
    unfold Dom.children_of. destruct (d !! m) eqn:E; [|done].
    exfalso. apply H. eauto.
  - by rewrite decide_False.
Qed.

Lemma insert_before_None x l : Dom.insert_before x None l = l ++ [x].
Proof. induction l as [|y l IH]; simpl; [done|]. by rewrite IH. Qed.

Lemma insert_before_Some x r pre post :
  r ∉ pre → Dom.insert_before x (Some r) (pre ++ r :: post) = pre ++ x :: r :: post.
Proof.
  induction pre as [|y pre IH]; simpl; intros Hr.
  - by rewrite decide_True.
  - apply not_elem_of_cons in Hr as [Hne Hr].
    rewrite decide_False by congruence. by rewrite IH.
Qed.

Lemma remove_node_notin n l : n ∉ l → Dom.remove_node n l = l.
Proof.
  induction l as [|x l IH]; simpl; [done|]. intros Hn.
  apply not_elem_of_cons in Hn as [Hne Hn].
  rewrite decide_False by congruence. by rewrite IH.
Qed.

Lemma remove_node_app n l1 l2 :
  Dom.remove_node n (l1 ++ l2) = Dom.remove_node n l1 ++ Dom.remove_node n l2.
Proof.
  induction l1 as [|x l1 IH]; simpl; [done|].
  destruct (decide (x = n)); simpl; by rewrite IH.
Qed.

Lemma remove_node_middle n pre post :
  n ∉ pre → n ∉ post → Dom.remove_node n (pre ++ n :: post) = pre ++ post.
Proof.
  intros H1 H2. rewrite remove_node_app. simpl. rewrite decide_True by done.
  by rewrite !remove_node_notin.
Qed.

(** What [insertBefore] does when it does not throw. *)
Lemma insertBefore_Ok d parent node child d' :
  Dom.insertBefore d parent node child = Ok d' →
  let reference := if decide (child = Some node) then Dom.nextSibling d node else child in
  let d1 := Dom.detach node d in
  d' = Dom.set_parent node (Some parent)
         (Dom.set_children parent
            (Dom.insert_before node reference (Dom.children_of d1 parent)) d1)
  ∧ node ≠ parent ∧ is_Some (d !! parent) ∧ is_Some (d !! node).
Proof.
  unfold Dom.insertBefore.
  destruct (Dom.kind_of d parent) as [pk|] eqn:Hpk; [|done].
  destruct (Dom.kind_of d node) as [nk|] eqn:Hnk; [|done].
  destruct (negb (Dom.can_have_children pk)); [done|].
  destruct (Dom.is_inclusive_ancestor (size d) d node parent) eqn:Hanc; [done|].
  case_bool_decide; [done|].
  destruct (Dom.is_document nk); [done|].
  destruct (Dom.is_document pk && _); [done|].
  intros [= <-]. split; [done|].
  split; [|split; apply kind_of_is_Some; eauto].
  intros ->. destruct (size d); simpl in Hanc; by rewrite decide_True in Hanc.
Qed.

Lemma insertBefore_children d parent node child d' :
  Dom.insertBefore d parent node child = Ok d' →
  Dom.children_of d' parent
  = Dom.insert_before node
      (if decide (child = Some node) then Dom.nextSibling d node else child)
      (Dom.children_of (Dom.detach node d) parent)
  ∧ Dom.parent_of d' node = Some parent.
Proof.
  intros H. apply insertBefore_Ok in H as (-> & Hne & Hp & Hn). split.
  - rewrite children_of_set_parent, children_of_set_children.
    rewrite decide_True; [done|]. split; [done|]. by apply lookup_detach_is_Some.
  - rewrite parent_of_set_parent. rewrite decide_True; [done|]. split; [done|].
    unfold Dom.set_children. apply lookup_alter_is_Some. by apply lookup_detach_is_Some.
Qed.

(** ** Replaying operations *)

Lemma SyncToMirror_app Mirror ops1 ops2 d :
  SyncToMirror Mirror (ops1 ++ ops2) d
  = SyncToMirror Mirror ops2 d ≫= SyncToMirror Mirror ops1.
Proof.
  revert d. induction ops2 as [|op ops2 IH] using rev_ind; intros d.
  - by rewrite app_nil_r.
  - rewrite app_assoc, !SyncToMirror_snoc.
    destruct (apply_operation Mirror d op) as [d'|e]; simpl; [|done]. apply IH.
Qed.

Lemma apply_operation_Unresolved Mirror d op :
  Unresolved Mirror d op → apply_operation Mirror d op = Ok d.
Proof.
  destruct op as [ty nd tx pa si]. unfold Unresolved, apply_operation. simpl.
  destruct ty, nd as [a|n]; try done.
  - (* TEXT *)
    unfold UpdateMirrorDocument.Text. intros [->|H]; [done|].
    destruct (decide (a = "")); [done|]. by rewrite H.
  - (* ADD, an address where the node should be *)
    intros [H|[= ->]]; [|by destruct pa].
    destruct (decide (a = "")) as [->|?].
    + unfold UpdateMirrorDocument.Add. by destruct pa.
    + destruct pa as [pa|]; [|done]. destruct H as [->|H]; [done|].
      destruct (decide (pa = "")); [done|]. by rewrite H.
  - (* ADD *)
    intros [H|[=]]. unfold UpdateMirrorDocument.Add.
    destruct pa as [pa|]; [|done]. destruct H as [->|H]; [done|].
    destruct (decide (pa = "")); [done|]. by rewrite H.
  - (* REMOVE *)
    unfold UpdateMirrorDocument.Remove.
    intros [H|[->|(pa' & p & -> & Hp & Hs)]].
    + destruct pa as [pa|]; [|done]. destruct H as [->|H]; [done|].
      destruct (decide (pa = "")); [done|].
      destruct (decide (a = "")); [done|]. by rewrite H.
    + destruct pa as [pa|]; [|done]. by destruct (decide (pa = "")).
    + destruct (decide (pa' = "")); [done|].
      destruct (decide (a = "")); [done|]. by rewrite Hp, Hs.
Qed.

(** C6, as the code has it: an operation without the node it acts on is
    passed over, and passing over does not throw; the operations popped
    before it and after it are applied as if it were not in the log.  The
    address of the sibling of an [ADD] is not among the addresses that
    count here. *)
Theorem SyncToMirror_skips_unresolved (Mirror : option nid) (d d' : DOM)
  (earlier later : list TOperationLog) (operation : TOperationLog) :
  SyncToMirror Mirror later d = Ok d' →
  Unresolved Mirror d' operation →
  apply_operation Mirror d' operation = Ok d'
  ∧ SyncToMirror Mirror (earlier ++ operation :: later) d
    = SyncToMirror Mirror (earlier ++ later) d.
Proof.
  intros Hl Hu. pose proof (apply_operation_Unresolved _ _ _ Hu) as Ha.
  split; [done|].
  rewrite !SyncToMirror_app, (SyncToMirror_app _ [operation] later), Hl. simpl.
  change [operation] with ([] ++ [operation]).
  by rewrite SyncToMirror_snoc, Ha.
Qed.

Lemma SyncToMirror_skips_unresolved_witness :
  let lost := Operation.mk TEXT (Address "//body/p[2]/text()[1]") (Some "x") None None in
  let kept := Operation.mk TEXT (Address "//body/p[1]/text()[1]") (Some "HelloX") None None in
  apply_operation (Some 10) Example.page lost = Ok Example.page
  ∧ SyncToMirror (Some 10) ([kept] ++ lost :: []) Example.page
    = SyncToMirror (Some 10) ([kept] ++ []) Example.page.
Proof.
  intros lost kept.
  apply (SyncToMirror_skips_unresolved (Some 10) Example.page Example.page [kept] [] lost).
  - reflexivity.
  - right. vm_compute. reflexivity.
Defined.

(** C6, as the claim states it, fails on an [ADD] whose sibling address
    selects nothing.  A paragraph was inserted in front of a heading that
    the mirror does not have; the operation compiled from the record
    carries the address of the heading, which selects nothing in the
    mirror; the operation is not passed over: the mirror gets the
    paragraph, as the last child of its body. *)
Lemma unresolved_sibling_is_not_skipped :
  let d := flushed_or Example.page_inserted
             (snd ∘ fst <$> compile (Some 3) [Example.inserted] Example.page_inserted) in
  let operation :=
    Operation.mk ADD (NodeObject 31) None (Some "//body") (Some "//body/h1[1]") in
  (snd <$> compile (Some 3) [Example.inserted] Example.page_inserted) = Ok [operation]
  ∧ getNodeFromXPath d (Some 10) "//body/h1[1]" = Ok None
  ∧ apply_operation (Some 10) d operation ≠ Ok d
  ∧ Dom.children_of d 12 = [13]
  ∧ Dom.children_of (flushed_or d (apply_operation (Some 10) d operation)) 12 = [13; 31].
Proof.
  intros d operation. split; [by vm_compute|]. split; [by vm_compute|].
  split; [|split; by vm_compute].
  intros H.
  assert (Dom.children_of (flushed_or d (apply_operation (Some 10) d operation)) 12
          = [13]) as H'.
  { rewrite H. by vm_compute. }
  vm_compute in H'. discriminate.
Qed.

(** C9: an [ADD] whose parent address selects a node and whose sibling
    address, though given, selects nothing, is not passed over: it does
    what [insertBefore] does with [null] for the sibling.  When the
    parent is an element, and the new node is in the heap, is no
    document and is not above the parent, [insertBefore] returns, and the
    new node is the last child of the parent. *)
Theorem Add_with_unresolved_sibling (Mirror : option nid) (d : DOM)
  (XPathParent XPathSibling : string) (parent node : nid) :
  XPathParent ≠ "" → XPathSibling ≠ "" →
  getNodeFromXPath d Mirror XPathParent = Ok (Some parent) →
  getNodeFromXPath d Mirror XPathSibling = Ok None →
  apply_operation Mirror d
    (Operation.mk ADD (NodeObject node) None (Some XPathParent) (Some XPathSibling))
  = Dom.insertBefore d parent node None
  ∧ ∀ k,
      Dom.is_element d parent = true →
      Dom.kind_of d node = Some k → Dom.is_document k = false →
      Dom.is_inclusive_ancestor (size d) d node parent = false →
      ∃ d',
        Dom.insertBefore d parent node None = Ok d'
        ∧ Dom.children_of d' parent
          = Dom.children_of (Dom.detach node d) parent ++ [node]
        ∧ Dom.parent_of d' node = Some parent.
Proof.
  intros Hp Hs Hpar Hsib. split.
  - unfold apply_operation, UpdateMirrorDocument.Add. simpl.
    rewrite decide_False by done. rewrite Hpar. simpl.
    rewrite decide_False by done. by rewrite Hsib.
  - intros k Hel Hk Hdoc Hanc.
    assert (∃ d', Dom.insertBefore d parent node None = Ok d') as [d' Hd'].
    { unfold Dom.insertBefore. rewrite Hk, Hanc.
      unfold Dom.is_element, Dom.nodeType in Hel.
      destruct (Dom.kind_of d parent) as [[| | |]|]; try done. simpl.
      rewrite Hdoc. eauto. }
    exists d'. split; [done|].
    apply insertBefore_children in Hd' as [Hc Hpn].
    rewrite decide_False in Hc by done. by rewrite insert_before_None in Hc.
Qed.

Lemma Add_with_unresolved_sibling_witness :
  let operation :=
    Operation.mk ADD (NodeObject 20) None (Some "//body") (Some "//body/p[7]") in
  apply_operation (Some 10) Example.page_with_spare operation
  = Dom.insertBefore Example.page_with_spare 12 20 None
  ∧ ∃ d',
      Dom.insertBefore Example.page_with_spare 12 20 None = Ok d'
      ∧ Dom.children_of d' 12
        = Dom.children_of (Dom.detach 20 Example.page_with_spare) 12 ++ [20]
      ∧ Dom.parent_of d' 20 = Some 12.
Proof.
  intros operation.
  destruct (Add_with_unresolved_sibling (Some 10) Example.page_with_spare
              "//body" "//body/p[7]" 12 20) as [H1 H2];
    try done; try (vm_compute; reflexivity).
  split; [exact H1|].
  apply (H2 (Element "P" "" "")); vm_compute; reflexivity.
Defined.

(** ** Replay of a replaced node *)

(** C2 fails on a record that both adds and removes a node of one name.
    The watched element held [<p>Hello</p>]; the paragraph was replaced
    by [<p>World</p>], which the browser reports in one record.  The flush
    returns, the watched element is back to [<p>Hello</p>], but the mirror
    is left as it was instead of holding [<p>World</p>]: the address of
    the removed paragraph is taken while the added one is still in
    front of it, and the [ADD] is replayed before the [REMOVE], which
    then removes the copy just added. *)
Lemma replay_of_replaced_paragraph :
  let h := Example.undelivered Example.page_replaced Example.replaced in
  innerHTML Example.page_with_spare 3 = "<p>Hello</p>"
  ∧ innerHTML Example.page_with_spare 12 = "<p>Hello</p>"
  ∧ innerHTML (heap h) 3 = "<p>World</p>"
  ∧ (∃ d clone,
       compile (Some 3) [Example.replaced] (heap h)
       = Ok ([], d,
             [Operation.mk REMOVE (Address "//body/p[2]") None (Some "//body") None;
              Operation.mk ADD (NodeObject clone) None (Some "//body") None]))
  ∧ (∃ h', FlushQueue h = Ok h')
  ∧ innerHTML (heap (flushed h)) 3 = "<p>Hello</p>"
  ∧ innerHTML (heap (flushed h)) 12 = "<p>Hello</p>"
  ∧ innerHTML (heap (flushed h)) 12 ≠ innerHTML (heap h) 3.
Proof.
  intros h. repeat split; try (vm_compute; reflexivity).
  - eexists _, _. vm_compute. reflexivity.
  - eexists. vm_compute. reflexivity.
  - vm_compute. discriminate.
Qed.

(** ** Strings *)

Lemma append_cons c (s t : string) : String c s +:+ t = String c (s +:+ t).
Proof. reflexivity. Qed.

Lemma append_nil_l (s : string) : "" +:+ s = s.
Proof. reflexivity. Qed.

Lemma append_nil_r (s : string) : s +:+ "" = s.
Proof. induction s as [|c s IH]; [done|]. by rewrite append_cons, IH. Qed.

Lemma append_assoc (s1 s2 s3 : string) : (s1 +:+ s2) +:+ s3 = s1 +:+ s2 +:+ s3.
Proof. induction s1 as [|c s1 IH]; [done|]. by rewrite !append_cons, IH. Qed.

Lemma strip_prefix_app (p s : string) : Str.strip_prefix p (p +:+ s) = Some s.
Proof.
  induction p as [|c p IH]; [done|]. rewrite append_cons. simpl.
  by rewrite Ascii.eqb_refl.
Qed.

Lemma forallb_app f (s1 s2 : string) :
  Str.forallb f (s1 +:+ s2) = Str.forallb f s1 && Str.forallb f s2.
Proof.
  induction s1 as [|c s1 IH]; [done|]. rewrite append_cons. simpl.
  rewrite IH. by destruct (f c).
Qed.

Lemma forallb_impl (f g : ascii → bool) (s : string) :
  (∀ c, f c = true → g c = true) → Str.forallb f s = true → Str.forallb g s = true.
Proof.
  intros Hfg. induction s as [|c s IH]; simpl; [done|].
  intros [Hc Hs]%andb_prop. by rewrite (Hfg _ Hc), IH.
Qed.

Lemma split_at_app c (s r : string) :
  Str.forallb (λ a, negb (Ascii.eqb a c)) s = true →
  Str.split_at c (s +:+ String c r) = Some (s, r).
Proof.
  induction s as [|a s IH]; rewrite ?append_cons, ?append_nil_l; simpl.
  - by rewrite Ascii.eqb_refl.
  - intros [Ha Hs]%andb_prop. apply negb_true_iff in Ha. rewrite Ha.
    by rewrite IH.
Qed.

Lemma unbracket_app (s : string) : Str.unbracket (s +:+ "]") = Some s.
Proof.
  induction s as [|a s IH]; [done|]. rewrite append_cons. simpl.
  rewrite IH. simpl. destruct s; [done|]. by rewrite append_cons.
Qed.

Lemma split_slash_app (seg s h : string) (t : list string) :
  Str.forallb (λ a, negb (Ascii.eqb a "/")) seg = true →
  Str.split_slash s = h :: t →
  Str.split_slash (seg +:+ s) = (seg +:+ h) :: t.
Proof.
  intros Hseg Hs. induction seg as [|a seg IH]; [done|].
  rewrite !append_cons. simpl in *.
  apply andb_prop in Hseg as [Ha Hseg]. apply negb_true_iff in Ha.
  by rewrite Ha, IH.
Qed.

(** *** Numbers *)

Lemma string_of_uint_digits (u : Decimal.uint) :
  Str.forallb Str.is_digit (NilEmpty.string_of_uint u) = true.
Proof. induction u; simpl; done. Qed.

Lemma of_nat_digits (k : nat) : Str.forallb Str.is_digit (Str.of_nat k) = true.
Proof.
  unfold Str.of_nat, NilZero.string_of_uint.
  destruct (Nat.to_uint k); try apply string_of_uint_digits. done.
Qed.

Lemma of_nat_parse (k : nat) :
  Nat.of_uint <$> NilZero.uint_of_string (Str.of_nat k) = Some k.
Proof.
  unfold Str.of_nat. rewrite NilZero.usu by apply to_uint_nonnil. simpl.
  by rewrite DecimalNat.Unsigned.of_to.
Qed.

(** *** Letter case *)

Lemma lower_ascii_idemp (c : ascii) :
  Str.lower_ascii (Str.lower_ascii c) = Str.lower_ascii c.
Proof. destruct c as [[] [] [] [] [] [] [] []]; reflexivity. Qed.

Lemma upper_lower_ascii (c : ascii) :
  Str.is_lower c = false → Str.upper_ascii (Str.lower_ascii c) = c.
Proof. destruct c as [[] [] [] [] [] [] [] []]; (reflexivity || discriminate). Qed.

Lemma ascii_lowercase_idemp (s : string) :
  Str.ascii_lowercase (Str.ascii_lowercase s) = Str.ascii_lowercase s.
Proof.
  induction s as [|c s IH]; simpl; [done|]. by rewrite lower_ascii_idemp, IH.
Qed.

Lemma lower_unit_name_char (c : ascii) :
  XPath.is_name_char (Str.lower_unit c) = true → Str.lower_unit c = Str.lower_ascii c.
Proof. destruct c as [[] [] [] [] [] [] [] []]; (reflexivity || discriminate). Qed.

(** A name that is an XML name in lower case has no accented capital:
    it is lower-cased as ASCII lower-cases it. *)
Lemma toLowerCase_name_chars (s : string) :
  Str.forallb XPath.is_name_char (Str.toLowerCase s) = true →
  Str.toLowerCase s = Str.ascii_lowercase s.
Proof.
  induction s as [|c s IH]; simpl; [done|].
  intros [Hc Hs]%andb_prop. by rewrite (lower_unit_name_char c Hc), IH.
Qed.

Lemma toLowerCase_valid_name (s : string) :
  XPath.valid_name (Str.toLowerCase s) = true →
  Str.toLowerCase s = Str.ascii_lowercase s.
Proof.
  intros Hv. apply toLowerCase_name_chars. unfold XPath.valid_name in Hv.
  destruct (Str.toLowerCase s); [done|]. by apply andb_prop in Hv as [_ Hv].
Qed.

Lemma ascii_lowercase_inj (s1 s2 : string) :
  Str.forallb (λ c, negb (Str.is_lower c)) s1 = true →
  Str.forallb (λ c, negb (Str.is_lower c)) s2 = true →
  Str.ascii_lowercase s1 = Str.ascii_lowercase s2 → s1 = s2.
Proof.
  revert s2. induction s1 as [|c1 s1 IH]; intros [|c2 s2]; simpl; try done.
  intros [H1 Hs1]%andb_prop [H2 Hs2]%andb_prop [= Hc Hs].
  apply negb_true_iff in H1, H2.
  rewrite <- (upper_lower_ascii c1 H1), <- (upper_lower_ascii c2 H2), Hc.
  f_equal. by apply IH.
Qed.

(** ** Parsing what was rendered *)

Lemma name_char_not_bracket c : XPath.is_name_char c = true → Ascii.eqb c "[" = false.
Proof. destruct c as [[] [] [] [] [] [] [] []]; (reflexivity || discriminate). Qed.

Lemma name_char_not_slash c : XPath.is_name_char c = true → Ascii.eqb c "/" = false.
Proof. destruct c as [[] [] [] [] [] [] [] []]; (reflexivity || discriminate). Qed.

Lemma digit_not_slash c : Str.is_digit c = true → Ascii.eqb c "/" = false.
Proof. destruct c as [[] [] [] [] [] [] [] []]; (reflexivity || discriminate). Qed.

Lemma valid_name_chars name :
  XPath.valid_name name = true → Str.forallb XPath.is_name_char name = true.
Proof. destruct name; simpl; [done|]. by intros [_ ?]%andb_prop. Qed.

Lemma valid_name_not_text name :
  XPath.valid_name name = true → String.eqb name "text()" = false.
Proof.
  intros H. apply String.eqb_neq. intros ->. by vm_compute in H.
Qed.

Lemma parse_step_segment st :
  Stable.well_formed_step st → XPath.parse_step (XPath.segment st) = Some st.
Proof.
  destruct st as [name k|k]; simpl; intros Hwf; unfold XPath.parse_step.
  - change (name +:+ "[" +:+ Str.of_nat k +:+ "]")
      with (name +:+ String "[" (Str.of_nat k +:+ "]")).
    rewrite split_at_app; simpl.
    + rewrite unbracket_app. simpl.
      pose proof (of_nat_parse k) as Hk.
      destruct (NilZero.uint_of_string (Str.of_nat k)) as [u|]; [|done].
      simpl in *. injection Hk as ->.
      by rewrite valid_name_not_text, Hwf.
    + eapply forallb_impl; [|by apply valid_name_chars].
      intros c Hc. by rewrite name_char_not_bracket.
  - change ("text()[" +:+ Str.of_nat k +:+ "]")
      with ("text()" +:+ String "[" (Str.of_nat k +:+ "]")).
    rewrite split_at_app by done. simpl.
    rewrite unbracket_app. simpl.
    pose proof (of_nat_parse k) as Hk.
    destruct (NilZero.uint_of_string (Str.of_nat k)) as [u|]; [|done].
    simpl in *. by injection Hk as ->.
Qed.

Lemma index_no_slash k :
  Str.forallb (λ a, negb (Ascii.eqb a "/")) ("[" +:+ Str.of_nat k +:+ "]") = true.
Proof.
  change ("[" +:+ Str.of_nat k +:+ "]") with (String "[" (Str.of_nat k +:+ "]")).
  simpl. rewrite forallb_app. simpl. rewrite andb_true_r.
  eapply forallb_impl; [|apply of_nat_digits].
  intros c Hc. by rewrite digit_not_slash.
Qed.

Lemma segment_no_slash st :
  Stable.well_formed_step st →
  Str.forallb (λ a, negb (Ascii.eqb a "/")) (XPath.segment st) = true.
Proof.
  destruct st as [name k|k]; intros Hwf; unfold XPath.segment; simpl in Hwf.
  - rewrite forallb_app, index_no_slash, andb_true_r.
    eapply forallb_impl; [|by apply valid_name_chars].
    intros c Hc. by rewrite name_char_not_slash.
  - change ("text()[" +:+ Str.of_nat k +:+ "]")
      with ("text()" +:+ "[" +:+ Str.of_nat k +:+ "]").
    by rewrite forallb_app, index_no_slash.
Qed.

Lemma split_slash_render sts :
  Forall Stable.well_formed_step sts →
  Str.split_slash (XPath.render_steps sts) = "" :: map XPath.segment sts.
Proof.
  induction 1 as [|st sts Hst _ IH]; [done|].
  simpl. unfold XPath.render_step. rewrite append_assoc.
  change ("/" +:+ XPath.segment st +:+ XPath.render_steps sts)
    with (String "/" (XPath.segment st +:+ XPath.render_steps sts)).
  simpl. f_equal. rewrite append_nil_l.
  rewrite (split_slash_app _ _ _ _ (segment_no_slash _ Hst) IH).
  by rewrite append_nil_r.
Qed.

Lemma parse_segments_map sts :
  Forall Stable.well_formed_step sts →
  XPath.parse_segments (map XPath.segment sts) = Some sts.
Proof.
  induction 1 as [|st sts Hst _ IH]; [done|].
  simpl. by rewrite parse_step_segment, IH.
Qed.

Lemma parse_steps_render sts :
  Forall Stable.well_formed_step sts →
  XPath.parse_steps (XPath.render_steps sts) = Some sts.
Proof.
  intros Hwf. unfold XPath.parse_steps.
  rewrite (split_slash_render _ Hwf), (parse_segments_map _ Hwf).
  destruct sts as [|st sts]; [done|].
  done.
Qed.

Lemma parse_with_id i rest :
  Stable.quote_free i = true →
  XPath.parse (XPath.id_prefix +:+ i +:+ XPath.id_suffix +:+ rest)
  = XPath.mkExpr (XPath.AnyWithId i) <$> XPath.parse_steps rest.
Proof.
  intros Hi. unfold XPath.parse. rewrite strip_prefix_app.
  change (i +:+ XPath.id_suffix +:+ rest)
    with (i +:+ String Str.dquote_char ("]" +:+ rest)).
  rewrite split_at_app by done.
  change (Some (i, "]" +:+ rest) ≫= _)
    with (Str.strip_prefix "]" ("]" +:+ rest)
          ≫= λ r'', XPath.mkExpr (XPath.AnyWithId i) <$> XPath.parse_steps r'').
  by rewrite strip_prefix_app.
Qed.

Lemma parse_render e : Stable.well_formed e → XPath.parse (XPath.render e) = Some e.
Proof.
  destruct e as [[| |i] sts]; intros [Hb Hs]; simpl in *; [done| |].
  - unfold XPath.render, XPath.parse. simpl.
    by rewrite append_nil_l, (parse_steps_render _ Hs).
  - unfold XPath.render. cbn [XPath.start XPath.steps XPath.render_base].
    rewrite !append_assoc, parse_with_id by done.
    by rewrite (parse_steps_render _ Hs).
Qed.

(** ** Resolving what was computed *)

Lemma before_split n l : n ∈ l → l = Dom.before n l ++ n :: Dom.after n l.
Proof.
  induction l as [|x l IH]; [by intros ?%elem_of_nil|].
  simpl. destruct (decide (x = n)) as [->|Hne]; [done|].
  intros [?|Hin]%elem_of_cons; [congruence|]. simpl. by rewrite <- IH.
Qed.

Lemma before_subseteq n l x : x ∈ Dom.before n l → x ∈ l.
Proof.
  induction l as [|y l IH]; simpl; [done|].
  destruct (decide (y = n)); [by intros ?%elem_of_nil|].
  intros [->|Hin]%elem_of_cons; [left|right; auto].
Qed.

Lemma nth_match_found test n l :
  n ∈ l → test n = true →
  XPath.nth_match test (S (length (List.filter test (Dom.before n l)))) l = Some n.
Proof.
  intros Hin Ht. unfold XPath.nth_match.
  rewrite (before_split n l Hin) at 2.
  rewrite List.filter_app. simpl. rewrite Ht.
  by apply list_lookup_middle.
Qed.

Lemma filter_ext_elem (f g : nid → bool) l :
  (∀ x, x ∈ l → f x = g x) → List.filter f l = List.filter g l.
Proof.
  intros H. apply List.filter_ext_in. intros x Hx. apply H.
  by apply list_elem_of_In.
Qed.

Lemma named_same_name d n x :
  Dom.is_element d n = true → XPath.valid_name (lower_name d n) = true →
  Stable.html_tag d n = true → Stable.html_tag d x = true →
  XPath.named d (lower_name d n) x = same_name d n x.
Proof.
  unfold Dom.is_element, Stable.html_tag, XPath.named, same_name, lower_name,
    Dom.is_element, Dom.nodeType, Dom.nodeName, Dom.tagName.
  destruct (Dom.kind_of d n) as [[tn ? ?| | |]|]; try done. intros _ Hv Hn. simpl.
  simpl in Hv. rewrite (toLowerCase_valid_name tn Hv).
  destruct (Dom.kind_of d x) as [[tx ? ?| | |]|]; try done. intros Hx. simpl.
  rewrite ascii_lowercase_idemp.
  destruct (String.eqb_spec (Str.ascii_lowercase tx) (Str.ascii_lowercase tn)) as [He|He].
  - apply ascii_lowercase_inj in He as ->; [|done..].
    by rewrite !bool_decide_eq_true_2.
  - rewrite (bool_decide_eq_false_2 (Some tx = Some tn)); [done|].
    intros [= ->]. done.
Qed.

Lemma render_steps_app sts1 sts2 :
  XPath.render_steps (sts1 ++ sts2)
  = XPath.render_steps sts1 +:+ XPath.render_steps sts2.
Proof.
  induction sts1 as [|st sts1 IH]; [done|].
  simpl. by rewrite IH, append_assoc.
Qed.

Lemma render_snoc b sts st :
  XPath.render (XPath.mkExpr b (sts ++ [st]))
  = XPath.render (XPath.mkExpr b sts) +:+ XPath.render_step st.
Proof.
  unfold XPath.render. cbn [XPath.start XPath.steps].
  rewrite render_steps_app, append_assoc. cbn [XPath.render_steps].
  by rewrite append_nil_r.
Qed.

Lemma eval_snoc d doc b sts st :
  XPath.eval d doc (XPath.mkExpr b (sts ++ [st]))
  = XPath.eval_step d st (XPath.eval d doc (XPath.mkExpr b sts)).
Proof. unfold XPath.eval. simpl. by rewrite foldl_app. Qed.

Lemma rooted_parent d n p :
  Tree.rooted d n → Dom.parent_of d n = Some p → Tree.rooted d p.
Proof.
  intros [k Hk] Hp. destruct (depth_parent _ _ _ _ _ Hk Hp) as (k' & _ & Hk').
  exists k'. eapply depth_mono; [done|lia].
Qed.

Lemma first_ordered_singleton d doc n :
  n ∈ Dom.descendants (size d) d doc → XPath.first_ordered d doc [n] = Some n.
Proof.
  unfold XPath.first_ordered. generalize (Dom.descendants (size d) d doc).
  intros l. induction l as [|x l IH]; [by intros ?%elem_of_nil|].
  simpl. destruct (decide (x = n)) as [->|Hne].
  - intros _. rewrite bool_decide_eq_true_2; [done|]. by apply list_elem_of_singleton.
  - intros [?|Hin]%elem_of_cons; [congruence|].
    rewrite bool_decide_eq_false_2; [by apply IH|].
    by intros ?%list_elem_of_singleton.
Qed.

Lemma eval_step_text d k p :
  XPath.eval_step d (XPath.ChildText k) [p]
  = option_list (XPath.nth_match (Dom.is_text d) k (Dom.children_of d p)).
Proof.
  unfold XPath.eval_step. simpl.
  by destruct (XPath.nth_match (Dom.is_text d) k (Dom.children_of d p)).
Qed.

Lemma eval_step_element d name k p :
  XPath.eval_step d (XPath.ChildElement name k) [p]
  = option_list (XPath.nth_match (XPath.named d name) k (Dom.children_of d p)).
Proof.
  unfold XPath.eval_step. simpl.
  by destruct (XPath.nth_match (XPath.named d name) k (Dom.children_of d p)).
Qed.

(** The address of a node of [Stable.address] is a well-formed
    expression that selects that node and no other. *)
Lemma stable_address_selects d doc w n :
  List.filter (XPath.named d "body") (Dom.descendants (size d) d doc) = [w] →
  Stable.address d doc w n → Tree.rooted d n →
  ∃ e, getXPathFromNode d (Some w) n = XPath.render e
       ∧ Stable.well_formed e
       ∧ XPath.eval d doc e = [n].
Proof.
  intros Hbody. induction 1 as
    [n i Hi Hne Hq Hu|Hid|n p Hid Hw Ht Hp Hin _ IH|n p Hid Hw He Hv Hp Hin Hh _ IH];
    intros Hroot;
    destruct (getXPathFromNode_cases d w _ Hroot) as (R1 & R2 & R3 & R4 & R5).
  - exists (XPath.mkExpr (XPath.AnyWithId i) []). split; [|split].
    + rewrite (R1 i Hi Hne). unfold XPath.render. simpl.
      by rewrite append_nil_r.
    + by split.
    + exact Hu.
  - exists (XPath.mkExpr XPath.AnyBody []). split; [|split].
    + by rewrite (R3 Hid).
    + by split.
    + exact Hbody.
  - destruct (IH (rooted_parent _ _ _ Hroot Hp)) as ([b sts] & Hs & [Hb Hsts] & Hev).
    set (k := 1 + length (List.filter (Dom.is_text d)
                            (Dom.before n (Dom.children_of d p)))).
    exists (XPath.mkExpr b (sts ++ [XPath.ChildText k])). split; [|split].
    + rewrite (R4 p Hid Hw Ht Hp), Hs, render_snoc. done.
    + split; [done|]. apply Forall_app. split; [done|]. by constructor.
    + rewrite eval_snoc, Hev, eval_step_text. subst k. cbn [Nat.add].
      by rewrite (nth_match_found (Dom.is_text d) n _ Hin Ht).
  - destruct (IH (rooted_parent _ _ _ Hroot Hp)) as ([b sts] & Hs & [Hb Hsts] & Hev).
    set (k := 1 + length (List.filter (same_name d n)
                            (Dom.before n (Dom.children_of d p)))).
    exists (XPath.mkExpr b (sts ++ [XPath.ChildElement (lower_name d n) k])).
    assert (Dom.is_text d n = false) as Ht.
    { unfold Dom.is_text, Dom.is_element in *.
      apply bool_decide_eq_true in He. rewrite He. done. }
    assert (Stable.html_tag d n = true) as Hn.
    { by apply (proj1 (Forall_forall _ _) Hh). }
    split; [|split].
    + rewrite (R5 p Hid Hw Ht Hp Hin), Hs, render_snoc. done.
    + split; [done|]. apply Forall_app. split; [done|]. by constructor.
    + rewrite eval_snoc, Hev, eval_step_element. subst k. cbn [Nat.add].
      rewrite <- (filter_ext_elem (XPath.named d (lower_name d n))).
      * rewrite nth_match_found; [done|done|].
        rewrite named_same_name by done. unfold same_name.
        by rewrite He, bool_decide_eq_true_2.
      * intros x Hx. apply named_same_name; [done|done|done|].
        apply (proj1 (Forall_forall _ _) Hh). by eapply before_subseteq.
Qed.

(** Where the only [body] element of a document is the watched element,
    the address of a node of that document is resolved to that very node,
    when the node is one of [Stable.address]. *)
Theorem address_round_trip (d : DOM) (doc w node : nid) :
  List.filter (XPath.named d "body") (Dom.descendants (size d) d doc) = [w] →
  Tree.rooted d node →
  node ∈ Dom.descendants (size d) d doc →
  Stable.address d doc w node →
  getNodeFromXPath d (Some doc) (getXPathFromNode d (Some w) node) = Ok (Some node).
Proof.
  intros Hbody Hroot Hin Hst.
  destruct (stable_address_selects d doc w node Hbody Hst Hroot) as (e & -> & Hwf & Hev).
  unfold getNodeFromXPath, XPath.evaluate.
  rewrite (parse_render e Hwf), Hev.
  by rewrite first_ordered_singleton.
Qed.

Lemma address_round_trip_witness :
  getNodeFromXPath Example.body_page (Some 0)
    (getXPathFromNode Example.body_page (Some 2) 4) = Ok (Some 4).
Proof.
  apply address_round_trip.
  - vm_compute. reflexivity.
  - exists 4. vm_compute. reflexivity.
  - vm_compute. apply list_elem_of_In. simpl. tauto.
  - apply (Stable.text_child _ _ _ 4 3); try (vm_compute; reflexivity).
    { vm_compute. apply list_elem_of_In. simpl. tauto. }
    apply (Stable.element_child _ _ _ 3 2); try (vm_compute; reflexivity).
    { vm_compute. apply list_elem_of_In. simpl. tauto. }
    { vm_compute. repeat constructor. }
    apply Stable.watched. vm_compute. reflexivity.
Defined.

(** C3, as the claim states it, fails.  On the page of the editor the
    watched element is not the body: the address of its paragraph selects
    nothing in the paragraph's own document, and selects the paragraph of
    the mirror in the mirror document.  And where the watched element is
    the body, the address of the second of two elements with one id
    selects the first. *)
Lemma address_round_trip_fails :
  getXPathFromNode Example.page (Some 3) 4 = "//body/p[1]"
  ∧ getNodeFromXPath Example.page (Some 0) (getXPathFromNode Example.page (Some 3) 4)
    = Ok None
  ∧ getNodeFromXPath Example.page (Some 10) (getXPathFromNode Example.page (Some 3) 4)
    = Ok (Some 13)
  ∧ getNodeFromXPath Example.body_page (Some 0)
      (getXPathFromNode Example.body_page (Some 2) 6) = Ok (Some 5)
  ∧ getNodeFromXPath Example.body_page (Some 0)
      (getXPathFromNode Example.body_page (Some 2) 6) ≠ Ok (Some 6).
Proof. repeat split; try (vm_compute; reflexivity). vm_compute. discriminate. Qed.

(** ** Well-formed heaps *)

Lemma children_of_in_heap d p c : c ∈ Dom.children_of d p → is_Some (d !! p).
Proof.
  unfold Dom.children_of. destruct (d !! p); [eauto|by intros ?%elem_of_nil].
Qed.

Lemma wf_child_parent d p c :
  Tree.wf d → c ∈ Dom.children_of d p → Dom.parent_of d c = Some p.
Proof.
  intros Hwf Hc. unfold Dom.children_of in Hc.
  destruct (d !! p) as [nd|] eqn:Hp; [|by apply elem_of_nil in Hc].
  destruct (Hwf p nd Hp) as (_ & Hall & _).
  by apply (proj1 (Forall_forall _ _) Hall).
Qed.

Lemma wf_parent_child d p c :
  Tree.wf d → Dom.parent_of d c = Some p → c ∈ Dom.children_of d p.
Proof.
  intros Hwf Hc. unfold Dom.parent_of in Hc.
  destruct (d !! c) as [nd|] eqn:Hn; [|done]. simpl in Hc.
  destruct (Hwf c nd Hn) as (_ & _ & Hpar & _). rewrite Hc in Hpar. tauto.
Qed.

Lemma wf_not_document d p c k :
  Tree.wf d → Dom.parent_of d c = Some p → Dom.kind_of d c = Some k →
  Dom.is_document k = false.
Proof.
  intros Hwf Hc Hk. unfold Dom.parent_of, Dom.kind_of in *.
  destruct (d !! c) as [nd|] eqn:Hn; [|done]. simpl in *.
  destruct (Hwf c nd Hn) as (_ & _ & Hpar & _). rewrite Hc in Hpar.
  injection Hk as <-. tauto.
Qed.

Lemma wf_NoDup d p : Tree.wf d → NoDup (Dom.children_of d p).
Proof.
  intros Hwf. unfold Dom.children_of.
  destruct (d !! p) as [nd|] eqn:Hp; [|constructor].
  by destruct (Hwf p nd Hp) as (? & _).
Qed.

Lemma wf_rooted d n : Tree.wf d → is_Some (d !! n) → Tree.rooted d n.
Proof. intros Hwf [nd Hn]. by destruct (Hwf n nd Hn) as (_ & _ & _ & ?). Qed.

Lemma wf_parent_in_heap d p c :
  Tree.wf d → Dom.parent_of d c = Some p → is_Some (d !! p).
Proof. intros Hwf Hc. eapply children_of_in_heap, wf_parent_child; eauto. Qed.

(** ** Relinking *)

Lemma kind_of_set_kind n k d m :
  Dom.kind_of (Dom.set_kind n k d) m
  = if decide (n = m ∧ is_Some (d !! n)) then Some k else Dom.kind_of d m.
Proof.
  unfold Dom.kind_of, Dom.set_kind.
  destruct (decide (n = m)) as [->|Hne]; [rewrite lookup_alter_eq|rewrite lookup_alter_ne by done].
  - destruct (d !! m) eqn:E; simpl.
    + rewrite decide_True; [done|]. split; [done|]. eauto.
    + rewrite decide_False; [done|]. intros [_ [? ?]]. congruence.
  - rewrite decide_False; [done|]. by intros [? _].
Qed.

Lemma parent_of_set_kind n k d m :
  Dom.parent_of (Dom.set_kind n k d) m = Dom.parent_of d m.
Proof.
  unfold Dom.parent_of, Dom.set_kind.
  destruct (decide (n = m)) as [->|Hne]; [|by rewrite lookup_alter_ne].
  rewrite lookup_alter_eq. by destruct (d !! m).
Qed.

Lemma children_of_set_kind n k d m :
  Dom.children_of (Dom.set_kind n k d) m = Dom.children_of d m.
Proof.
  unfold Dom.children_of, Dom.set_kind.
  destruct (decide (n = m)) as [->|Hne]; [|by rewrite lookup_alter_ne].
  rewrite lookup_alter_eq. by destruct (d !! m).
Qed.

Lemma lookup_set_parents_is_Some l q d n :
  is_Some (foldr (λ a, Dom.set_parent a q) d l !! n) ↔ is_Some (d !! n).
Proof.
  induction l as [|a l IH]; simpl; [done|].
  unfold Dom.set_parent at 1. by rewrite lookup_alter_is_Some.
Qed.

Lemma kind_of_set_parents l q d n :
  Dom.kind_of (foldr (λ a, Dom.set_parent a q) d l) n = Dom.kind_of d n.
Proof.
  induction l as [|a l IH]; simpl; [done|]. by rewrite kind_of_set_parent.
Qed.

Lemma children_of_set_parents l q d n :
  Dom.children_of (foldr (λ a, Dom.set_parent a q) d l) n = Dom.children_of d n.
Proof.
  induction l as [|a l IH]; simpl; [done|]. by rewrite children_of_set_parent.
Qed.

Lemma parent_of_set_parents l q d n :
  Dom.parent_of (foldr (λ a, Dom.set_parent a q) d l) n
  = if decide (n ∈ l ∧ is_Some (d !! n)) then q else Dom.parent_of d n.
Proof.
  induction l as [|a l IH]; simpl.
  - done.
  - rewrite parent_of_set_parent, IH.
    destruct (decide (a = n)) as [->|Hne].
    + destruct (decide (is_Some (d !! n))) as [Hn|Hn].
      * rewrite !decide_True; [done| |].
        -- split; [left|done].
        -- split; [done|]. by apply lookup_set_parents_is_Some.
      * rewrite !decide_False; [|tauto|tauto|].
        -- unfold Dom.parent_of. destruct (d !! n); [exfalso; eauto|done].
        -- rewrite lookup_set_parents_is_Some. tauto.
    + rewrite (decide_False (P := a = n ∧ _)) by tauto.
      apply decide_ext. rewrite elem_of_cons. split.
      * intros [? ?]. split; [by right|done].
      * intros [[?|?] ?]; [congruence|done].
Qed.

Section relink.

Variables (t : nid) (l A R : list nid) (d : DOM).

Lemma lookup_relink_is_Some n :
  is_Some (Browser.relink t l A R d !! n) ↔ is_Some (d !! n).
Proof.
  unfold Browser.relink. rewrite !lookup_set_parents_is_Some.
  unfold Dom.set_children. by rewrite lookup_alter_is_Some.
Qed.

Lemma kind_of_relink n : Dom.kind_of (Browser.relink t l A R d) n = Dom.kind_of d n.
Proof.
  unfold Browser.relink. by rewrite !kind_of_set_parents, kind_of_set_children.
Qed.

Lemma children_of_relink n :
  Dom.children_of (Browser.relink t l A R d) n
  = if decide (t = n ∧ is_Some (d !! t)) then l else Dom.children_of d n.
Proof.
  unfold Browser.relink.
  by rewrite !children_of_set_parents, children_of_set_children.
Qed.

Lemma parent_of_relink n :
  is_Some (d !! n) →
  Dom.parent_of (Browser.relink t l A R d) n
  = if decide (n ∈ A) then Some t
    else if decide (n ∈ R) then None else Dom.parent_of d n.
Proof.
  intros Hn. unfold Browser.relink.
  rewrite !parent_of_set_parents, parent_of_set_children.
  assert (is_Some (Dom.set_children t l d !! n)) as Hn'.
  { unfold Dom.set_children. by rewrite lookup_alter_is_Some. }
  pose proof (proj2 (lookup_set_parents_is_Some R None _ n) Hn').
  repeat case_decide; try done; tauto.
Qed.

End relink.

(** ** New nodes *)

Lemma le_foldr_max (l : list nat) x : x ∈ l → x ≤ foldr Nat.max 0 l.
Proof.
  induction l as [|y l IH]; [by intros ?%elem_of_nil|].
  simpl. intros [->|Hin]%elem_of_cons; [apply Nat.le_max_l|].
  apply IH in Hin. etrans; [done|apply Nat.le_max_r].
Qed.

Lemma fresh_id_fresh (d : DOM) : d !! Dom.fresh_id d = None.
Proof.
  destruct (d !! Dom.fresh_id d) eqn:E; [|done]. exfalso.
  assert (Dom.fresh_id d ∈ elements (dom d)) as Hin.
  { apply elem_of_elements, elem_of_dom. eauto. }
  apply le_foldr_max in Hin. unfold Dom.fresh_id in Hin.
  exact (Nat.nle_succ_diag_l _ Hin).
Qed.

Lemma cloneNode_id fuel a d : (Dom.cloneNode fuel a d).2 = Dom.fresh_id d.
Proof. destruct fuel; simpl; [done|]. by destruct (d !! a). Qed.

(** A copy is made of new nodes: the nodes of the heap stay as they
    are. *)
Lemma cloneNode_preserves fuel : ∀ a d n,
  is_Some (d !! n) → (Dom.cloneNode fuel a d).1 !! n = d !! n.
Proof.
  induction fuel as [|fuel IH]; intros a d n Hn.
  - simpl. rewrite lookup_insert_ne; [done|].
    intros E. rewrite <- E, fresh_id_fresh in Hn. by destruct Hn.
  - simpl. destruct (d !! a) as [nd|] eqn:Ha; simpl.
    + assert (Dom.fresh_id d ≠ n) as Hc.
      { intros E. rewrite <- E, fresh_id_fresh in Hn. by destruct Hn. }
      set (c := Dom.fresh_id d) in *.
      assert (∀ l d1, d1 !! n = d !! n →
                foldl (λ d' ch, let '(d'', cc) := Dom.cloneNode fuel ch d' in
                                Dom.set_parent cc (Some c)
                                  (Dom.set_children c (Dom.children_of d'' c ++ [cc]) d''))
                  d1 l !! n = d !! n) as Hfold.
      { induction l as [|ch l IHl]; intros d1 Hd1; simpl; [done|].
        apply IHl.
        assert (is_Some (d1 !! n)) as Hn1 by (by rewrite Hd1).
        pose proof (IH ch d1 n Hn1) as Hpres.
        pose proof (cloneNode_id fuel ch d1) as Hid.
        destruct (Dom.cloneNode fuel ch d1) as [d'' cc]. simpl in *.
        unfold Dom.set_parent, Dom.set_children.
        rewrite !lookup_alter_ne; [congruence|done|].
        intros E. rewrite <- E, Hid, fresh_id_fresh in Hn1. by destruct Hn1. }
      apply Hfold. by rewrite lookup_insert_ne.
    + rewrite lookup_insert_ne; [done|].
      intros E. rewrite <- E, fresh_id_fresh in Hn. by destruct Hn.
Qed.

(** ** Ancestors *)

Lemma is_inclusive_ancestor_sound fuel d a : ∀ n,
  Dom.is_inclusive_ancestor fuel d a n = true →
  rtc (λ x y, Dom.parent_of d x = Some y) n a.
Proof.
  induction fuel as [|fuel IH]; intros n; simpl.
  - destruct (decide (a = n)) as [->|]; [constructor|done].
  - destruct (decide (a = n)) as [->|]; [constructor|].
    destruct (Dom.parent_of d n) as [p|] eqn:Hp; [|done].
    intros H. eapply rtc_l; [exact Hp|]. by apply IH.
Qed.

Lemma depth_step d n p k :
  Tree.depth (size d) d n = Some k → Dom.parent_of d n = Some p →
  ∃ k', k = S k' ∧ Tree.depth (size d) d p = Some k'.
Proof.
  intros Hk Hp. destruct (depth_parent _ _ _ _ _ Hk Hp) as (k' & -> & Hk').
  exists k'. split; [done|]. eapply depth_mono; [done|lia].
Qed.

(** An ancestor is not deeper than its descendant. *)
Lemma depth_ancestor d n a k :
  rtc (λ x y, Dom.parent_of d x = Some y) n a →
  Tree.depth (size d) d n = Some k →
  ∃ k', Tree.depth (size d) d a = Some k' ∧ k' ≤ k.
Proof.
  intros H. revert k. induction H as [n|n m a Hp _ IH]; intros k Hk; [eauto|].
  destruct (depth_step _ _ _ _ Hk Hp) as (k1 & -> & Hk1).
  destruct (IH _ Hk1) as (k' & Hk' & Hle). exists k'. split; [done|lia].
Qed.

(** A chain of ancestors is a chain of ancestors in any heap that has
    the same structure. *)
Lemma ancestors_same_structure d dc n a :
  Tree.wf d → Tree.same_structure d dc → is_Some (d !! n) →
  rtc (λ x y, Dom.parent_of dc x = Some y) n a →
  rtc (λ x y, Dom.parent_of d x = Some y) n a.
Proof.
  intros Hwf Hsim Hn H. induction H as [n|n m a Hp _ IH]; [constructor|].
  destruct (Hsim n Hn) as (_ & Hpar & _). rewrite Hpar in Hp.
  eapply rtc_l; [exact Hp|]. apply IH. by eapply wf_parent_in_heap.
Qed.

(** After a recorded mutation, a removed node is not above [target]. *)
Lemma removed_not_above d r d' dc x :
  Tree.wf d → Tree.wf d' → Browser.step d r d' → Tree.same_structure d' dc →
  x ∈ Mutation.removedNodes r →
  Dom.is_inclusive_ancestor (size dc) dc x (Mutation.target r) = false.
Proof.
  intros Hwf Hwf' Hstep Hsim Hx.
  destruct (Dom.is_inclusive_ancestor _ _ _ _) eqn:Hanc; [exfalso|done].
  apply is_inclusive_ancestor_sound in Hanc.
  destruct Hstep as [pre post Hty Hold Hel Hch Hprev Hnext HND HA|
                     old new Hty Hold Ha Hr Hk]; [|by rewrite Hr in Hx; apply elem_of_nil in Hx].
  set (t := Mutation.target r) in *. set (A := Mutation.addedNodes r) in *.
  set (R := Mutation.removedNodes r) in *.
  set (d' := Browser.relink t (pre ++ A ++ post) A R d) in *.
  assert (is_Some (d !! t)) as Ht.
  { eapply children_of_in_heap. rewrite Hch. apply elem_of_app. right.
    apply elem_of_app. left. exact Hx. }
  assert (Dom.parent_of d x = Some t) as Hxt.
  { apply wf_child_parent; [done|]. rewrite Hch.
    apply elem_of_app. right. apply elem_of_app. by left. }
  assert (is_Some (d' !! t)) as Ht' by (by apply lookup_relink_is_Some).
  apply (ancestors_same_structure d' dc) in Hanc; [|done..].
  destruct (wf_rooted d' t Hwf' Ht') as [kt' Hkt'].
  destruct (wf_rooted d t Hwf Ht) as [kt Hkt].
  (* the chain is a chain of [d] *)
  assert (∀ n, rtc (λ x y, Dom.parent_of d' x = Some y) n x →
               is_Some (d !! n) →
               (∃ k, Tree.depth (size d') d' n = Some k ∧ k ≤ kt') →
               rtc (λ x y, Dom.parent_of d x = Some y) n x) as Hchain.
  { intros n H. induction H as [n|n m a Hp _ IH]; intros Hn (k & Hk & Hle); [constructor|].
    destruct (depth_step _ _ _ _ Hk Hp) as (k1 & -> & Hk1).
    subst d'. rewrite parent_of_relink in Hp by done.
    destruct (decide (n ∈ A)) as [HnA|HnA].
    - injection Hp as <-. rewrite Hk1 in Hkt'. injection Hkt' as <-. lia.
    - destruct (decide (n ∈ R)); [done|].
      eapply rtc_l; [exact Hp|]. apply IH; try done.
      + by eapply wf_parent_in_heap.
      + exists k1. split; [done|lia]. }
  specialize (Hchain t Hanc Ht (ex_intro _ kt' (conj Hkt' (le_n _)))).
  destruct (depth_ancestor _ _ _ _ Hchain Hkt) as (kx & Hkx & Hle).
  destruct (depth_step _ _ _ _ Hkx Hxt) as (k1 & -> & Hk1).
  rewrite Hk1 in Hkt. injection Hkt as <-. lia.
Qed.

(** ** Undoing one record *)

Lemma same_entry_views (d1 d2 : DOM) n :
  d1 !! n = d2 !! n →
  Dom.parent_of d1 n = Dom.parent_of d2 n
  ∧ Dom.children_of d1 n = Dom.children_of d2 n
  ∧ Dom.kind_of d1 n = Dom.kind_of d2 n.
Proof. unfold Dom.parent_of, Dom.children_of, Dom.kind_of. by intros ->. Qed.

Lemma detach_no_parent n d : Dom.parent_of d n = None → Dom.detach n d = d.
Proof. unfold Dom.detach. by intros ->. Qed.

Lemma insertBefore_succeeds d parent node child pk nk :
  Dom.kind_of d parent = Some pk → Dom.can_have_children pk = true →
  Dom.is_document pk = false →
  Dom.kind_of d node = Some nk → Dom.is_document nk = false →
  Dom.is_inclusive_ancestor (size d) d node parent = false →
  (∀ s, child = Some s → Dom.parent_of d s = Some parent) →
  ∃ d', Dom.insertBefore d parent node child = Ok d'.
Proof.
  intros Hpk Hc Hdp Hnk Hdn Hanc Hch. unfold Dom.insertBefore.
  rewrite Hpk, Hnk, Hc, Hanc, Hdn, Hdp. simpl.
  rewrite bool_decide_eq_false_2; [eauto|].
  intros [Hne Hpar]. destruct child as [s|]; [|done].
  simpl in Hpar. by rewrite (Hch s eq_refl) in Hpar.
Qed.

(** The loop over the added nodes takes them out of [target], and
    touches nothing else of what was in the heap. *)
Lemma compile_added_undoes W r l1 l2 : ∀ A cur logs,
  NoDup A →
  Dom.children_of cur (Mutation.target r) = l1 ++ A ++ l2 →
  (∀ a, a ∈ A → Dom.parent_of cur a = Some (Mutation.target r)) →
  (∀ a, a ∈ A → (a ∉ l1) ∧ (a ∉ l2)) →
  ∃ cur' logs',
    compile_added W r (rev A) cur logs = Ok (cur', logs')
    ∧ Dom.children_of cur' (Mutation.target r) = l1 ++ l2
    ∧ (∀ a, a ∈ A → Dom.parent_of cur' a = None)
    ∧ (∀ n, is_Some (cur !! n) →
         is_Some (cur' !! n)
         ∧ Dom.kind_of cur' n = Dom.kind_of cur n
         ∧ (n ∉ A → Dom.parent_of cur' n = Dom.parent_of cur n)
         ∧ (n ≠ Mutation.target r → Dom.children_of cur' n = Dom.children_of cur n)).
Proof.
  set (t := Mutation.target r).
  induction A as [|a A IH] using rev_ind; intros cur logs HND Hch Hpar Hout.
  - exists cur, logs. simpl in *. repeat split; try done. by intros ? ?%elem_of_nil.
  - rewrite rev_unit. simpl.
    assert (Dom.parent_of cur a = Some t) as Ha.
    { apply Hpar, elem_of_app. right. by left. }
    rewrite Ha. unfold Dom.removeChild. fold t. rewrite decide_True by done. simpl.
    set (cur1 := Dom.detach a cur).
    pose proof (cloneNode_preserves (size cur1) a cur1) as Hpres.
    destruct (Dom.cloneNode (size cur1) a cur1) as [cur2 clone]. simpl in Hpres.
    apply NoDup_app in HND as (HNDA & Hdisj & _).
    assert (a ∉ A) as HaA.
    { intros Hin. apply (Hdisj a Hin). by left. }
    assert (∀ n, is_Some (cur !! n) →
              is_Some (cur2 !! n)
              ∧ Dom.kind_of cur2 n = Dom.kind_of cur n
              ∧ Dom.parent_of cur2 n = (if decide (a = n) then None else Dom.parent_of cur n)
              ∧ Dom.children_of cur2 n
                = (if decide (Some t = Some n) then Dom.remove_node a (Dom.children_of cur n)
                   else Dom.children_of cur n)) as H2.
    { intros n Hn.
      assert (is_Some (cur1 !! n)) as Hn1 by (by apply lookup_detach_is_Some).
      destruct (same_entry_views _ _ _ (Hpres n Hn1)) as (E1 & E2 & E3).
      rewrite Hpres, E1, E2, E3 by done. subst cur1.
      rewrite kind_of_detach, parent_of_detach, children_of_detach, Ha. done. }
    assert (is_Some (cur !! t)) as Ht.
    { eapply children_of_in_heap. rewrite Hch.
      apply elem_of_app. right. apply elem_of_app. left.
      apply elem_of_app. right. by left. }
    destruct (IH cur2 (logs ++
         [Operation.mk ADD (NodeObject clone) None
            (Some (getXPathFromNode cur2 W t))
            (match Mutation.nextSibling r with
             | Some nextSibling => Some (getXPathFromNode cur2 W nextSibling)
             | None => None
             end)]))
      as (cur' & logs' & Hc & Hch' & Hpar' & Hrest); try done.
    + destruct (H2 t Ht) as (_ & _ & _ & ->). rewrite decide_True by done.
      rewrite Hch, <- !app_assoc.
      destruct (Hout a) as [Ho1 Ho2]; [apply elem_of_app; right; by left|].
      rewrite !remove_node_app. simpl. rewrite decide_True by done.
      by rewrite !remove_node_notin.
    + intros a' Ha'.
      assert (Dom.parent_of cur a' = Some t) as Hpa'.
      { apply Hpar, elem_of_app. by left. }
      destruct (H2 a' (parent_of_is_Some _ _ _ Hpa')) as (_ & _ & -> & _).
      rewrite decide_False; [done|]. intros ->. done.
    + intros a' Ha'. apply Hout, elem_of_app. by left.
    + exists cur', logs'. split; [exact Hc|]. split; [done|]. split.
      * intros a' [Ha'| ->%list_elem_of_singleton]%elem_of_app; [by apply Hpar'|].
        destruct (H2 a (parent_of_is_Some _ _ _ Ha)) as (Ha2 & _ & Hp2 & _).
        destruct (Hrest a Ha2) as (_ & _ & Hp' & _).
        rewrite (Hp' HaA), Hp2. by rewrite decide_True.
      * intros n Hn. destruct (H2 n Hn) as (Hn2 & Hk2 & Hp2 & Hc2).
        destruct (Hrest n Hn2) as (Hn' & Hk' & Hp' & Hc').
        split; [done|]. split; [congruence|]. split.
        -- intros HnA. rewrite Hp', Hp2.
           ++ rewrite decide_False; [done|]. intros ->. apply HnA.
              apply elem_of_app. right. by left.
           ++ intros ?. apply HnA. apply elem_of_app. by left.
        -- intros Hnt. rewrite Hc' by done. rewrite Hc2.
           rewrite decide_False; [done|]. congruence.
Qed.

(** The loop over the removed nodes, when there is at most one: the
    node is put back in front of [nextSibling]. *)
Lemma compile_removed_undoes W r dc logs l1 post pk :
  length (Mutation.removedNodes r) ≤ 1 →
  Dom.kind_of dc (Mutation.target r) = Some pk →
  Dom.can_have_children pk = true → Dom.is_document pk = false →
  Dom.children_of dc (Mutation.target r) = l1 ++ post →
  Mutation.nextSibling r = head post →
  (∀ s, s ∈ post →
     Dom.parent_of dc s = Some (Mutation.target r)
     ∧ (s ∉ l1) ∧ (s ∉ Mutation.removedNodes r)) →
  (∀ x, x ∈ Mutation.removedNodes r →
     Dom.parent_of dc x = None
     ∧ (∃ nk, Dom.kind_of dc x = Some nk ∧ Dom.is_document nk = false)
     ∧ Dom.is_inclusive_ancestor (size dc) dc x (Mutation.target r) = false) →
  ∃ dc1 logs1,
    compile_removed W r (rev (Mutation.removedNodes r)) dc logs = Ok (dc1, logs1)
    ∧ Dom.children_of dc1 (Mutation.target r) = l1 ++ Mutation.removedNodes r ++ post
    ∧ (∀ n, is_Some (dc !! n) →
         is_Some (dc1 !! n)
         ∧ Dom.kind_of dc1 n = Dom.kind_of dc n
         ∧ Dom.parent_of dc1 n
           = (if decide (n ∈ Mutation.removedNodes r) then Some (Mutation.target r)
              else Dom.parent_of dc n)
         ∧ (n ≠ Mutation.target r → Dom.children_of dc1 n = Dom.children_of dc n)).
Proof.
  set (t := Mutation.target r). set (R := Mutation.removedNodes r).
  intros Hlen Hpk Hcan Hdoc Hch Hnext Hpost HR.
  destruct R as [|x [|??]] eqn:ER; simpl in Hlen; [| |lia].
  - exists dc, logs. simpl. repeat split; try done.
  - destruct (HR x) as (Hpx & (nk & Hnk & Hdn) & Hanc); [by left|].
    simpl.
    destruct (insertBefore_succeeds dc t x (Mutation.nextSibling r) pk nk)
      as [dc1 Hins]; try done.
    { intros s Hs. rewrite Hnext in Hs. apply Hpost.
      destruct post; [done|]. injection Hs as ->. by left. }
    fold t. rewrite Hins. simpl. eexists _, _. split; [done|].
    apply insertBefore_Ok in Hins as (Hdc1 & Hne & Ht & Hx).
    rewrite (detach_no_parent _ _ Hpx) in Hdc1.
    rewrite decide_False in Hdc1; last first.
    { rewrite Hnext. intros Hs. destruct post as [|s post]; [done|].
      injection Hs as ->. destruct (Hpost x) as (_ & _ & Hx'); [by left|].
      apply Hx'. by left. }
    assert (Dom.insert_before x (Mutation.nextSibling r) (l1 ++ post)
            = l1 ++ [x] ++ post) as Hib.
    { rewrite Hnext. destruct post as [|s post]; simpl.
      - by rewrite insert_before_None, !app_nil_r.
      - rewrite insert_before_Some; [done|].
        destruct (Hpost s) as (_ & Hs & _); [by left|done]. }
    rewrite Hch, Hib in Hdc1. subst dc1. split.
    + rewrite children_of_set_parent, children_of_set_children.
      by rewrite decide_True.
    + intros n Hn. split; [|split; [|split]].
      * unfold Dom.set_parent, Dom.set_children.
        by rewrite !lookup_alter_is_Some.
      * by rewrite kind_of_set_parent, kind_of_set_children.
      * rewrite parent_of_set_parent, parent_of_set_children.
        destruct (decide (n = x)) as [->|Hnx].
        -- rewrite !decide_True; [done|by left|].
           split; [done|]. unfold Dom.set_children. by rewrite lookup_alter_is_Some.
        -- rewrite !decide_False; [done| |].
           ++ by intros ?%list_elem_of_singleton.
           ++ intros [? _]. congruence.
      * intros Hnt. rewrite children_of_set_parent, children_of_set_children.
        rewrite decide_False; [done|]. intros [? _]. congruence.
Qed.

Lemma is_document_skeleton k : Dom.is_document (Tree.skeleton k) = Dom.is_document k.
Proof. by destruct k. Qed.

Lemma can_have_children_skeleton k :
  Dom.can_have_children (Tree.skeleton k) = Dom.can_have_children k.
Proof. by destruct k. Qed.

Lemma skeleton_kinds (d1 d2 : DOM) n k :
  Tree.skeleton <$> Dom.kind_of d1 n = Tree.skeleton <$> Dom.kind_of d2 n →
  Dom.kind_of d2 n = Some k →
  ∃ k', Dom.kind_of d1 n = Some k'
        ∧ Dom.is_document k' = Dom.is_document k
        ∧ Dom.can_have_children k' = Dom.can_have_children k.
Proof.
  intros H Hk. rewrite Hk in H. destruct (Dom.kind_of d1 n) as [k'|]; [|done].
  simpl in H. injection H as H. exists k'. split; [done|].
  by rewrite <- (is_document_skeleton k'), <- (can_have_children_skeleton k'), H,
    is_document_skeleton, can_have_children_skeleton.
Qed.

(** Compiling a record in a heap that has the structure the mutation
    left gives a heap that has the structure the mutation found. *)
Lemma compile_record_undoes W d r d' dc logs :
  Tree.wf d → Tree.wf d' → Browser.step d r d' →
  length (Mutation.removedNodes r) ≤ 1 →
  Tree.same_structure d' dc →
  ∃ dc' logs',
    compile_record W r dc logs = Ok (dc', logs')
    ∧ Tree.same_structure d dc'
    ∧ (∀ n, is_Some (dc !! n) → Dom.kind_of dc' n = Dom.kind_of dc n).
Proof.
  intros Hwf Hwf' Hstep Hlen Hsim.
  pose proof (removed_not_above d r d' dc) as Habove.
  specialize (λ x, Habove x Hwf Hwf' Hstep Hsim).
  destruct Hstep as [pre post Hty Hold Hel Hch Hprev Hnext HND HA|
                     old new Hty Hold Ha Hr Hk].
  - set (t := Mutation.target r) in *. set (A := Mutation.addedNodes r) in *.
    set (R := Mutation.removedNodes r) in *.
    assert (∃ tag i c, Dom.kind_of d t = Some (Element tag i c)) as (tag & i & c & Hkt).
    { unfold Dom.is_element, Dom.nodeType in Hel.
      destruct (Dom.kind_of d t) as [[| | |]|]; try done. eauto. }
    assert (is_Some (d !! t)) as Ht by (apply kind_of_is_Some; eauto).
    assert (∀ n, is_Some (d !! n) →
              is_Some (dc !! n)
              ∧ Dom.parent_of dc n
                = (if decide (n ∈ A) then Some t
                   else if decide (n ∈ R) then None else Dom.parent_of d n)
              ∧ Dom.children_of dc n
                = (if decide (t = n) then pre ++ A ++ post else Dom.children_of d n)
              ∧ Tree.skeleton <$> Dom.kind_of dc n = Tree.skeleton <$> Dom.kind_of d n)
      as Hdc.
    { intros n Hn.
      destruct (Hsim n) as (Hn' & Hp & Hc & Hs); [by apply lookup_relink_is_Some|].
      rewrite parent_of_relink in Hp by done.
      rewrite children_of_relink, kind_of_relink in *.
      split; [done|]. split; [done|]. split; [|done].
      rewrite Hc. apply decide_ext. tauto. }
    assert (∀ s, s ∈ pre ++ R ++ post → Dom.parent_of d s = Some t) as Hchild.
    { intros s Hs. apply wf_child_parent; [done|]. by rewrite Hch. }
    assert (∀ a, a ∈ A → a ∉ pre ++ R ++ post) as HAout.
    { intros a HaA Hin. apply Hchild in Hin.
      destruct (proj1 (Forall_forall _ _) HA a HaA) as [_ Hnone]. congruence. }
    pose proof (wf_NoDup d t Hwf) as HNDc. rewrite Hch in HNDc.
    apply NoDup_app in HNDc as (HNDpre & Hpre & HNDc).
    apply NoDup_app in HNDc as (HNDR & HRpost & HNDpost).
    destruct (Hdc t Ht) as (Htc & _ & Hchc & Hskt).
    rewrite decide_True in Hchc by done.
    destruct (skeleton_kinds _ _ _ _ Hskt Hkt) as (pk & Hpk & Hpd & Hpc).
    unfold compile_record, compile_text. rewrite Hold.
    (* the removed node goes back *)
    destruct (compile_removed_undoes W r dc logs (pre ++ A) post pk)
      as (dc1 & logs1 & Hc1 & Hch1 & Hrest1); try done.
    { by rewrite <- app_assoc. }
    { intros s Hs.
      assert (s ∈ pre ++ R ++ post) as Hin.
      { apply elem_of_app. right. apply elem_of_app. by right. }
      assert (is_Some (d !! s)) as Hsd by (eapply parent_of_is_Some; eauto).
      destruct (Hdc s Hsd) as (_ & Hps & _).
      assert (s ∉ R) as HsR by (intros ?; by eapply HRpost).
      assert (s ∉ A) as HsA by (intros ?; by eapply HAout).
      rewrite !decide_False in Hps by done. split; [|split; [|done]].
      - rewrite Hps. by apply Hchild.
      - intros [?|?]%elem_of_app; [|done].
        eapply Hpre; [done|]. apply elem_of_app. by right. }
    { intros x Hx.
      assert (x ∈ pre ++ R ++ post) as Hin.
      { apply elem_of_app. right. apply elem_of_app. by left. }
      assert (is_Some (d !! x)) as Hxd by (eapply parent_of_is_Some; eauto).
      destruct (Hdc x Hxd) as (_ & Hpx & _ & Hskx).
      assert (x ∉ A) as HxA by (intros ?; by eapply HAout).
      rewrite decide_False, decide_True in Hpx by done.
      split; [done|]. split; [|by apply Habove].
      destruct Hxd as [ndx Hndx].
      assert (Dom.kind_of d x = Some (kind ndx)) as Hkx.
      { unfold Dom.kind_of. by rewrite Hndx. }
      destruct (skeleton_kinds _ _ _ _ Hskx Hkx) as (nk & Hnk & Hnd & _).
      exists nk. split; [done|]. rewrite Hnd.
      apply (wf_not_document d t x (kind ndx) Hwf); [by apply Hchild|done]. }
    rewrite Hc1. simpl.
    (* the added nodes go away *)
    destruct (compile_added_undoes W r pre (R ++ post) A dc1 logs1)
      as (dc' & logs' & Hc' & Hch' & Hpar' & Hrest'); try done.
    { by rewrite Hch1, <- app_assoc. }
    { intros a HaA.
      destruct (proj1 (Forall_forall _ _) HA a HaA) as [Had _].
      destruct (Hdc a Had) as (Hadc & Hpa & _).
      destruct (Hrest1 a Hadc) as (_ & _ & -> & _).
      rewrite decide_True in Hpa by done.
      rewrite decide_False; [done|].
      intros HaR. eapply HAout; [done|].
      apply elem_of_app. right. apply elem_of_app. by left. }
    { intros a HaA. split; intros Hin; (eapply HAout; [done|]).
      - apply elem_of_app. by left.
      - apply elem_of_app. by right. }
    subst t A R. exists dc', logs'. split; [done|]. split.
    + intros n Hn. destruct (Hdc n Hn) as (Hndc & Hpn & Hcn & Hsn).
      destruct (Hrest1 n Hndc) as (Hn1 & Hk1 & Hp1 & Hch1').
      destruct (Hrest' n Hn1) as (Hn' & Hk' & Hp' & Hch'').
      split; [done|]. split; [|split].
      * destruct (decide (n ∈ Mutation.addedNodes r)) as [HnA|HnA].
        -- rewrite (Hpar' n HnA).
           by destruct (proj1 (Forall_forall _ _) HA n HnA) as [_ ->].
        -- rewrite (Hp' HnA), Hp1, Hpn.
           destruct (decide (n ∈ Mutation.removedNodes r)) as [HnR|HnR]; [|done].
           symmetry. apply Hchild. apply elem_of_app. right.
           apply elem_of_app. by left.
      * destruct (decide (Mutation.target r = n)) as [<-|Hnt].
        -- by rewrite Hch', Hch.
        -- rewrite Hch'', Hch1', Hcn by done. done.
      * by rewrite Hk', Hk1.
    + intros n Hn. destruct (Hrest1 n Hn) as (Hn1 & Hk1 & _).
      destruct (Hrest' n Hn1) as (_ & Hk' & _). congruence.
  - exists dc, (compile_text W dc r logs).
    unfold compile_record. rewrite Ha, Hr. simpl. split; [done|]. split; [|done].
    intros n Hn.
    assert (is_Some (Dom.set_kind (Mutation.target r) (Text new) d !! n)) as Hn'.
    { unfold Dom.set_kind. by rewrite lookup_alter_is_Some. }
    destruct (Hsim n Hn') as (Hndc & Hp & Hc & Hs).
    rewrite parent_of_set_kind in Hp. rewrite children_of_set_kind in Hc.
    rewrite kind_of_set_kind in Hs.
    split; [done|]. split; [done|]. split; [done|].
    rewrite Hs. case_decide as Hd; [|done]. destruct Hd as [<- _].
    by rewrite Hk.
Qed.

(** ** Undoing a batch *)

Lemma steps_wf d0 q d : Browser.steps d0 q d → Tree.wf d.
Proof. by destruct 1. Qed.

Lemma step_in_heap d r d' n : Browser.step d r d' → is_Some (d' !! n) ↔ is_Some (d !! n).
Proof.
  destruct 1.
  - apply lookup_relink_is_Some.
  - unfold Dom.set_kind. by rewrite lookup_alter_is_Some.
Qed.

Lemma step_kind d r d' n :
  Browser.step d r d' →
  Tree.skeleton <$> Dom.kind_of d' n = Tree.skeleton <$> Dom.kind_of d n.
Proof.
  destruct 1 as [|old new ? ? ? ? Hk].
  - by rewrite kind_of_relink.
  - rewrite kind_of_set_kind. case_decide as Hd; [|done].
    destruct Hd as [<- _]. by rewrite Hk.
Qed.

Lemma steps_in_heap d0 q d n : Browser.steps d0 q d → is_Some (d !! n) ↔ is_Some (d0 !! n).
Proof.
  induction 1 as [|q d r d' _ IH Hstep _]; [done|].
  by rewrite (step_in_heap _ _ _ n Hstep).
Qed.

Lemma same_structure_refl d : Tree.same_structure d d.
Proof. by intros n Hn. Qed.

Lemma compile_records_undo W d0 q d1 :
  Browser.steps d0 q d1 →
  Forall (λ r, length (Mutation.removedNodes r) ≤ 1) q →
  ∀ dc logs, Tree.same_structure d1 dc →
    ∃ dc' logs',
      compile_records W (rev q) dc logs = Ok (dc', logs')
      ∧ Tree.same_structure d0 dc'
      ∧ (∀ n, is_Some (dc !! n) → Dom.kind_of dc' n = Dom.kind_of dc n).
Proof.
  induction 1 as [Hwf|q d r d' Hsteps IH Hstep Hwf']; intros Hone dc logs Hsim.
  - exists dc, logs. done.
  - apply Forall_app in Hone as [Hq Hr]. apply Forall_cons in Hr as [Hr _].
    rewrite rev_unit. simpl.
    destruct (compile_record_undoes W d r d' dc logs (steps_wf _ _ _ Hsteps) Hwf' Hstep Hr Hsim)
      as (dc1 & logs1 & -> & Hsim1 & Hk1).
    simpl. destruct (IH Hq dc1 logs1 Hsim1) as (dc' & logs' & Hc & Hsim' & Hk').
    exists dc', logs'. split; [done|]. split; [done|].
    intros n Hn. rewrite Hk', Hk1; [done|done|].
    apply kind_of_is_Some. rewrite Hk1 by done. by apply kind_of_is_Some.
Qed.

(** C1, as the code has it: after the compiling loop has run on a batch
    of recorded mutations, each of which removed one node at most, every
    node that was in the heap before the mutations has the parent and
    the children, in their order, that it had before them; the loop
    gives no text back: every node has the text, as the name, the id and
    the class, that it had when the loop began. *)
Theorem rollback_restores_structure (W : option nid) (d0 d1 : DOM)
  (queue : list MutationRecord) :
  Browser.steps d0 queue d1 →
  Forall (λ r, length (Mutation.removedNodes r) ≤ 1) queue →
  ∃ d' logs,
    compile W queue d1 = Ok ([], d', logs)
    ∧ ∀ n, is_Some (d0 !! n) →
        Dom.parent_of d' n = Dom.parent_of d0 n
        ∧ Dom.children_of d' n = Dom.children_of d0 n
        ∧ Dom.kind_of d' n = Dom.kind_of d1 n.
Proof.
  intros Hsteps Hone.
  destruct (compile_records_undo W d0 queue d1 Hsteps Hone d1 [] (same_structure_refl d1))
    as (d' & logs & Hc & Hsim & Hk).
  exists d', logs. split.
  - by rewrite compile_as_records, Hc.
  - intros n Hn. destruct (Hsim n Hn) as (_ & Hp & Hch & _).
    split; [done|]. split; [done|]. apply Hk.
    by apply (steps_in_heap d0 queue d1 n Hsteps).
Qed.

Lemma wf_by_computation d : bool_decide (Tree.wf d) = true → Tree.wf d.
Proof. apply bool_decide_eq_true_1. Qed.

Lemma rollback_restores_structure_witness :
  ∃ d' logs,
    compile (Some 3) [Example.replaced; Example.typed_in 21 "World"]
      (Dom.set_kind 21 (Text "Hi") Example.page_replaced)
    = Ok ([], d', logs)
    ∧ ∀ n, is_Some (Example.page_with_spare !! n) →
        Dom.parent_of d' n = Dom.parent_of Example.page_with_spare n
        ∧ Dom.children_of d' n = Dom.children_of Example.page_with_spare n
        ∧ Dom.kind_of d' n
          = Dom.kind_of (Dom.set_kind 21 (Text "Hi") Example.page_replaced) n.
Proof.
  apply rollback_restores_structure.
  - apply (Browser.steps_snoc _ [Example.replaced] Example.page_replaced).
    + apply (Browser.steps_snoc _ [] Example.page_with_spare).
      * apply Browser.steps_nil. apply wf_by_computation. vm_compute. reflexivity.
      * apply (Browser.childList_step _ Example.replaced [] []);
          try (vm_compute; reflexivity).
        -- repeat constructor. by intros ?%elem_of_nil.
        -- repeat constructor; vm_compute; eauto.
      * apply wf_by_computation. vm_compute. reflexivity.
    + apply (Browser.characterData_step _ (Example.typed_in 21 "World") "World" "Hi");
        vm_compute; reflexivity.
    + apply wf_by_computation. vm_compute. reflexivity.
  - repeat constructor.
Defined.

(** C1, as the claim states it, fails on a change of text: the loop
    leaves the text as the edit made it, and so does the whole flush. *)
Lemma text_is_not_rolled_back :
  let d0 := Example.page in
  let d1 := Dom.set_kind 5 (Text "HelloX") Example.page in
  let h := Example.undelivered d1 (Example.typed "Hello") in
  Browser.steps d0 [Example.typed "Hello"] d1
  ∧ Dom.textContent d0 3 = Some "Hello"
  ∧ (∃ d' logs,
       compile (Some 3) [Example.typed "Hello"] d1 = Ok ([], d', logs)
       ∧ Dom.textContent d' 3 = Some "HelloX")
  ∧ (∃ h', FlushQueue h = Ok h')
  ∧ Dom.textContent (heap (flushed h)) 3 = Some "HelloX"
  ∧ Dom.textContent (heap (flushed h)) 3 ≠ Dom.textContent d0 3.
Proof.
  intros d0 d1 h. split; [|split; [|split; [|split; [|split]]]].
  - apply (Browser.steps_snoc _ [] d0).
    + apply Browser.steps_nil. apply wf_by_computation. vm_compute. reflexivity.
    + apply (Browser.characterData_step _ (Example.typed "Hello") "Hello" "HelloX");
        vm_compute; reflexivity.
    + apply wf_by_computation. vm_compute. reflexivity.
  - vm_compute. reflexivity.
  - eexists _, _. split; vm_compute; reflexivity.
  - eexists. vm_compute. reflexivity.
  - vm_compute. reflexivity.
  - vm_compute. discriminate.
Qed.

(** The order of the loop over the removed nodes is the other cause:
    two nodes removed at once are put back in the reverse order. *)
Lemma two_removed_nodes_come_back_reversed :
  Browser.steps Example.page_two [Example.emptied] Example.page_emptied
  ∧ Dom.children_of Example.page_two 3 = [4; 20]
  ∧ ∃ d' logs,
      compile (Some 3) [Example.emptied] Example.page_emptied = Ok ([], d', logs)
      ∧ Dom.children_of d' 3 = [20; 4].
Proof.
  split; [|split].
  - apply (Browser.steps_snoc _ [] Example.page_two).
    + apply Browser.steps_nil. apply wf_by_computation. vm_compute. reflexivity.
    + apply (Browser.childList_step _ Example.emptied [] []);
        try (vm_compute; reflexivity); constructor.
    + apply wf_by_computation. vm_compute. reflexivity.
  - vm_compute. reflexivity.
  - eexists _, _. split; vm_compute; reflexivity.
Qed.

(** ** Two flushes, from the first edit to the mirror *)

(** A letter typed at the end of a paragraph: one [TEXT] operation with
    the address of the text node and the text as it now is; after the
    flush the mirror has the new text, and [FinalizeChanges] was called
    once. *)
Lemma flush_of_a_typed_letter :
  let d := Dom.set_kind 5 (Text "HelloX") Example.page in
  let h := Example.undelivered d (Example.typed "Hello") in
  compile (Some 3) [Example.typed "Hello"] d
  = Ok ([], d, [Operation.mk TEXT (Address "//body/p[1]/text()[1]") (Some "HelloX")
                  None None])
  ∧ (∃ h', FlushQueue h = Ok h')
  ∧ innerHTML (heap (flushed h)) 12 = "<p>HelloX</p>"
  ∧ innerHTML (heap (flushed h)) 3 = "<p>HelloX</p>"
  ∧ FinalizeChanges_calls (flushed h) = 1
  ∧ observed (Observer (DaemonState (flushed h))) = Some 3.
Proof.
  intros d h. repeat split; try (vm_compute; reflexivity).
  eexists. vm_compute. reflexivity.
Qed.

(** The second of two paragraphs deleted: one [REMOVE] operation; after
    the flush the watched element has its two paragraphs again and the
    mirror has the first only. *)
Lemma flush_of_a_deleted_paragraph :
  let h := Example.undelivered Example.page_ab_deleted Example.deleted in
  innerHTML (heap h) 3 = "<p>A</p>"
  ∧ (snd <$> compile (Some 3) [Example.deleted] (heap h))
    = Ok [Operation.mk REMOVE (Address "//body/p[2]") None (Some "//body") None]
  ∧ (∃ h', FlushQueue h = Ok h')
  ∧ innerHTML (heap (flushed h)) 3 = "<p>A</p><p>B</p>"
  ∧ innerHTML (heap (flushed h)) 12 = "<p>A</p>".
Proof.
  intros h. repeat split; try (vm_compute; reflexivity).
  eexists. vm_compute. reflexivity.
Qed.

(* ===================================================================== *)
(** * More of the hook *)
(* ===================================================================== *)

(** ** Flushing again *)

(** What a flush that had records leaves: the heap after the replay, the
    refs as they were, an empty queue, one more call of
    [FinalizeChanges], and the observer put back on the watched
    element. *)
Lemma FlushQueue_Ok h h' :
  FlushQueue h = Ok h' →
  MutationQueue (DaemonState h) ++ records (Observer (DaemonState h)) ≠ [] →
  ∃ d,
    h' = mkHook d (WatchElementRef h) (MirrorDocumentRef h)
           (mkDaemonState (mkObserver (WatchElementRef h) []) [])
           (S (FinalizeChanges_calls h)).
Proof.
  unfold FlushQueue. simpl. intros H Hne.
  destruct (decide _) as [He|_]; [done|].
  destruct (compile _ _ _) as [[[q' d] logs]|] eqn:Hc; [|done].
  apply compile_loop_drains in Hc as ->; [|done].
  simpl in H. destruct (SyncToMirror _ _ _) as [d'|]; [|done].
  simpl in H. injection H as <-. exists d'.
  unfold toggleObserve. simpl. by destruct (WatchElementRef h).
Qed.

Lemma FlushQueue_idle h :
  MutationQueue (DaemonState h) = [] → records (Observer (DaemonState h)) = [] →
  FlushQueue h = Ok h.
Proof.
  destruct h as [d W M [[o rs] q] c]. simpl. intros -> ->.
  reflexivity.
Qed.

(** X1: a flush that returned has left nothing to do: a second flush
    right after it returns the very same state, so it neither touches the
    heap nor calls [FinalizeChanges] again. *)
Theorem FlushQueue_twice (h h' : Hook) :
  FlushQueue h = Ok h' → FlushQueue h' = Ok h'.
Proof.
  intros H.
  destruct (decide (MutationQueue (DaemonState h) ++ records (Observer (DaemonState h)) = []))
    as [He|Hne].
  - apply app_eq_nil in He as [Hq Hr].
    rewrite (FlushQueue_idle h Hq Hr) in H. injection H as <-.
    by apply FlushQueue_idle.
  - destruct (FlushQueue_Ok h h' H Hne) as [d ->]. by apply FlushQueue_idle.
Qed.

(** X2: a flush that found records and returned has called
    [FinalizeChanges] exactly once, has left the two refs as they were,
    and has put the observer back on the watched element; when there is
    no watched element the observer stays disconnected. *)
Theorem FlushQueue_notifies_once (h h' : Hook) :
  FlushQueue h = Ok h' →
  MutationQueue (DaemonState h) ++ records (Observer (DaemonState h)) ≠ [] →
  FinalizeChanges_calls h' = S (FinalizeChanges_calls h)
  ∧ WatchElementRef h' = WatchElementRef h
  ∧ MirrorDocumentRef h' = MirrorDocumentRef h
  ∧ observed (Observer (DaemonState h')) = WatchElementRef h.
Proof. intros H Hne. by destruct (FlushQueue_Ok h h' H Hne) as [d ->]. Qed.

(** ** The shape of the log *)

Lemma compile_text_extends W d r logs :
  ∃ new, compile_text W d r logs = logs ++ new
    ∧ length new ≤ 1
    ∧ Forall (λ o, Operation.type o = TEXT) new
    ∧ (new ≠ [] → Mutation.type r = Mutation.characterData
                  ∧ is_Some (Mutation.oldValue r)).
Proof.
  assert (∃ new : list TOperationLog, logs = logs ++ new
            ∧ length new ≤ 1
            ∧ Forall (λ o, Operation.type o = TEXT) new
            ∧ (new ≠ [] → Mutation.type r = Mutation.characterData
                          ∧ is_Some (Mutation.oldValue r))) as Hnil.
  { exists []. rewrite app_nil_r. repeat split; simpl; [lia|done|done|done]. }
  unfold compile_text.
  destruct (Mutation.oldValue r) as [old|] eqn:Hold; [|exact Hnil].
  destruct (Mutation.type r) eqn:Hty; try exact Hnil.
  destruct (JSON_same _ _); [exact Hnil|].
  eexists [_]. repeat split; simpl; [lia|by repeat constructor|eauto].
Qed.

Lemma compile_removed_extends W r : ∀ l d logs d' logs',
  compile_removed W r l d logs = Ok (d', logs') →
  ∃ new, logs' = logs ++ new
    ∧ length new = length l
    ∧ Forall (λ o, Operation.type o = REMOVE) new.
Proof.
  induction l as [|x l IH]; intros d logs d' logs'; simpl.
  - intros [= <- <-]. exists []. by rewrite app_nil_r.
  - destruct (Dom.insertBefore _ _ _ _) as [d1|]; [|done]. simpl.
    intros (new & -> & Hlen & Hall)%IH.
    eexists (_ :: new). rewrite <- app_assoc. simpl.
    repeat split; [by rewrite Hlen|]. by constructor.
Qed.

Lemma compile_added_extends W r : ∀ l d logs d' logs',
  compile_added W r l d logs = Ok (d', logs') →
  ∃ new, logs' = logs ++ new
    ∧ length new = length l
    ∧ Forall (λ o, Operation.type o = ADD) new.
Proof.
  induction l as [|x l IH]; intros d logs d' logs'; simpl.
  - intros [= <- <-]. exists []. by rewrite app_nil_r.
  - destruct (match Dom.parent_of d x with Some _ => _ | None => _ end) as [d1|]; [|done].
    simpl. destruct (Dom.cloneNode _ _ _) as [d2 c].
    intros (new & -> & Hlen & Hall)%IH.
    eexists (_ :: new). rewrite <- app_assoc. simpl.
    repeat split; [by rewrite Hlen|]. by constructor.
Qed.

Lemma compile_record_parts W r d logs d' logs' :
  compile_record W r d logs = Ok (d', logs') →
  ∃ text removes adds,
    logs' = logs ++ text ++ removes ++ adds
    ∧ length text ≤ 1
    ∧ Forall (λ o, Operation.type o = TEXT) text
    ∧ (text ≠ [] → Mutation.type r = Mutation.characterData
                   ∧ is_Some (Mutation.oldValue r))
    ∧ length removes = length (Mutation.removedNodes r)
    ∧ Forall (λ o, Operation.type o = REMOVE) removes
    ∧ length adds = length (Mutation.addedNodes r)
    ∧ Forall (λ o, Operation.type o = ADD) adds.
Proof.
  unfold compile_record.
  destruct (compile_text_extends W d r logs) as (text & -> & Ht1 & Ht2 & Ht3).
  destruct (compile_removed _ _ _ _ _) as [[d1 logs1]|] eqn:Hr; [|done]. simpl.
  apply compile_removed_extends in Hr as (removes & -> & Hr1 & Hr2).
  intros (adds & -> & Ha1 & Ha2)%compile_added_extends.
  exists text, removes, adds. rewrite <- !app_assoc.
  rewrite length_rev in Hr1, Ha1. done.
Qed.

Lemma compile_record_extends W r d logs d' logs' :
  compile_record W r d logs = Ok (d', logs') → ∃ new, logs' = logs ++ new.
Proof.
  intros (text & removes & adds & -> & _)%compile_record_parts. eauto.
Qed.

Lemma compile_records_extends W l : ∀ d logs d' logs',
  compile_records W l d logs = Ok (d', logs') → ∃ new, logs' = logs ++ new.
Proof.
  induction l as [|r l IH]; intros d logs d' logs'; simpl.
  - intros [= <- <-]. exists []. by rewrite app_nil_r.
  - destruct (compile_record W r d logs) as [[d1 logs1]|] eqn:Hr; [|done]. simpl.
    apply compile_record_extends in Hr as [new1 ->].
    intros [new ->]%IH. exists (new1 ++ new). by rewrite app_assoc.
Qed.

(** X3: the replay follows the order of the mutations.  The queue is
    compiled from its newest record to its oldest and the log is replayed
    from its end: the operations compiled from the older records are
    replayed first, those compiled from the newer records after them. *)
Theorem replay_is_chronological (W Mirror : option nid)
  (older newer q' : list MutationRecord) (d d' : DOM) (logs : list TOperationLog) :
  compile W (older ++ newer) d = Ok (q', d', logs) →
  ∃ d1 ops_newer ops_older,
    compile W newer d = Ok ([], d1, ops_newer)
    ∧ compile_records W (rev older) d1 ops_newer = Ok (d', logs)
    ∧ logs = ops_newer ++ ops_older
    ∧ ∀ m, SyncToMirror Mirror logs m
           = SyncToMirror Mirror ops_older m ≫= SyncToMirror Mirror ops_newer.
Proof.
  rewrite !compile_as_records, rev_app_distr, compile_records_app.
  destruct (compile_records W (rev newer) d []) as [[d1 ops_newer]|]; [|done]. simpl.
  destruct (compile_records W (rev older) d1 ops_newer) as [[d2 logs2]|] eqn:Ho; [|done].
  simpl. intros [= <- <- <-].
  destruct (compile_records_extends _ _ _ _ _ _ Ho) as [ops_older ->].
  exists d1, ops_newer, ops_older. repeat split; [done|].
  intros m. apply SyncToMirror_app.
Qed.

Lemma replay_is_chronological_witness :
  let d := Dom.set_kind 21 (Text "Hi") Example.page_replaced in
  let older := [Example.replaced] in
  let newer := [Example.typed_in 21 "World"] in
  ∃ d1 ops_newer ops_older,
    compile (Some 3) newer d = Ok ([], d1, ops_newer)
    ∧ compile_records (Some 3) (rev older) d1 ops_newer
      = Ok (compiled (Some 3) (older ++ newer) d)
    ∧ (compiled (Some 3) (older ++ newer) d).2 = ops_newer ++ ops_older
    ∧ ∀ m, SyncToMirror (Some 10) (compiled (Some 3) (older ++ newer) d).2 m
           = SyncToMirror (Some 10) ops_older m ≫= SyncToMirror (Some 10) ops_newer.
Proof.
  intros d older newer.
  destruct (compiled (Some 3) (older ++ newer) d) as [d' logs] eqn:E.
  apply (replay_is_chronological (Some 3) (Some 10) older newer [] d d' logs).
  revert E. vm_compute. intros [= <- <-]. reflexivity.
Defined.

(** ** The copies an [ADD] carries *)

Lemma cloneNode_root fuel a d d' c :
  Dom.cloneNode fuel a d = (d', c) →
  d !! c = None
  ∧ Dom.parent_of d' c = None
  ∧ is_Some (d' !! c)
  ∧ (∀ k, fuel ≠ 0 → Dom.kind_of d a = Some k → Dom.kind_of d' c = Some k).
Proof.
  assert (∀ k0 : NodeKind,
            let d1 := <[Dom.fresh_id d := mkNode k0 None []]> d in
            Dom.parent_of d1 (Dom.fresh_id d) = None
            ∧ is_Some (d1 !! Dom.fresh_id d)) as Hleaf.
  { intros k0. unfold Dom.parent_of. simpl. rewrite lookup_insert_eq. eauto. }
  destruct fuel as [|fuel]; simpl.
  - intros [= <- <-]. split; [apply fresh_id_fresh|].
    destruct (Hleaf (Comment "")) as [? ?]. done.
  - destruct (d !! a) as [nd|] eqn:Ha.
    + set (c0 := Dom.fresh_id d). intros [= <- <-].
      split; [apply fresh_id_fresh|].
      assert (∀ l d1 ch0,
                d1 !! c0 = Some (mkNode (kind nd) None ch0) →
                ∃ ch1,
                  foldl (λ d' ch, let '(d'', cc) := Dom.cloneNode fuel ch d' in
                                  Dom.set_parent cc (Some c0)
                                    (Dom.set_children c0 (Dom.children_of d'' c0 ++ [cc]) d''))
                    d1 l !! c0 = Some (mkNode (kind nd) None ch1)) as Hfold.
      { induction l as [|ch l IHl]; intros d1 ch0 Hd1; simpl; [eauto|].
        assert (is_Some (d1 !! c0)) as Hc1 by (by rewrite Hd1).
        pose proof (cloneNode_preserves fuel ch d1 c0 Hc1) as Hpres.
        pose proof (cloneNode_id fuel ch d1) as Hid.
        destruct (Dom.cloneNode fuel ch d1) as [d'' cc]. simpl in *.
        eapply IHl. unfold Dom.set_parent, Dom.set_children.
        rewrite lookup_alter_ne.
        - unfold nid in *. rewrite lookup_alter_eq, Hpres, Hd1. simpl. reflexivity.
        - intros E. rewrite <- E, Hid, fresh_id_fresh in Hc1. by destruct Hc1. }
      destruct (Hfold (childNodes nd) (<[c0 := mkNode (kind nd) None []]> d) [])
        as [ch1 Hc]; [by rewrite lookup_insert_eq|].
      unfold Dom.parent_of, Dom.kind_of. rewrite Hc. simpl.
      repeat split; [eauto|]. intros k _. rewrite Ha. simpl. done.
    + intros [= <- <-]. split; [apply fresh_id_fresh|].
      destruct (Hleaf (Comment "")) as [? ?]. repeat split; try done.
      intros k _. unfold Dom.kind_of. by rewrite Ha.
Qed.

(** What the loop over the added nodes does to the heap, apart from the
    children of the target: no node is lost, no kind changes, and no node
    gets a parent. *)
Lemma compile_added_heap W r : ∀ l d logs d' logs',
  compile_added W r l d logs = Ok (d', logs') →
  ∀ n, is_Some (d !! n) →
    is_Some (d' !! n)
    ∧ Dom.kind_of d' n = Dom.kind_of d n
    ∧ (Dom.parent_of d n = None → Dom.parent_of d' n = None).
Proof.
  induction l as [|a l IH]; intros d logs d' logs'; simpl.
  - by intros [= <- <-].
  - destruct (match Dom.parent_of d a with Some _ => _ | None => _ end) as [d1|] eqn:H1;
      [|done].
    simpl. pose proof (cloneNode_preserves (size d1) a d1) as Hpres.
    destruct (Dom.cloneNode _ _ _) as [d2 c]. simpl in Hpres.
    intros Hl n Hn.
    assert (is_Some (d1 !! n) ∧ Dom.kind_of d1 n = Dom.kind_of d n
            ∧ (Dom.parent_of d n = None → Dom.parent_of d1 n = None)) as (Hn1 & Hk1 & Hp1).
    { destruct (Dom.parent_of d a) as [p|].
      - unfold Dom.removeChild in H1. destruct (decide _); [|done].
        injection H1 as <-.
        rewrite lookup_detach_is_Some, kind_of_detach, parent_of_detach.
        repeat split; [done|]. by destruct (decide _).
      - by injection H1 as <-. }
    destruct (same_entry_views _ _ _ (Hpres n Hn1)) as (E1 & _ & E3).
    assert (is_Some (d2 !! n)) as Hn2 by (by rewrite Hpres).
    destruct (IH _ _ _ _ Hl n Hn2) as (Hn' & Hk' & Hp').
    split; [done|]. split; [congruence|].
    intros Hp. apply Hp'. rewrite E1. by apply Hp1.
Qed.

Lemma compile_added_clones W r : ∀ l d logs d' logs',
  compile_added W r l d logs = Ok (d', logs') →
  ∃ new, logs' = logs ++ new
    ∧ Forall2 (λ added operation,
                 ∃ clone,
                   Operation.type operation = ADD
                   ∧ Operation.node operation = NodeObject clone
                   ∧ d !! clone = None
                   ∧ is_Some (d' !! clone)
                   ∧ Dom.parent_of d' clone = None
                   ∧ ∀ k, Dom.kind_of d added = Some k → Dom.kind_of d' clone = Some k)
        l new.
Proof.
  induction l as [|a l IH]; intros d logs d' logs'; simpl.
  - intros [= <- <-]. exists []. rewrite app_nil_r. split; [done|constructor].
  - destruct (match Dom.parent_of d a with Some _ => _ | None => _ end) as [d1|] eqn:H1;
      [|done].
    simpl.
    assert (∀ n, (is_Some (d1 !! n) ↔ is_Some (d !! n))
                 ∧ Dom.kind_of d1 n = Dom.kind_of d n) as H01.
    { intros n. destruct (Dom.parent_of d a) as [p|].
      - unfold Dom.removeChild in H1. destruct (decide _); [|done].
        injection H1 as <-. by rewrite lookup_detach_is_Some, kind_of_detach.
      - by injection H1 as <-. }
    pose proof (cloneNode_preserves (size d1) a d1) as Hpres.
    destruct (Dom.cloneNode _ _ _) as [d2 c] eqn:Hcl. simpl in Hpres.
    destruct (cloneNode_root _ _ _ _ _ Hcl) as (Hfresh & Hpar & Hin & Hkind).
    intros Hl.
    pose proof (compile_added_heap _ _ _ _ _ _ _ Hl) as Hheap.
    destruct (IH _ _ _ _ Hl) as (new & -> & Hall).
    eexists (_ :: new). rewrite <- app_assoc. split; [done|].
    constructor.
    + exists c. simpl. repeat split.
      * destruct (d !! c) eqn:E; [|done]. exfalso.
        assert (is_Some (d1 !! c)) as Hc1 by (apply H01; eauto).
        rewrite Hfresh in Hc1. by destruct Hc1.
      * by apply Hheap.
      * by apply Hheap.
      * intros k Hk.
        assert (Dom.kind_of d1 a = Some k) as Hk1 by (by rewrite (proj2 (H01 a))).
        destruct (Hheap c Hin) as (_ & -> & _). apply Hkind; [|done].
        intros E0%map_size_empty_inv. rewrite E0 in Hk1.
        unfold Dom.kind_of in Hk1. by rewrite lookup_empty in Hk1.
    + eapply Forall2_impl; [exact Hall|]. simpl.
      intros a' op (c' & Hty & Hnode & Hc' & Hin' & Hp' & Hk').
      exists c'. repeat split; try done.
      * destruct (d !! c') eqn:E; [|done]. exfalso.
        assert (is_Some (d1 !! c')) as Hc1 by (apply H01; eauto).
        pose proof (Hpres c' Hc1) as E2. destruct Hc1 as [x Hx].
        unfold nid in *. congruence.
      * intros k Hk. apply Hk'.
        assert (is_Some (d1 !! a')) as Ha1.
        { apply H01, kind_of_is_Some. eauto. }
        destruct (same_entry_views _ _ _ (Hpres a' Ha1)) as (_ & _ & ->).
        by rewrite (proj2 (H01 a')).
Qed.

Lemma insertBefore_heap d parent node child d' n :
  Dom.insertBefore d parent node child = Ok d' →
  (is_Some (d' !! n) ↔ is_Some (d !! n)) ∧ Dom.kind_of d' n = Dom.kind_of d n.
Proof.
  intros [-> _]%insertBefore_Ok.
  rewrite <- !kind_of_is_Some.
  by rewrite kind_of_set_parent, kind_of_set_children, kind_of_detach.
Qed.

Lemma compile_removed_heap W r : ∀ l d logs d' logs',
  compile_removed W r l d logs = Ok (d', logs') →
  ∀ n, (is_Some (d' !! n) ↔ is_Some (d !! n)) ∧ Dom.kind_of d' n = Dom.kind_of d n.
Proof.
  induction l as [|x l IH]; intros d logs d' logs'; simpl.
  - by intros [= <- <-].
  - destruct (Dom.insertBefore _ _ _ _) as [d1|] eqn:Hi; [|done]. simpl.
    intros Hl n. destruct (IH _ _ _ _ Hl n) as [-> ->].
    by apply (insertBefore_heap _ _ _ _ _ n) in Hi.
Qed.

(** X4: the node of an [ADD] is never the live node.  For each added
    node of a record, from the last to the first, the log gets an [ADD]
    whose node was not in the heap before the record was compiled, has no
    parent, and is of the kind of the added node. *)
Theorem ADD_carries_a_new_copy (W : option nid) (r : MutationRecord) (d d' : DOM)
  (logs logs' : list TOperationLog) :
  compile_record W r d logs = Ok (d', logs') →
  ∃ earlier adds,
    logs' = earlier ++ adds
    ∧ Forall2 (λ added operation,
                 ∃ clone,
                   Operation.type operation = ADD
                   ∧ Operation.node operation = NodeObject clone
                   ∧ d !! clone = None
                   ∧ is_Some (d' !! clone)
                   ∧ Dom.parent_of d' clone = None
                   ∧ ∀ k, Dom.kind_of d added = Some k → Dom.kind_of d' clone = Some k)
        (rev (Mutation.addedNodes r)) adds.
Proof.
  unfold compile_record.
  destruct (compile_removed _ _ _ _ _) as [[d1 logs1]|] eqn:Hr; [|done]. simpl.
  pose proof (compile_removed_heap _ _ _ _ _ _ _ Hr) as H1.
  intros (adds & -> & Hall)%compile_added_clones.
  exists logs1, adds. split; [done|].
  eapply Forall2_impl; [exact Hall|]. simpl.
  intros a op (c & Hty & Hnode & Hc & Hin & Hp & Hk).
  exists c. repeat split; try done.
  - destruct (d !! c) eqn:E; [|done]. exfalso.
    assert (is_Some (d1 !! c)) as Hc1 by (apply H1; eauto).
    rewrite Hc in Hc1. by destruct Hc1.
  - intros k Hka. apply Hk. by rewrite (proj2 (H1 a)).
Qed.

Lemma ADD_carries_a_new_copy_witness :
  let d := Example.page_replaced in
  ∃ earlier adds,
    (compiled (Some 3) [Example.replaced] d).2 = earlier ++ adds
    ∧ Forall2 (λ added operation,
                 ∃ clone,
                   Operation.type operation = ADD
                   ∧ Operation.node operation = NodeObject clone
                   ∧ d !! clone = None
                   ∧ is_Some ((compiled (Some 3) [Example.replaced] d).1 !! clone)
                   ∧ Dom.parent_of (compiled (Some 3) [Example.replaced] d).1 clone = None
                   ∧ ∀ k, Dom.kind_of d added = Some k
                          → Dom.kind_of (compiled (Some 3) [Example.replaced] d).1 clone
                            = Some k)
        (rev (Mutation.addedNodes Example.replaced)) adds.
Proof.
  intros d.
  apply (ADD_carries_a_new_copy (Some 3) Example.replaced d _ []).
  vm_compute. reflexivity.
Defined.

(** ** Deep copies *)

Lemma copy_of_impl (P Q : nid → Prop) d D : (∀ z, P z → Q z) → ∀ f n c,
  copy_of f P d n D c → copy_of f Q d n D c.
Proof.
  intros HPQ. induction f as [|f IH]; intros n c; [done|]. simpl.
  intros (Hc & Hk & Hch). repeat split; [by apply HPQ|done|].
  eapply Forall2_impl; [exact Hch|]. intros x y. apply IH.
Qed.

(** A copy stays a copy when the heap changes elsewhere. *)
Lemma copy_of_stable (P : nid → Prop) d D D' :
  (∀ z, P z → Dom.kind_of D' z = Dom.kind_of D z
              ∧ Dom.children_of D' z = Dom.children_of D z) →
  ∀ f n c, copy_of f P d n D c → copy_of f P d n D' c.
Proof.
  intros Hsame. induction f as [|f IH]; intros n c; [done|]. simpl.
  intros (Hc & Hk & Hch). destruct (Hsame c Hc) as [-> ->].
  repeat split; [done..|].
  eapply Forall2_impl; [exact Hch|]. intros x y. apply IH.
Qed.

Lemma text_of_copy P d D : ∀ f n c,
  copy_of f P d n D c → Dom.text_of f D c = Dom.text_of f d n.
Proof.
  induction f as [|f IH]; intros n c; [done|]. simpl.
  intros (_ & -> & Hch). destruct (Dom.kind_of d n) as [[]|]; try done.
  induction Hch as [|x y l l' Hxy _ IHl]; simpl; [done|].
  by rewrite IHl, (IH x y).
Qed.

Lemma outerHTML_copy P d D : ∀ f n c,
  copy_of f P d n D c → outerHTML f D c = outerHTML f d n.
Proof.
  induction f as [|f IH]; intros n c; [done|]. simpl.
  intros (_ & -> & Hch). destruct (Dom.kind_of d n) as [[]|]; try done.
  assert (foldr (λ ch acc, outerHTML f D ch +:+ acc) "" (Dom.children_of D c)
          = foldr (λ ch acc, outerHTML f d ch +:+ acc) "" (Dom.children_of d n)) as ->;
    [|done].
  induction Hch as [|x y l l' Hxy _ IHl]; simpl; [done|].
  by rewrite IHl, (IH x y).
Qed.

(** An entry that is there and is not. *)
Ltac no_entry :=
  match goal with
  | H : is_Some (_ !! _) |- _ =>
      let x := fresh in destruct H as [x H]; unfold nid in *; congruence
  end.

Lemma lookup_set_link_ne c0 cc l G z :
  z ≠ c0 →
  Dom.kind_of (Dom.set_parent cc (Some c0) (Dom.set_children c0 l G)) z = Dom.kind_of G z
  ∧ Dom.children_of (Dom.set_parent cc (Some c0) (Dom.set_children c0 l G)) z
    = Dom.children_of G z.
Proof.
  intros Hz. rewrite kind_of_set_parent, kind_of_set_children.
  rewrite children_of_set_parent, children_of_set_children.
  rewrite decide_False; [done|]. by intros [-> _].
Qed.

(** [cloneNode(true)] makes a copy that is as deep as the tree copied,
    when it is given fuel for the levels below the node: here the tree is
    read in [E], a heap that has the tree that a well-formed heap [d0]
    has below [x]. *)
Lemma cloneNode_copy d0 : Tree.wf d0 → ∀ fuel x E E' c k,
  (∀ n, rtc (λ u v, Dom.parent_of d0 u = Some v) n x →
        is_Some (E !! n)
        ∧ Dom.kind_of E n = Dom.kind_of d0 n
        ∧ Dom.children_of E n = Dom.children_of d0 n) →
  Tree.depth (size d0) d0 x = Some k → size d0 ≤ k + fuel →
  Dom.cloneNode fuel x E = (E', c) →
  ∀ f, copy_of f (λ z, E !! z = None ∧ is_Some (E' !! z)) d0 x E' c.
Proof.
  intros Hwf. induction fuel as [|fuel IH]; intros x E E' c k Hagree Hk Hfuel.
  { apply depth_lt in Hk. lia. }
  destruct (Hagree x (rtc_refl _ _)) as ([nd Hx] & Hkx & Hcx).
  simpl. rewrite Hx. set (c0 := Dom.fresh_id E).
  assert (E !! c0 = None) as Hc0 by apply fresh_id_fresh.
  assert (childNodes nd = Dom.children_of d0 x) as HL.
  { rewrite <- Hcx. unfold Dom.children_of. by rewrite Hx. }
  assert (Dom.kind_of d0 x = Some (kind nd)) as Hknd.
  { rewrite <- Hkx. unfold Dom.kind_of. by rewrite Hx. }
  rewrite HL. intros [= <- <-].
  set (step := λ (d' : DOM) (ch : nid),
         let '(d'', cc) := Dom.cloneNode fuel ch d' in
         Dom.set_parent cc (Some c0)
           (Dom.set_children c0 (Dom.children_of d'' c0 ++ [cc]) d'')).
  assert (∀ l xs ys G,
            (∀ ch, ch ∈ l → ch ∈ Dom.children_of d0 x) →
            G !! c0 = Some (mkNode (kind nd) None ys) →
            (∀ z, is_Some (E !! z) → G !! z = E !! z) →
            (∀ f, Forall2 (λ u v, copy_of f (λ z, E !! z = None ∧ z ≠ c0 ∧ is_Some (G !! z))
                                    d0 u G v) xs ys) →
            ∃ ys',
              foldl step G l !! c0 = Some (mkNode (kind nd) None ys')
              ∧ ∀ f, Forall2 (λ u v, copy_of f (λ z, E !! z = None ∧ z ≠ c0
                                                      ∧ is_Some (foldl step G l !! z))
                                       d0 u (foldl step G l) v) (xs ++ l) ys') as Hfold.
  { induction l as [|ch l IHl]; intros xs ys G Hl HG HE Hcopies.
    - exists ys. simpl. rewrite app_nil_r. done.
    - cbn [foldl]. unfold step at 2 4 6.
      assert (ch ∈ Dom.children_of d0 x) as Hch by (apply Hl; by left).
      pose proof (wf_child_parent d0 x ch Hwf Hch) as Hpch.
      assert (Tree.rooted d0 ch) as [kc Hkc].
      { apply wf_rooted; [done|]. by eapply parent_of_is_Some. }
      destruct (depth_step d0 ch x kc Hkc Hpch) as (k' & -> & Hk').
      assert (k' = k) as -> by congruence.
      assert (is_Some (G !! c0)) as Hc0G by (by rewrite HG).
      pose proof (cloneNode_preserves fuel ch G) as Hpres.
      pose proof (cloneNode_id fuel ch G) as Hid.
      destruct (Dom.cloneNode fuel ch G) as [G' cc] eqn:Hclone. simpl in Hpres, Hid.
      assert (∀ f, copy_of f (λ z, G !! z = None ∧ is_Some (G' !! z)) d0 ch G' cc)
        as Hnew.
      { apply (IH ch G G' cc (S k)); [|done|lia|done].
        intros n Hn.
        destruct (Hagree n) as (Hin & Hkn & Hcn); [by eapply rtc_r|].
        destruct (same_entry_views _ _ _ (HE n Hin)) as (_ & E2 & E3).
        rewrite HE by done. split; [done|]. split; congruence. }
      assert (G !! cc = None) as HccG by (rewrite Hid; apply fresh_id_fresh).
      assert (cc ≠ c0) as Hcc0.
      { intros ->. no_entry. }
      assert (Dom.children_of G' c0 = ys) as Hys.
      { unfold Dom.children_of. unfold nid in *. by rewrite (Hpres c0 Hc0G), HG. }
      rewrite Hys.
      set (G'' := Dom.set_parent cc (Some c0) (Dom.set_children c0 (ys ++ [cc]) G')).
      assert (∀ z, is_Some (G' !! z) → is_Some (G'' !! z)) as Hin''.
      { intros z Hz. subst G''. unfold Dom.set_parent, Dom.set_children.
        by rewrite !lookup_alter_is_Some. }
      assert (∀ z, is_Some (G !! z) → is_Some (G' !! z)) as Hin'.
      { intros z Hz. unfold nid in *. by rewrite (Hpres z Hz). }
      replace (xs ++ ch :: l) with ((xs ++ [ch]) ++ l) by (by rewrite <- app_assoc).
      apply (IHl (xs ++ [ch]) (ys ++ [cc]) G'').
      + intros ch' Hch'. apply Hl. by right.
      + subst G''. unfold Dom.set_parent, Dom.set_children. unfold nid in *.
        rewrite lookup_alter_ne by done.
        rewrite lookup_alter_eq, (Hpres c0 Hc0G), HG. done.
      + intros z Hz.
        assert (is_Some (G !! z)) as HzG by (by rewrite HE).
        assert (z ≠ c0) as Hz0.
        { intros ->. no_entry. }
        assert (z ≠ cc) as Hzc.
        { intros ->. no_entry. }
        subst G''. unfold Dom.set_parent, Dom.set_children. unfold nid in *.
        rewrite !lookup_alter_ne by done. rewrite (Hpres z HzG). by apply HE.
      + intros f. apply Forall2_app.
        * eapply Forall2_impl; [exact (Hcopies f)|]. simpl. intros u v Huv.
          eapply copy_of_impl; [|eapply (copy_of_stable _ d0 G G''); [|exact Huv]].
          -- intros z (Hz1 & Hz2 & Hz3). repeat split; [done..|]. by apply Hin'', Hin'.
          -- intros z (Hz1 & Hz2 & Hz3). simpl. unfold G''.
             destruct (lookup_set_link_ne c0 cc (ys ++ [cc]) G' z Hz2) as [-> ->].
             destruct (same_entry_views _ _ _ (Hpres z Hz3)) as (_ & -> & ->). done.
        * constructor; [|constructor].
          eapply copy_of_impl; [|eapply (copy_of_stable _ d0 G' G''); [|exact (Hnew f)]].
          -- intros z (Hz1 & Hz2).
             assert (z ≠ c0) as Hz0.
             { intros ->. no_entry. }
             repeat split; [|done|by apply Hin''].
             destruct (E !! z) eqn:Ez; [|done]. exfalso.
             assert (is_Some (E !! z)) as HEz by eauto.
             pose proof (HE z HEz). no_entry.
          -- intros z (Hz1 & Hz2). simpl. unfold G''.
             apply lookup_set_link_ne. intros ->. no_entry. }
  destruct (Hfold (Dom.children_of d0 x) [] [] (<[c0 := mkNode (kind nd) None []]> E))
    as (ys' & HF & Hcopies).
  - done.
  - by rewrite lookup_insert_eq.
  - intros z Hz. rewrite lookup_insert_ne; [done|].
    intros <-. no_entry.
  - intros f. constructor.
  - simpl in Hcopies.
    intros [|f]; [done|]. simpl. repeat split.
    + done.
    + unfold nid in *. by rewrite HF.
    + rewrite Hknd. unfold Dom.kind_of. unfold nid in *. by rewrite HF.
    + assert (∀ F : DOM, F !! c0 = Some (mkNode (kind nd) None ys') →
                Dom.children_of F c0 = ys') as Hys'.
      { intros F HFc. unfold Dom.children_of. unfold nid in *. by rewrite HFc. }
      rewrite (Hys' _ HF).
      eapply Forall2_impl; [exact (Hcopies f)|]. simpl. intros u v.
      apply copy_of_impl. by intros z (? & _ & ?).
Qed.

Lemma text_of_enough d : Tree.wf d → ∀ f f' n k,
  Tree.depth (size d) d n = Some k → size d ≤ k + f → size d ≤ k + f' →
  Dom.text_of f d n = Dom.text_of f' d n.
Proof.
  intros Hwf. induction f as [|f IH]; intros f' n k Hk Hf Hf'.
  { apply depth_lt in Hk. lia. }
  destruct f' as [|f']; [apply depth_lt in Hk; lia|]. simpl.
  destruct (Dom.kind_of d n) as [[]|]; try done.
  assert (∀ c, c ∈ Dom.children_of d n → Dom.text_of f d c = Dom.text_of f' d c) as Hch.
  { intros c Hc. pose proof (wf_child_parent d n c Hwf Hc) as Hp.
    assert (Tree.rooted d c) as [kc Hkc].
    { apply wf_rooted; [done|]. by eapply parent_of_is_Some. }
    destruct (depth_step d c n kc Hkc Hp) as (k' & -> & Hk').
    assert (k' = k) as -> by congruence.
    apply (IH f' c (S k)); [done|lia|lia]. }
  induction (Dom.children_of d n) as [|c l IHl]; simpl; [done|].
  rewrite IHl, Hch; [done|by left|]. intros c' Hc'. apply Hch. by right.
Qed.

(** X5: the copy that an [ADD] carries is a deep one.  For a record
    that adds one node to a well-formed tree, the node of the [ADD] is a
    copy of the added node with all that is below it: the same kinds of
    nodes with the same names and texts at every depth, hence the same
    [textContent] and the same markup, and made of new nodes only. *)
Theorem ADD_copy_is_deep (W : option nid) (r : MutationRecord) (d d' : DOM)
  (logs logs' : list TOperationLog) (added : nid) :
  Tree.wf d → is_Some (d !! added) →
  Mutation.addedNodes r = [added] → Mutation.removedNodes r = [] →
  compile_record W r d logs = Ok (d', logs') →
  ∃ earlier operation clone,
    logs' = earlier ++ [operation]
    ∧ Operation.type operation = ADD
    ∧ Operation.node operation = NodeObject clone
    ∧ Dom.textContent d' clone = Dom.textContent d added
    ∧ (∀ fuel, outerHTML fuel d' clone = outerHTML fuel d added)
    ∧ (∀ fuel, copy_of fuel (λ z, d !! z = None) d added d' clone).
Proof.
  intros Hwf Hin Hadd Hrem. unfold compile_record. rewrite Hadd, Hrem. simpl.
  destruct (wf_rooted d added Hwf Hin) as [k Hk].
  destruct (match Dom.parent_of d added with
            | Some _ => Dom.removeChild d (Mutation.target r) added
            | None => Ok d
            end) as [d1|] eqn:H1; [|done].
  simpl.
  assert (size d1 = size d
          ∧ (∀ z, is_Some (d1 !! z) ↔ is_Some (d !! z))
          ∧ ∀ n, rtc (λ u v, Dom.parent_of d u = Some v) n added →
                 is_Some (d1 !! n)
                 ∧ Dom.kind_of d1 n = Dom.kind_of d n
                 ∧ Dom.children_of d1 n = Dom.children_of d n) as (Hsz & Hdom & Hagree).
  { assert (∀ n, rtc (λ u v, Dom.parent_of d u = Some v) n added → is_Some (d !! n))
      as Hsub.
    { intros n Hn. destruct Hn as [|n y z Hny _]; [done|]. by eapply parent_of_is_Some. }
    destruct (Dom.parent_of d added) as [p|] eqn:Hp.
    - unfold Dom.removeChild in H1. destruct (decide _) as [_|Hne]; [|done].
      injection H1 as <-. split; [apply size_detach|].
      split; [intros z; apply lookup_detach_is_Some|].
      intros n Hn. rewrite lookup_detach_is_Some, kind_of_detach, children_of_detach.
      split; [by apply Hsub|]. split; [done|].
      rewrite Hp. rewrite decide_False; [done|]. intros [= ->].
      destruct (depth_step d added n k Hk Hp) as (k' & -> & Hk').
      destruct (depth_ancestor d n added k' Hn Hk') as (k2 & Hk2 & Hle).
      assert (k2 = S k') by congruence. lia.
    - injection H1 as <-. repeat split; try done. by apply Hsub. }
  destruct (Dom.cloneNode (size d1) added d1) as [d2 clone] eqn:Hclone.
  intros [= <- <-].
  assert (∀ f, copy_of f (λ z, d !! z = None) d added d2 clone) as Hcopy.
  { intros f. eapply copy_of_impl;
      [|apply (cloneNode_copy d Hwf (size d1) added d1 d2 clone k); try done].
    - intros z [Hz _]. destruct (d !! z) eqn:Ez; [|done]. exfalso.
      assert (is_Some (d1 !! z)) as Hz1 by (apply Hdom; eauto). no_entry.
    - apply depth_lt in Hk. lia. }
  eexists _, _, clone. split; [done|]. split; [done|]. split; [done|].
  split; [|split; [|done]].
  - pose proof (Hcopy (S (size d2))) as (_ & Hkind & _).
    unfold Dom.textContent. rewrite Hkind.
    destruct (Dom.kind_of d added) as [[]|]; try done. f_equal.
    rewrite (text_of_copy _ _ _ _ _ _ (Hcopy (size d2))).
    apply (text_of_enough d Hwf _ _ added k Hk).
    + pose proof (cloneNode_preserves (size d1) added d1) as Hpres.
      rewrite Hclone in Hpres. simpl in Hpres.
      assert (size d ≤ size d2); [|lia].
      rewrite <- Hsz. apply map_subseteq_size, map_subseteq_spec.
      intros i x Hi. unfold nid in *. rewrite Hpres; [done|eauto].
    + apply depth_lt in Hk. lia.
  - intros fuel. by eapply outerHTML_copy.
Qed.

Lemma ADD_copy_is_deep_witness :
  let d := Example.page_inserted in
  let d' := (compiled (Some 3) [Example.inserted] d).1 in
  ∃ earlier operation clone,
    (compiled (Some 3) [Example.inserted] d).2 = earlier ++ [operation]
    ∧ Operation.type operation = ADD
    ∧ Operation.node operation = NodeObject clone
    ∧ Dom.textContent d' clone = Dom.textContent d 20
    ∧ (∀ fuel, outerHTML fuel d' clone = outerHTML fuel d 20)
    ∧ (∀ fuel, copy_of fuel (λ z, d !! z = None) d 20 d' clone).
Proof.
  intros d d'.
  apply (ADD_copy_is_deep (Some 3) Example.inserted d d' []).
  - apply wf_by_computation. vm_compute. reflexivity.
  - vm_compute. eauto.
  - reflexivity.
  - reflexivity.
  - vm_compute. reflexivity.
Defined.

(** ** Without a watched element *)

Lemma getXPathFromNode_no_watch d node : getXPathFromNode d None node = "".
Proof. reflexivity. Qed.

Lemma apply_operation_blank Mirror d op : blank op → apply_operation Mirror d op = Ok d.
Proof.
  unfold blank, apply_operation.
  destruct (Operation.type op), (Operation.node op) as [s|c]; try done.
  - intros ->. reflexivity.
  - intros ->. reflexivity.
  - intros [-> ->]. reflexivity.
Qed.

Lemma SyncToMirror_blank Mirror logs d :
  Forall blank logs → SyncToMirror Mirror logs d = Ok d.
Proof.
  induction logs as [|op logs IH] using rev_ind; [done|].
  intros [Hl Hop%Forall_inv]%Forall_app.
  rewrite SyncToMirror_snoc, apply_operation_blank by done. simpl. by apply IH.
Qed.

Lemma compile_removed_blank r : ∀ l d logs d' logs',
  Forall blank logs → compile_removed None r l d logs = Ok (d', logs') →
  Forall blank logs'.
Proof.
  induction l as [|x l IH]; intros d logs d' logs' Hb; simpl.
  - by intros [= <- <-].
  - destruct (Dom.insertBefore _ _ _ _) as [d1|]; [|done]. simpl.
    apply IH. apply Forall_app. split; [done|]. by repeat constructor.
Qed.

Lemma compile_added_blank r : ∀ l d logs d' logs',
  Forall blank logs → compile_added None r l d logs = Ok (d', logs') →
  Forall blank logs'.
Proof.
  induction l as [|x l IH]; intros d logs d' logs' Hb; simpl.
  - by intros [= <- <-].
  - destruct (match Dom.parent_of d x with Some _ => _ | None => _ end) as [d1|]; [|done].
    simpl. destruct (Dom.cloneNode _ _ _) as [d2 c].
    apply IH. apply Forall_app. split; [done|]. by repeat constructor.
Qed.

Lemma compile_record_blank r d logs d' logs' :
  Forall blank logs → compile_record None r d logs = Ok (d', logs') →
  Forall blank logs'.
Proof.
  unfold compile_record. intros Hb.
  assert (Forall blank (compile_text None d r logs)) as Ht.
  { unfold compile_text. destruct (Mutation.oldValue r); [|done].
    destruct (Mutation.type r); try done.
    destruct (JSON_same _ _); [done|].
    apply Forall_app. split; [done|]. by repeat constructor. }
  destruct (compile_removed _ _ _ _ _) as [[d1 logs1]|] eqn:Hr; [|done]. simpl.
  apply compile_removed_blank in Hr; [|done].
  by apply compile_added_blank.
Qed.

Lemma compile_records_blank l : ∀ d logs d' logs',
  Forall blank logs → compile_records None l d logs = Ok (d', logs') →
  Forall blank logs'.
Proof.
  induction l as [|r l IH]; intros d logs d' logs' Hb; simpl.
  - by intros [= <- <-].
  - destruct (compile_record None r d logs) as [[d1 logs1]|] eqn:Hr; [|done]. simpl.
    apply compile_record_blank in Hr; [|done]. by apply IH.
Qed.

(** X6: without a watched element every address is the empty string,
    so a flush still undoes the recorded mutations on the live tree but
    replays nothing: every operation of its log is skipped, whatever the
    mirror document is. *)
Theorem flush_without_watched_element (h h' : Hook) :
  WatchElementRef h = None →
  FlushQueue h = Ok h' →
  ∃ q' logs,
    compile None (MutationQueue (DaemonState h) ++ records (Observer (DaemonState h)))
      (heap h) = Ok (q', heap h', logs)
    ∧ Forall blank logs
    ∧ ∀ Mirror d, SyncToMirror Mirror logs d = Ok d.
Proof.
  intros HW. unfold FlushQueue. simpl. rewrite HW.
  destruct (decide _) as [->|Hne].
  { intros [= <-]. exists [], []. repeat split; done. }
  destruct (compile _ _ _) as [[[q' d] logs]|] eqn:Hc; [|done]. simpl.
  assert (Forall blank logs) as Hb.
  { rewrite compile_as_records in Hc.
    destruct (compile_records _ _ _ _) as [[d1 logs1]|] eqn:Hr; [|done].
    simpl in Hc. injection Hc as <- <- <-.
    by apply compile_records_blank in Hr. }
  rewrite SyncToMirror_blank by done. simpl. intros [= <-]. simpl.
  exists q', logs. repeat split; [done|].
  intros Mirror d0. by apply SyncToMirror_blank.
Qed.

Lemma flush_without_watched_element_witness :
  let h := mkHook Example.page_ab_deleted None (Some 10)
             (mkDaemonState (mkObserver None []) [Example.deleted]) 0 in
  ∃ q' logs,
    compile None (MutationQueue (DaemonState h) ++ records (Observer (DaemonState h)))
      (heap h) = Ok (q', heap (flushed h), logs)
    ∧ Forall blank logs
    ∧ ∀ Mirror d, SyncToMirror Mirror logs d = Ok d.
Proof.
  intros h. apply (flush_without_watched_element h (flushed h)); [reflexivity|].
  vm_compute. reflexivity.
Defined.

(** ** The empty address *)

Lemma append_not_empty (s t : string) : t ≠ "" → s +:+ t ≠ "".
Proof. destruct s; [done|]. by rewrite append_cons. Qed.

(** X7: the address of a node is the empty string in one case only:
    the node has no id, does not look like the watched element, is not a
    text node, and has no parent, or is not among the children of its
    parent. *)
Theorem getXPathFromNode_empty (d : DOM) (w node : nid) :
  Tree.rooted d node →
  getXPathFromNode d (Some w) node = "" ↔
    has_id d node = None
    ∧ looks_like d node w = false
    ∧ Dom.is_text d node = false
    ∧ ∀ p, Dom.parent_of d node = Some p → node ∉ Dom.children_of d p.
Proof.
  intros Hroot. unfold getXPathFromNode. simpl.
  destruct (has_id d node) as [i|] eqn:Hid.
  { simpl. split; [|by intros [? _]]. by rewrite append_cons. }
  destruct (looks_like d node w) eqn:Hw.
  { simpl. split; [done|]. by intros (_ & ? & _). }
  destruct (Dom.is_text d node) eqn:Htext.
  { split; [|by intros (_ & _ & ? & _)].
    destruct (Dom.parent_of d node) as [p|] eqn:Hp.
    - rewrite (getXPathFromNode_parent d (Some w) node p Hroot Hp). simpl.
      intros E. by apply append_not_empty in E.
    - simpl. by rewrite append_cons. }
  destruct (Dom.parent_of d node) as [p|] eqn:Hp.
  - destruct (decide (node ∈ Dom.children_of d p)) as [Hin|Hout].
    + rewrite (count_same_spec d node _ 0 Hin).
      rewrite (getXPathFromNode_parent d (Some w) node p Hroot Hp). simpl.
      split.
      * intros E. by apply append_not_empty in E.
      * intros (_ & _ & _ & Hno). by destruct (Hno p).
    + rewrite (count_same_None d node _ 0 Hout). simpl.
      split; [|done]. intros _. repeat split. by intros ? [= <-].
  - simpl. split; [|done]. intros _. repeat split. done.
Qed.

Lemma getXPathFromNode_empty_witness :
  getXPathFromNode Example.page_with_spare (Some 3) 20 = "" ↔
    has_id Example.page_with_spare 20 = None
    ∧ looks_like Example.page_with_spare 20 3 = false
    ∧ Dom.is_text Example.page_with_spare 20 = false
    ∧ ∀ p, Dom.parent_of Example.page_with_spare 20 = Some p
           → 20 ∉ Dom.children_of Example.page_with_spare p.
Proof.
  apply (getXPathFromNode_empty Example.page_with_spare 3 20).
  exists 0. vm_compute. reflexivity.
Defined.

Lemma FlushQueue_twice_witness :
  let h := Example.undelivered Example.page_ab_deleted Example.deleted in
  FlushQueue (flushed h) = Ok (flushed h).
Proof.
  intros h. apply (FlushQueue_twice h (flushed h)). vm_compute. reflexivity.
Defined.

Lemma FlushQueue_notifies_once_witness :
  let h := Example.undelivered Example.page_ab_deleted Example.deleted in
  FinalizeChanges_calls (flushed h) = S (FinalizeChanges_calls h)
  ∧ WatchElementRef (flushed h) = WatchElementRef h
  ∧ MirrorDocumentRef (flushed h) = MirrorDocumentRef h
  ∧ observed (Observer (DaemonState (flushed h))) = WatchElementRef h.
Proof.
  intros h. apply (FlushQueue_notifies_once h (flushed h)).
  - vm_compute. reflexivity.
  - simpl. discriminate.
Defined.

(** X8: what one record adds to the log.  The log so far is kept;
    then comes at most one [TEXT], and only for a [characterData] record
    with an old value; then one [REMOVE] for each removed node; then one
    [ADD] for each added node. *)
Theorem compile_record_log_shape (W : option nid) (r : MutationRecord) (d d' : DOM)
  (logs logs' : list TOperationLog) :
  compile_record W r d logs = Ok (d', logs') →
  ∃ text removes adds,
    logs' = logs ++ text ++ removes ++ adds
    ∧ length text ≤ 1
    ∧ Forall (λ o, Operation.type o = TEXT) text
    ∧ (text ≠ [] → Mutation.type r = Mutation.characterData
                   ∧ is_Some (Mutation.oldValue r))
    ∧ length removes = length (Mutation.removedNodes r)
    ∧ Forall (λ o, Operation.type o = REMOVE) removes
    ∧ length adds = length (Mutation.addedNodes r)
    ∧ Forall (λ o, Operation.type o = ADD) adds.
Proof. apply compile_record_parts. Qed.

Lemma compile_record_log_shape_witness :
  let r := Example.replaced in
  let d := Example.page_replaced in
  ∃ text removes adds,
    (compiled (Some 3) [r] d).2 = [] ++ text ++ removes ++ adds
    ∧ length text ≤ 1
    ∧ Forall (λ o, Operation.type o = TEXT) text
    ∧ (text ≠ [] → Mutation.type r = Mutation.characterData
                   ∧ is_Some (Mutation.oldValue r))
    ∧ length removes = length (Mutation.removedNodes r)
    ∧ Forall (λ o, Operation.type o = REMOVE) removes
    ∧ length adds = length (Mutation.addedNodes r)
    ∧ Forall (λ o, Operation.type o = ADD) adds.
Proof.
  intros r d.
  apply (compile_record_log_shape (Some 3) r d (compiled (Some 3) [r] d).1 []).
  vm_compute. reflexivity.
Defined.

(** ** Replaying a text *)

Lemma foldr_remove_node_elem x ch l :
  x ∈ foldr Dom.remove_node ch l → x ∈ ch ∧ x ∉ l.
Proof.
  induction l as [|c l IH]; simpl.
  - intros ?. split; [done|]. by intros ?%elem_of_nil.
  - intros Hx.
    assert (x ∈ foldr Dom.remove_node ch l ∧ x ≠ c) as [Hin Hne].
    { revert Hx. generalize (foldr Dom.remove_node ch l). intros l0.
      induction l0 as [|y l0 IH0]; simpl; [by intros ?%elem_of_nil|].
      destruct (decide (y = c)) as [->|Hy].
      - intros [? ?]%IH0. split; [by right|done].
      - intros [->|[? ?]%IH0]%elem_of_cons; (split; [by constructor|done]). }
    destruct (IH Hin) as [? ?]. split; [done|].
    intros [->|?]%elem_of_cons; done.
Qed.

Lemma parent_of_foldr_detach l d c :
  Dom.parent_of (foldr Dom.detach d l) c
  = if decide (c ∈ l) then None else Dom.parent_of d c.
Proof.
  induction l as [|x l IH]; cbn [foldr].
  - rewrite decide_False; [done|]. by intros ?%elem_of_nil.
  - rewrite parent_of_detach. destruct (decide (x = c)) as [->|Hne].
    + rewrite decide_True; [done|]. by left.
    + rewrite IH. destruct (decide (c ∈ l)) as [Hin|Hout].
      * rewrite decide_True; [done|]. by right.
      * rewrite decide_False; [done|]. intros [->|?]%elem_of_cons; done.
Qed.

Lemma kind_of_foldr_detach l d n :
  Dom.kind_of (foldr Dom.detach d l) n = Dom.kind_of d n.
Proof. induction l as [|x l IH]; simpl; [done|]. by rewrite kind_of_detach. Qed.

Lemma size_foldr_detach l d : size (foldr Dom.detach d l) = size d.
Proof. induction l as [|x l IH]; simpl; [done|]. by rewrite size_detach. Qed.

Lemma children_of_foldr_detach l d n :
  (∀ c, c ∈ l → Dom.parent_of d c = Some n) →
  Dom.children_of (foldr Dom.detach d l) n = foldr Dom.remove_node (Dom.children_of d n) l.
Proof.
  induction l as [|x l IH]; cbn [foldr]; intros Hl; [done|].
  rewrite children_of_detach, parent_of_foldr_detach.
  rewrite IH by (intros c Hc; apply Hl; by right).
  destruct (decide (x ∈ l)) as [Hin|Hout].
  - rewrite decide_False by done. symmetry. apply remove_node_notin.
    intros [_ ?]%foldr_remove_node_elem. done.
  - rewrite decide_True; [done|]. apply Hl. by left.
Qed.

Lemma foldr_remove_node_all l : foldr Dom.remove_node l l = [].
Proof.
  destruct (foldr Dom.remove_node l l) as [|x r] eqn:E; [done|].
  assert (x ∈ foldr Dom.remove_node l l) as Hx by (rewrite E; by left).
  by apply foldr_remove_node_elem in Hx as [? ?].
Qed.

Lemma size_pos (d : DOM) n : is_Some (d !! n) → size d ≠ 0.
Proof. intros [x Hx] E%map_size_empty_inv. by rewrite E, lookup_empty in Hx. Qed.

(** After [node.textContent = s] the getter gives [s] back, on every
    node but a document; on an element this takes that its children have
    it for parent. *)
Lemma set_textContent_get d n s k :
  Dom.kind_of d n = Some k → Dom.is_document k = false →
  (∀ c, c ∈ Dom.children_of d n → Dom.parent_of d c = Some n) →
  Dom.textContent (Dom.set_textContent d n s) n = Some s.
Proof.
  intros Hk Hdoc Hch.
  assert (is_Some (d !! n)) as Hn by (apply kind_of_is_Some; eauto).
  unfold Dom.set_textContent. rewrite Hk.
  destruct k as [t i c|old|old|]; [| | |done].
  - set (d1 := foldr Dom.detach d (Dom.children_of d n)).
    assert (Dom.kind_of d1 n = Some (Element t i c)) as Hk1.
    { subst d1. by rewrite kind_of_foldr_detach. }
    assert (is_Some (d1 !! n)) as Hn1 by (apply kind_of_is_Some; eauto).
    destruct (decide (s = "")) as [->|Hs].
    + unfold Dom.textContent. rewrite Hk1.
      destruct (size d1) as [|f] eqn:Hsz; [by apply size_pos in Hn1|].
      simpl. rewrite Hk1. subst d1.
      by rewrite children_of_foldr_detach, foldr_remove_node_all.
    + set (tn := Dom.fresh_id d1).
      assert (tn ≠ n) as Htn.
      { intros E. subst tn. rewrite <- E, fresh_id_fresh in Hn1. by destruct Hn1. }
      set (d2 := <[tn := mkNode (Text s) (Some n) []]> d1).
      assert (is_Some (d2 !! n)) as Hn2.
      { subst d2. by rewrite lookup_insert_ne. }
      assert (Dom.kind_of (Dom.set_children n [tn] d2) n = Some (Element t i c)) as Hk2.
      { rewrite kind_of_set_children. subst d2. unfold Dom.kind_of.
        rewrite lookup_insert_ne by done. exact Hk1. }
      assert (Dom.kind_of (Dom.set_children n [tn] d2) tn = Some (Text s)) as Hkt.
      { rewrite kind_of_set_children. subst d2. unfold Dom.kind_of.
        by rewrite lookup_insert_eq. }
      assert (Dom.children_of (Dom.set_children n [tn] d2) n = [tn]) as Hc2.
      { rewrite children_of_set_children. by rewrite decide_True. }
      unfold Dom.textContent. rewrite Hk2.
      assert (size (Dom.set_children n [tn] d2) = S (size d1)) as ->.
      { unfold Dom.set_children. rewrite size_alter. subst d2.
        apply map_size_insert_None, fresh_id_fresh. }
      destruct (size d1) as [|f] eqn:Hsz; [by apply size_pos in Hn1|].
      simpl. rewrite Hk2, Hc2. simpl. rewrite Hkt. by rewrite append_nil_r.
  - unfold Dom.textContent. rewrite kind_of_set_kind. by rewrite decide_True.
  - unfold Dom.textContent. rewrite kind_of_set_kind. by rewrite decide_True.
Qed.

(** X9: after [UpdateMirrorDocument.Text] the node that the address
    selects has the text given, the empty text for [null]: the getter of
    [textContent] gives it back, on a text node, on a comment and on an
    element alike. *)
Theorem Text_then_textContent (d : DOM) (Mirror : option nid) (XPath : string)
  (Text : option string) (NodeResult : nid) (k : NodeKind) :
  Tree.wf d →
  XPath ≠ "" →
  getNodeFromXPath d Mirror XPath = Ok (Some NodeResult) →
  Dom.kind_of d NodeResult = Some k → Dom.is_document k = false →
  ∃ d',
    UpdateMirrorDocument.Text d Mirror XPath Text = Ok d'
    ∧ Dom.textContent d' NodeResult = Some (default "" Text).
Proof.
  intros Hwf Hx Hres Hk Hdoc. unfold UpdateMirrorDocument.Text.
  rewrite decide_False by done. rewrite Hres. simpl.
  eexists. split; [done|].
  eapply set_textContent_get; [done..|].
  intros c Hc. by apply wf_child_parent.
Qed.

Lemma Text_then_textContent_witness :
  ∃ d',
    UpdateMirrorDocument.Text Example.page (Some 10) "//body/p[1]" (Some "Bye") = Ok d'
    ∧ Dom.textContent d' 13 = Some "Bye".
Proof.
  apply (Text_then_textContent Example.page (Some 10) "//body/p[1]" (Some "Bye") 13
           (Element "P" "" "")).
  - apply wf_by_computation. vm_compute. reflexivity.
  - discriminate.
  - vm_compute. reflexivity.
  - vm_compute. reflexivity.
  - reflexivity.
Defined.

(** ** Replaying a removal and an insertion *)

Lemma remove_node_not_elem n l : n ∉ Dom.remove_node n l.
Proof.
  induction l as [|x l IH]; simpl; [by intros ?%elem_of_nil|].
  destruct (decide (x = n)); [done|]. by intros [->|?]%elem_of_cons.
Qed.

Lemma lookup_detach_ne n d m :
  m ≠ n → Dom.parent_of d n ≠ Some m → Dom.detach n d !! m = d !! m.
Proof.
  intros Hn Hp. unfold Dom.detach.
  destruct (Dom.parent_of d n) as [p|]; [|done].
  unfold Dom.set_parent, Dom.set_children.
  rewrite !lookup_alter_ne; [done|congruence|done].
Qed.

(** X10: [UpdateMirrorDocument.Remove] with two addresses that select
    nodes.  When the node selected is not a child of the parent selected,
    [removeChild] throws a [NotFoundError], which nothing catches; when it
    is, the node loses its parent, the parent loses this child and no
    other, and no other node changes. *)
Theorem Remove_resolved (d : DOM) (Mirror : option nid) (XPathParent XPathSelf : string)
  (parentNode targetNode : nid) :
  XPathParent ≠ "" → XPathSelf ≠ "" →
  getNodeFromXPath d Mirror XPathParent = Ok (Some parentNode) →
  getNodeFromXPath d Mirror XPathSelf = Ok (Some targetNode) →
  (Dom.parent_of d targetNode ≠ Some parentNode →
   UpdateMirrorDocument.Remove d Mirror (Some XPathParent) (Some XPathSelf)
   = Throw NotFoundError)
  ∧ (Dom.parent_of d targetNode = Some parentNode →
     ∃ d',
       UpdateMirrorDocument.Remove d Mirror (Some XPathParent) (Some XPathSelf) = Ok d'
       ∧ Dom.parent_of d' targetNode = None
       ∧ Dom.children_of d' parentNode
         = Dom.remove_node targetNode (Dom.children_of d parentNode)
       ∧ (targetNode ∉ Dom.children_of d' parentNode)
       ∧ ∀ n, n ≠ parentNode → n ≠ targetNode → d' !! n = d !! n).
Proof.
  intros Hp Hs HP HS. unfold UpdateMirrorDocument.Remove.
  rewrite !decide_False by done. rewrite HP. simpl. rewrite HS. simpl.
  unfold Dom.removeChild. split; intros Hpar.
  - by rewrite decide_False.
  - rewrite decide_True by done. eexists. split; [done|].
    rewrite parent_of_detach, children_of_detach, !decide_True by done.
    repeat split; [apply remove_node_not_elem|].
    intros n Hn1 Hn2. apply lookup_detach_ne; [done|]. congruence.
Qed.

Lemma Remove_resolved_witness :
  (Dom.parent_of Example.page_ab 15 ≠ Some 12 →
   UpdateMirrorDocument.Remove Example.page_ab (Some 10) (Some "//body") (Some "//body/p[2]")
   = Throw NotFoundError)
  ∧ (Dom.parent_of Example.page_ab 15 = Some 12 →
     ∃ d',
       UpdateMirrorDocument.Remove Example.page_ab (Some 10) (Some "//body")
         (Some "//body/p[2]") = Ok d'
       ∧ Dom.parent_of d' 15 = None
       ∧ Dom.children_of d' 12 = Dom.remove_node 15 (Dom.children_of Example.page_ab 12)
       ∧ (15 ∉ Dom.children_of d' 12)
       ∧ ∀ n, n ≠ 12 → n ≠ 15 → d' !! n = Example.page_ab !! n).
Proof.
  apply (Remove_resolved Example.page_ab (Some 10) "//body" "//body/p[2]" 12 15).
  - discriminate.
  - discriminate.
  - vm_compute. reflexivity.
  - vm_compute. reflexivity.
Defined.

(** X11: [UpdateMirrorDocument.Add] with a sibling address that
    selects a node.  When that node is not a child of the parent
    selected, [insertBefore] throws a [NotFoundError]; when it is, the
    node added comes directly in front of it, and no node other than the
    parent and the node added changes. *)
Theorem Add_before_resolved_sibling (d : DOM) (Mirror : option nid)
  (XPathParent XPathSibling : string) (parentNode SiblingNode Node : nid) (nk : NodeKind) :
  XPathParent ≠ "" → XPathSibling ≠ "" →
  getNodeFromXPath d Mirror XPathParent = Ok (Some parentNode) →
  getNodeFromXPath d Mirror XPathSibling = Ok (Some SiblingNode) →
  Dom.is_element d parentNode = true →
  Dom.kind_of d Node = Some nk → Dom.is_document nk = false →
  Dom.is_inclusive_ancestor (size d) d Node parentNode = false →
  (Dom.parent_of d SiblingNode ≠ Some parentNode →
   UpdateMirrorDocument.Add d Mirror (Some XPathParent) (Some Node) (Some XPathSibling)
   = Throw NotFoundError)
  ∧ (∀ pre post,
       Tree.wf d → Dom.parent_of d Node = None →
       Dom.children_of d parentNode = pre ++ SiblingNode :: post →
       ∃ d',
         UpdateMirrorDocument.Add d Mirror (Some XPathParent) (Some Node)
           (Some XPathSibling) = Ok d'
         ∧ Dom.children_of d' parentNode = pre ++ Node :: SiblingNode :: post
         ∧ Dom.parent_of d' Node = Some parentNode
         ∧ ∀ n, n ≠ parentNode → n ≠ Node → d' !! n = d !! n).
Proof.
  intros Hp Hs HP HS Hel Hk Hdoc Hanc.
  assert (∃ pk, Dom.kind_of d parentNode = Some pk
                ∧ Dom.can_have_children pk = true ∧ Dom.is_document pk = false)
    as (pk & Hpk & Hcan & Hpdoc).
  { unfold Dom.is_element, Dom.nodeType in Hel.
    destruct (Dom.kind_of d parentNode) as [[]|]; try done. eauto. }
  unfold UpdateMirrorDocument.Add.
  rewrite !decide_False by done. rewrite HP. simpl. rewrite HS. simpl.
  unfold Dom.insertBefore. rewrite Hpk, Hk, Hcan, Hanc, Hdoc, Hpdoc. simpl.
  split.
  - intros Hpar. rewrite bool_decide_eq_true_2; [done|]. split; [done|]. simpl. done.
  - intros pre post Hwf Hdet Hch.
    assert (SiblingNode ∈ Dom.children_of d parentNode) as Hin.
    { rewrite Hch. apply elem_of_app. right. by left. }
    assert (Dom.parent_of d SiblingNode = Some parentNode) as Hsp
      by (by apply wf_child_parent).
    rewrite bool_decide_eq_false_2; [|intros [_ ?]; done].
    assert (SiblingNode ≠ Node) as Hne by congruence.
    rewrite decide_False by congruence.
    rewrite (detach_no_parent _ _ Hdet).
    eexists. split; [done|].
    assert (is_Some (d !! parentNode)) as Hpin by (apply kind_of_is_Some; eauto).
    assert (is_Some (d !! Node)) as Hnin by (apply kind_of_is_Some; eauto).
    rewrite children_of_set_parent, children_of_set_children, parent_of_set_parent.
    rewrite decide_True by done.
    rewrite decide_True.
    2:{ split; [done|]. unfold Dom.set_children.
        apply lookup_alter_is_Some. done. }
    rewrite Hch. rewrite insert_before_Some.
    2:{ pose proof (wf_NoDup d parentNode Hwf) as HND. rewrite Hch in HND.
        apply NoDup_app in HND as (_ & Hdisj & _).
        intros Hpre. apply (Hdisj _ Hpre). by left. }
    repeat split. intros n Hn1 Hn2.
    unfold Dom.set_parent, Dom.set_children. by rewrite !lookup_alter_ne.
Qed.

Lemma Add_before_resolved_sibling_witness :
  ∃ d',
    UpdateMirrorDocument.Add Example.page_with_spare (Some 10) (Some "//body") (Some 20)
      (Some "//body/p[1]") = Ok d'
    ∧ Dom.children_of d' 12 = [] ++ 20 :: 13 :: []
    ∧ Dom.parent_of d' 20 = Some 12
    ∧ ∀ n, n ≠ 12 → n ≠ 20 → d' !! n = Example.page_with_spare !! n.
Proof.
  apply (Add_before_resolved_sibling Example.page_with_spare (Some 10)
           "//body" "//body/p[1]" 12 13 20 (Element "P" "" "")).
  - discriminate.
  - discriminate.
  - vm_compute. reflexivity.
  - vm_compute. reflexivity.
  - vm_compute. reflexivity.
  - vm_compute. reflexivity.
  - reflexivity.
  - vm_compute. reflexivity.
  - apply wf_by_computation. vm_compute. reflexivity.
  - vm_compute. reflexivity.
  - vm_compute. reflexivity.
Defined.

(** ** What the replay leaves alone *)

Lemma descendants_elem f d doc n :
  n ∈ Dom.descendants (S f) d doc
  ↔ n = doc ∨ ∃ c, c ∈ Dom.children_of d doc ∧ n ∈ Dom.descendants f d c.
Proof.
  simpl. rewrite elem_of_cons, list_elem_of_In, in_flat_map.
  setoid_rewrite <- list_elem_of_In. done.
Qed.

Lemma descendants_mono f : ∀ f' d doc n,
  f ≤ f' → n ∈ Dom.descendants f d doc → n ∈ Dom.descendants f' d doc.
Proof.
  induction f as [|f IH]; intros f' d doc n Hle; [by intros ?%elem_of_nil|].
  destruct f' as [|f']; [lia|].
  rewrite !descendants_elem. intros [->|(c & Hc & Hn)]; [by left|].
  right. exists c. split; [done|]. apply (IH f'); [lia|done].
Qed.

Lemma descendants_child f : ∀ d doc n c,
  n ∈ Dom.descendants f d doc → c ∈ Dom.children_of d n →
  c ∈ Dom.descendants (S f) d doc.
Proof.
  induction f as [|f IH]; intros d doc n c; [by intros ?%elem_of_nil|].
  rewrite (descendants_elem f). intros [->|(x & Hx & Hn)] Hc.
  - apply descendants_elem. right. exists c. split; [done|].
    apply descendants_elem. by left.
  - apply descendants_elem. right. exists x. split; [done|]. by eapply IH.
Qed.

(** In a well-formed heap a node of a tree is found as soon as the
    fuel exceeds the difference of its depth and the depth of the
    root. *)
Lemma descendants_depth d f : ∀ doc n kn kd,
  Tree.wf d →
  n ∈ Dom.descendants f d doc →
  Tree.depth (size d) d n = Some kn → Tree.depth (size d) d doc = Some kd →
  kd ≤ kn ∧ n ∈ Dom.descendants (S (kn - kd)) d doc.
Proof.
  induction f as [|f IH]; intros doc n kn kd Hwf; [by intros ?%elem_of_nil|].
  rewrite descendants_elem. intros [->|(c & Hc & Hn)] Hkn Hkd.
  - assert (kn = kd) as -> by congruence. split; [done|].
    apply descendants_elem. by left.
  - pose proof (wf_child_parent d doc c Hwf Hc) as Hpc.
    assert (Tree.rooted d c) as [kc Hkc].
    { apply wf_rooted; [done|]. by eapply parent_of_is_Some. }
    destruct (depth_step d c doc kc Hkc Hpc) as (k' & -> & Hk').
    assert (k' = kd) as -> by congruence.
    destruct (IH c n kn (S kd) Hwf Hn Hkn Hkc) as [Hle Hin].
    split; [lia|].
    replace (S (kn - kd)) with (S (S (kn - S kd))) by lia.
    apply descendants_elem. right. eauto.
Qed.

Lemma descendants_closed d doc n c :
  Tree.wf d →
  n ∈ Dom.descendants (size d) d doc → c ∈ Dom.children_of d n →
  c ∈ Dom.descendants (size d) d doc.
Proof.
  intros Hwf Hn Hc.
  pose proof (wf_child_parent d n c Hwf Hc) as Hpc.
  assert (is_Some (d !! n)) as Hnin by (by eapply children_of_in_heap).
  assert (Tree.rooted d c) as [kc Hkc].
  { apply wf_rooted; [done|]. by eapply parent_of_is_Some. }
  destruct (depth_step d c n kc Hkc Hpc) as (kn & -> & Hkn).
  destruct (decide (n = doc)) as [->|Hne].
  - destruct (size d) as [|f] eqn:Hsz; [by apply elem_of_nil in Hn|].
    destruct f as [|f]; [apply depth_lt in Hkc; lia|].
    apply descendants_elem. right. exists c. split; [done|].
    apply descendants_elem. by left.
  - assert (is_Some (d !! doc)) as Hdoc.
    { destruct (size d) as [|f] eqn:Hsz; [by apply elem_of_nil in Hn|].
      apply descendants_elem in Hn as [?|(x & Hx & _)]; [done|].
      by eapply children_of_in_heap. }
    destruct (wf_rooted d doc Hwf Hdoc) as [kd Hkd].
    destruct (descendants_depth d _ doc n kn kd Hwf Hn Hkn Hkd) as [Hle Hin].
    apply (descendants_mono (S (S (kn - kd)))).
    + apply depth_lt in Hkc. lia.
    + by eapply descendants_child.
Qed.

Lemma getNodeFromXPath_in_document d Mirror XPath n :
  getNodeFromXPath d Mirror XPath = Ok (Some n) →
  ∃ doc, Mirror = Some doc ∧ n ∈ Dom.descendants (size d) d doc.
Proof.
  destruct Mirror as [doc|]; [|done]. simpl. unfold XPath.evaluate.
  destruct (XPath.parse XPath) as [e|]; [|done].
  intros [= H]. exists doc. split; [done|].
  unfold XPath.first_ordered in H.
  apply head_Some_elem_of, list_elem_of_In, filter_In in H as [H _].
  by apply list_elem_of_In.
Qed.

Lemma lookup_foldr_detach_ne l d m :
  (∀ c, c ∈ l → m ≠ c ∧ Dom.parent_of d c ≠ Some m) →
  foldr Dom.detach d l !! m = d !! m.
Proof.
  induction l as [|x l IH]; cbn [foldr]; intros Hl; [done|].
  destruct (Hl x) as [Hx Hp]; [by left|].
  rewrite lookup_detach_ne; [|done|].
  - apply IH. intros c Hc. apply Hl. by right.
  - rewrite parent_of_foldr_detach. by destruct (decide _).
Qed.

Lemma set_textContent_frame d n s m :
  m ≠ n → is_Some (d !! m) →
  (∀ c, c ∈ Dom.children_of d n → m ≠ c ∧ Dom.parent_of d c ≠ Some m) →
  Dom.set_textContent d n s !! m = d !! m.
Proof.
  intros Hne Hm Hch. unfold Dom.set_textContent.
  destruct (Dom.kind_of d n) as [[t i c|old|old|]|]; try done.
  - pose proof (lookup_foldr_detach_ne _ d m Hch) as Hd1.
    destruct (decide (s = "")); [done|].
    unfold Dom.set_children. rewrite lookup_alter_ne by done.
    rewrite lookup_insert_ne; [done|].
    intros E. unfold nid in *. rewrite <- E in Hd1, Hm.
    rewrite fresh_id_fresh in Hd1. rewrite <- Hd1 in Hm. by destruct Hm.
  - unfold Dom.set_kind. by rewrite lookup_alter_ne.
  - unfold Dom.set_kind. by rewrite lookup_alter_ne.
Qed.

(** X12: the replay of an operation changes the mirror document only.
    A node that is not in the tree of the mirror document, and is neither
    the node that an [ADD] brings nor the parent of that node, is left as
    it is: its kind, its parent and its children. *)
Theorem replay_leaves_the_rest (Mirror : option nid) (d d' : DOM)
  (operation : TOperationLog) :
  Tree.wf d →
  apply_operation Mirror d operation = Ok d' →
  ∀ n, is_Some (d !! n) →
    (∀ doc, Mirror = Some doc → n ∉ Dom.descendants (size d) d doc) →
    (∀ added, Operation.node operation = NodeObject added →
       n ≠ added ∧ Dom.parent_of d added ≠ Some n) →
    d' !! n = d !! n.
Proof.
  intros Hwf Hop n Hn Hout Hadd.
  assert (∀ XPath x, getNodeFromXPath d Mirror XPath = Ok (Some x) →
            n ≠ x ∧ ∀ c, c ∈ Dom.children_of d x → n ≠ c ∧ Dom.parent_of d c ≠ Some n)
    as Hres.
  { intros XPath x (doc & -> & Hx)%getNodeFromXPath_in_document.
    specialize (Hout doc eq_refl).
    split; [by intros ->|]. intros c Hc. split.
    - intros ->. apply Hout. by eapply descendants_closed.
    - rewrite (wf_child_parent d x c Hwf Hc). intros [= ->]. done. }
  revert Hop. unfold apply_operation.
  destruct (Operation.type operation), (Operation.node operation) as [s|c];
    try done.
  - (* TEXT *)
    unfold UpdateMirrorDocument.Text.
    destruct (decide (s = "")); [by intros [= <-]|].
    destruct (getNodeFromXPath d Mirror s) as [[x|]|] eqn:Hx; simpl;
      [|by intros [= <-]|done].
    intros [= <-]. destruct (Hres _ _ Hx) as [Hne Hch].
    by apply set_textContent_frame.
  - (* ADD, with an address in the place of the node *)
    destruct (decide (s = "")).
    + unfold UpdateMirrorDocument.Add.
      destruct (Operation.parentNode operation); by intros [= <-].
    + destruct (Operation.parentNode operation) as [XPathParent|]; [|by intros [= <-]].
      destruct (decide (XPathParent = "")); [by intros [= <-]|].
      destruct (getNodeFromXPath d Mirror XPathParent) as [[x|]|]; simpl;
        [done|by intros [= <-]|done].
  - (* ADD *)
    destruct (Hadd c eq_refl) as [Hnc Hpc].
    unfold UpdateMirrorDocument.Add.
    destruct (Operation.parentNode operation) as [XPathParent|]; [|by intros [= <-]].
    destruct (decide (XPathParent = "")); [by intros [= <-]|].
    destruct (getNodeFromXPath d Mirror XPathParent) as [[x|]|] eqn:Hx; simpl;
      [|by intros [= <-]|done].
    destruct (Hres _ _ Hx) as [Hne _].
    destruct (match Operation.siblingNode operation with
              | Some XPathSibling => _ | None => _ end) as [sib|]; [|done].
    simpl. intros [-> _]%insertBefore_Ok.
    unfold Dom.set_parent, Dom.set_children. rewrite !lookup_alter_ne by done.
    by apply lookup_detach_ne.
  - (* REMOVE *)
    unfold UpdateMirrorDocument.Remove.
    destruct (Operation.parentNode operation) as [XPathParent|]; [|by intros [= <-]].
    destruct (decide (XPathParent = "")); [by intros [= <-]|].
    destruct (decide (s = "")); [by intros [= <-]|].
    destruct (getNodeFromXPath d Mirror XPathParent) as [[x|]|] eqn:Hx; simpl;
      [|by intros [= <-]|done].
    destruct (getNodeFromXPath d Mirror s) as [[y|]|] eqn:Hy; simpl;
      [|by intros [= <-]|done].
    unfold Dom.removeChild. destruct (decide _) as [Hpar|]; [|done].
    intros [= <-]. destruct (Hres _ _ Hx) as [Hnx _]. destruct (Hres _ _ Hy) as [Hny _].
    apply lookup_detach_ne; [done|]. rewrite Hpar. congruence.
Qed.

Lemma replay_leaves_the_rest_witness :
  let operation := Operation.mk TEXT (Address "//body/p[1]") (Some "Bye") None None in
  flushed_or Example.page (apply_operation (Some 10) Example.page operation) !! 4
  = Example.page !! 4.
Proof.
  intros operation.
  apply (replay_leaves_the_rest (Some 10) Example.page _ operation).
  - apply wf_by_computation. vm_compute. reflexivity.
  - vm_compute. reflexivity.
  - vm_compute. eauto.
  - intros doc [= <-]. rewrite list_elem_of_In. vm_compute. intuition discriminate.
  - intros added [=].
Defined.

(** ** What the compilation keeps *)

Lemma compile_record_heap W r d logs d' logs' :
  compile_record W r d logs = Ok (d', logs') →
  ∀ n, is_Some (d !! n) → is_Some (d' !! n) ∧ Dom.kind_of d' n = Dom.kind_of d n.
Proof.
  unfold compile_record.
  destruct (compile_removed _ _ _ _ _) as [[d1 logs1]|] eqn:Hr; [|done]. simpl.
  intros Ha n Hn.
  destruct (compile_removed_heap _ _ _ _ _ _ _ Hr n) as [Hin1 Hk1].
  destruct (compile_added_heap _ _ _ _ _ _ _ Ha n) as (Hin2 & Hk2 & _); [by apply Hin1|].
  split; [done|congruence].
Qed.

Lemma compile_records_heap W l : ∀ d logs d' logs',
  compile_records W l d logs = Ok (d', logs') →
  ∀ n, is_Some (d !! n) → is_Some (d' !! n) ∧ Dom.kind_of d' n = Dom.kind_of d n.
Proof.
  induction l as [|r l IH]; intros d logs d' logs'; simpl.
  - by intros [= <- <-].
  - destruct (compile_record W r d logs) as [[d1 logs1]|] eqn:Hr; [|done]. simpl.
    intros Hl n Hn.
    destruct (compile_record_heap _ _ _ _ _ _ Hr n Hn) as [Hin1 Hk1].
    destruct (IH _ _ _ _ Hl n Hin1) as [Hin2 Hk2].
    split; [done|congruence].
Qed.

(** X13: the compilation relinks nodes and does nothing else to
    them.  Whatever the queue holds, no node of the heap is lost and no
    node changes its kind: the name, the id and the class of an element
    and the text of a text node are after the rollback what they were
    before it. *)
Theorem compile_keeps_the_nodes (W : option nid) (queue queue' : list MutationRecord)
  (d d' : DOM) (logs : list TOperationLog) :
  compile W queue d = Ok (queue', d', logs) →
  ∀ n, is_Some (d !! n) →
    is_Some (d' !! n)
    ∧ Dom.kind_of d' n = Dom.kind_of d n
    ∧ ∀ s, Dom.kind_of d n = Some (Text s) → Dom.textContent d' n = Some s.
Proof.
  rewrite compile_as_records.
  destruct (compile_records W (rev queue) d []) as [[d1 logs1]|] eqn:Hr; [|done].
  simpl. intros [= <- <- <-] n Hn.
  destruct (compile_records_heap _ _ _ _ _ _ Hr n Hn) as [Hin Hk].
  repeat split; [done..|].
  intros s Hs. unfold Dom.textContent. by rewrite Hk, Hs.
Qed.

Lemma compile_keeps_the_nodes_witness :
  let d := Dom.set_kind 21 (Text "Hi") Example.page_replaced in
  let queue := [Example.replaced; Example.typed_in 21 "World"] in
  is_Some ((compiled (Some 3) queue d).1 !! 21)
  ∧ Dom.kind_of (compiled (Some 3) queue d).1 21 = Dom.kind_of d 21
  ∧ ∀ s, Dom.kind_of d 21 = Some (Text s)
         → Dom.textContent (compiled (Some 3) queue d).1 21 = Some s.
Proof.
  intros d queue.
  apply (compile_keeps_the_nodes (Some 3) queue [] d _ (compiled (Some 3) queue d).2).
  - vm_compute. reflexivity.
  - vm_compute. eauto.
Defined.

(** ** The mirror document follows the typing *)

Lemma nth_match_alike (test : nid → bool) L L' : 
  Forall2 (λ x y, test x = test y) L L' → ∀ i n n',
  NoDup L → L !! i = Some n → L' !! i = Some n' → test n = true →
  XPath.nth_match test (S (length (List.filter test (Dom.before n L)))) L' = Some n'.
Proof.
  unfold XPath.nth_match.
  induction 1 as [|x y l l' Hxy Hall IH]; intros i n n' HND Hn Hn' Ht; [done|].
  apply NoDup_cons in HND as [Hx HND].
  destruct i as [|i]; simpl in Hn, Hn'.
  - injection Hn as ->. injection Hn' as ->. simpl.
    rewrite decide_True by done. simpl. by rewrite <- Hxy, Ht.
  - assert (x ≠ n) as Hne.
    { intros ->. apply Hx. by eapply list_elem_of_lookup_2. }
    simpl. rewrite decide_False by done. simpl. rewrite <- Hxy.
    destruct (test x); simpl; by apply (IH i).
Qed.

Lemma counterpart_selects d mirror w body n n' :
  Tree.wf d →
  List.filter (XPath.named d "body") (Dom.descendants (size d) d mirror) = [body] →
  Mirror.counterpart d mirror w body n n' → Tree.rooted d n →
  ∃ e, getXPathFromNode d (Some w) n = XPath.render e
       ∧ Stable.well_formed e
       ∧ XPath.eval d mirror e = [n'].
Proof.
  intros Hwf Hbody. induction 1 as
    [n n' i Hi Hne Hq Hu|Hid
    |n p n' p' i Hid Hw Ht Hp Hn Hn' Hal _ IH
    |n p n' p' i Hid Hw He Hv Hp Hn Hn' Hal Hh _ IH];
    intros Hroot;
    destruct (getXPathFromNode_cases d w _ Hroot) as (R1 & R2 & R3 & R4 & R5).
  - exists (XPath.mkExpr (XPath.AnyWithId i) []). split; [|split].
    + rewrite (R1 i Hi Hne). unfold XPath.render. simpl.
      by rewrite append_nil_r.
    + by split.
    + exact Hu.
  - exists (XPath.mkExpr XPath.AnyBody []). split; [|split].
    + by rewrite (R3 Hid).
    + by split.
    + exact Hbody.
  - destruct (IH (rooted_parent _ _ _ Hroot Hp)) as ([b sts] & Hs & [Hb Hsts] & Hev).
    set (k := 1 + length (List.filter (Dom.is_text d)
                            (Dom.before n (Dom.children_of d p)))).
    exists (XPath.mkExpr b (sts ++ [XPath.ChildText k])). split; [|split].
    + rewrite (R4 p Hid Hw Ht Hp), Hs, render_snoc. done.
    + split; [done|]. apply Forall_app. split; [done|]. by constructor.
    + rewrite eval_snoc, Hev, eval_step_text. subst k. cbn [Nat.add].
      rewrite (nth_match_alike (Dom.is_text d) _ _ ltac:(eapply Forall2_impl; [exact Hal|];
                 by intros ? ? [? _]) i n n'); [done|by apply wf_NoDup|done..].
  - destruct (IH (rooted_parent _ _ _ Hroot Hp)) as ([b sts] & Hs & [Hb Hsts] & Hev).
    set (k := 1 + length (List.filter (same_name d n)
                            (Dom.before n (Dom.children_of d p)))).
    exists (XPath.mkExpr b (sts ++ [XPath.ChildElement (lower_name d n) k])).
    assert (Dom.is_text d n = false) as Ht.
    { unfold Dom.is_text, Dom.is_element in *.
      apply bool_decide_eq_true in He. rewrite He. done. }
    assert (n ∈ Dom.children_of d p) as Hin by (by eapply list_elem_of_lookup_2).
    assert (Stable.html_tag d n = true) as Hhn.
    { by apply (proj1 (Forall_forall _ _) Hh). }
    split; [|split].
    + rewrite (R5 p Hid Hw Ht Hp Hin), Hs, render_snoc. done.
    + split; [done|]. apply Forall_app. split; [done|]. by constructor.
    + rewrite eval_snoc, Hev, eval_step_element. subst k. cbn [Nat.add].
      rewrite <- (filter_ext_elem (XPath.named d (lower_name d n))).
      * rewrite (nth_match_alike (XPath.named d (lower_name d n)) _ _
                   ltac:(eapply Forall2_impl; [exact Hal|];
                         intros x y [_ Hxy]; unfold XPath.named; by rewrite Hxy) i n n');
          [done|by apply wf_NoDup|done|done|].
        rewrite named_same_name by done. unfold same_name.
        by rewrite He, bool_decide_eq_true_2.
      * intros x Hx. apply named_same_name; [done|done|done|].
        apply (proj1 (Forall_forall _ _) Hh). by eapply before_subseteq.
Qed.

Lemma counterpart_in_mirror d mirror w body n n' :
  Tree.wf d → body ∈ Dom.descendants (size d) d mirror →
  Mirror.counterpart d mirror w body n n' →
  n' ∈ Dom.descendants (size d) d mirror.
Proof.
  intros Hwf Hbody. induction 1 as
    [n n' i Hi Hne Hq Hu|Hid
    |n p n' p' i Hid Hw Ht Hp Hn Hn' Hal _ IH
    |n p n' p' i Hid Hw He Hv Hp Hn Hn' Hal Hh _ IH].
  - assert (n' ∈ List.filter (XPath.has_id d i) (Dom.descendants (size d) d mirror)) as Hin
      by (rewrite Hu; by left).
    apply list_elem_of_In, filter_In in Hin as [Hin _]. by apply list_elem_of_In.
  - done.
  - eapply descendants_closed; [done|exact IH|]. by eapply list_elem_of_lookup_2.
  - eapply descendants_closed; [done|exact IH|]. by eapply list_elem_of_lookup_2.
Qed.

Lemma render_well_formed_not_empty e : Stable.well_formed e → XPath.render e ≠ "".
Proof.
  destruct e as [[| |i] sts]; intros [Hb _]; [done| |]; unfold XPath.render; simpl.
  - by rewrite append_cons.
  - unfold XPath.id_prefix. by rewrite !append_cons.
Qed.

(** The address of a node that has a counterpart selects this
    counterpart in the mirror document. *)
Lemma counterpart_resolved d mirror w body n n' :
  Tree.wf d →
  List.filter (XPath.named d "body") (Dom.descendants (size d) d mirror) = [body] →
  Mirror.counterpart d mirror w body n n' → is_Some (d !! n) →
  getXPathFromNode d (Some w) n ≠ ""
  ∧ getNodeFromXPath d (Some mirror) (getXPathFromNode d (Some w) n) = Ok (Some n').
Proof.
  intros Hwf Hbody Hc Hn.
  destruct (counterpart_selects d mirror w body n n' Hwf Hbody Hc (wf_rooted d n Hwf Hn))
    as (e & -> & Hwfe & Hev).
  split; [by apply render_well_formed_not_empty|].
  unfold getNodeFromXPath, XPath.evaluate.
  rewrite (parse_render e Hwfe), Hev.
  rewrite first_ordered_singleton; [done|].
  eapply counterpart_in_mirror; [done| |exact Hc].
  assert (body ∈ List.filter (XPath.named d "body") (Dom.descendants (size d) d mirror))
    as Hin by (rewrite Hbody; by left).
  apply list_elem_of_In, filter_In in Hin as [Hin _]. by apply list_elem_of_In.
Qed.

(** C3: the address of a node, resolved in a document that has one
    [body] element, as the mirror document in which the hook resolves
    every address, selects the counterpart of the node in that document:
    the one element with the id of the node; the body for the watched
    element; below two such nodes, the child at the same place.  The node
    that is selected is the node the address was computed from where the
    node is its own counterpart, as a node below an element with an id
    is in its own document. *)
Theorem address_selects_counterpart (d : DOM) (mirror w body node node' : nid) :
  Tree.wf d →
  List.filter (XPath.named d "body") (Dom.descendants (size d) d mirror) = [body] →
  Mirror.counterpart d mirror w body node node' → is_Some (d !! node) →
  getNodeFromXPath d (Some mirror) (getXPathFromNode d (Some w) node) = Ok (Some node').
Proof.
  intros Hwf Hbody Hc Hn.
  by destruct (counterpart_resolved d mirror w body node node' Hwf Hbody Hc Hn).
Qed.

Lemma address_selects_counterpart_witness :
  getNodeFromXPath Example.page (Some 10) (getXPathFromNode Example.page (Some 3) 5)
  = Ok (Some 14)
  ∧ getNodeFromXPath Heading.page (Some 0) (getXPathFromNode Heading.page (Some 3) 7)
    = Ok (Some 7).
Proof.
  split.
  - apply (address_selects_counterpart Example.page 10 3 12 5 14).
    + apply wf_by_computation. vm_compute. reflexivity.
    + vm_compute. reflexivity.
    + apply (Mirror.of_text _ _ _ _ 5 4 14 13 0); try (vm_compute; reflexivity).
      * repeat constructor.
      * apply (Mirror.of_element _ _ _ _ 4 3 13 12 0); try (vm_compute; reflexivity).
        -- repeat constructor.
        -- repeat constructor.
        -- apply Mirror.of_watched. vm_compute. reflexivity.
    + vm_compute. eauto.
  - apply (address_selects_counterpart Heading.page 0 3 2 7 7).
    + apply wf_by_computation. vm_compute. reflexivity.
    + vm_compute. reflexivity.
    + apply (Mirror.of_text _ _ _ _ 7 6 7 6 0); try (vm_compute; reflexivity).
      * repeat constructor.
      * apply (Mirror.of_id _ _ _ _ 6 6 "k"); try (vm_compute; reflexivity). done.
    + vm_compute. eauto.
Defined.

Lemma counterpart_of_text d mirror w body t t' :
  Dom.is_element d w = true → Dom.is_text d t = true →
  Mirror.counterpart d mirror w body t t' →
  Dom.is_text d t' = true.
Proof.
  intros Hw Ht Hc.
  destruct Hc as [n n' i Hi Hne Hq Hu|Hid
    |n p n' p' i Hid Hlw Htn Hp Hn Hn' Hal _
    |n p n' p' i Hid Hlw He Hv Hp Hn Hn' Hal Hh _].
  - unfold Dom.is_text, Dom.nodeType, Dom.id in *.
    by destruct (Dom.kind_of d n) as [[]|].
  - unfold Dom.is_text, Dom.is_element in *.
    apply bool_decide_eq_true in Hw, Ht. congruence.
  - destruct (Forall2_lookup_lr _ _ _ _ _ _ Hal Hn Hn') as [<- _]. done.
  - unfold Dom.is_text, Dom.is_element in *.
    apply bool_decide_eq_true in He, Ht. congruence.
Qed.

(** X14: the mirror document follows the typing.  When the queue
    holds one change of the text of a text node, and this node has a
    counterpart in the mirror document (the child at the same place of a
    child list that is alike, below the body for the watched element, or
    below the element of the same id), the flush returns, the counterpart
    has the text the live node has, and no other node of the heap
    changes. *)
Theorem typing_is_mirrored (h : Hook) (w mirror body t t' : nid) (r : MutationRecord) :
  WatchElementRef h = Some w → MirrorDocumentRef h = Some mirror →
  MutationQueue (DaemonState h) ++ records (Observer (DaemonState h)) = [r] →
  text_edit t r →
  Tree.wf (heap h) →
  Dom.is_element (heap h) w = true → Dom.is_text (heap h) t = true →
  List.filter (XPath.named (heap h) "body")
    (Dom.descendants (size (heap h)) (heap h) mirror) = [body] →
  Mirror.counterpart (heap h) mirror w body t t' →
  ∃ h',
    FlushQueue h = Ok h'
    ∧ Dom.textContent (heap h') t' = Dom.textContent (heap h) t
    ∧ ∀ n, n ≠ t' → heap h' !! n = heap h !! n.
Proof.
  destruct h as [d W M [[o rs] q] c]. simpl.
  intros -> -> Hq Hedit Hwf Hw Ht Hbody Hc.
  assert (is_Some (d !! t)) as Hin.
  { unfold Dom.is_text, Dom.nodeType in Ht. apply kind_of_is_Some.
    destruct (Dom.kind_of d t); [eauto|done]. }
  destruct (counterpart_resolved d mirror w body t t' Hwf Hbody Hc Hin) as [Hne Hres].
  pose proof (counterpart_of_text d mirror w body t t' Hw Ht Hc) as Ht'.
  assert (∃ s, Dom.kind_of d t = Some (Text s)) as [s Hs].
  { unfold Dom.is_text, Dom.nodeType in Ht.
    destruct (Dom.kind_of d t) as [[]|]; try done. eauto. }
  assert (∃ s', Dom.kind_of d t' = Some (Text s')) as [s' Hs'].
  { unfold Dom.is_text, Dom.nodeType in Ht'.
    destruct (Dom.kind_of d t') as [[]|]; try done. eauto. }
  unfold FlushQueue. simpl. rewrite Hq. simpl.
  unfold compile. simpl.
  rewrite (compile_record_text_edit (Some w) d t r [] Hedit). simpl.
  unfold SyncToMirror. simpl.
  unfold apply_operation, text_operation. simpl.
  unfold UpdateMirrorDocument.Text. rewrite decide_False by done.
  rewrite Hres. simpl.
  eexists. split; [reflexivity|]. simpl.
  unfold Dom.set_textContent. rewrite Hs'.
  unfold Dom.textContent at 2 3. rewrite Hs. simpl. split.
  - unfold Dom.textContent. rewrite kind_of_set_kind, decide_True; [done|].
    split; [done|]. apply kind_of_is_Some. eauto.
  - intros n Hn. unfold Dom.set_kind. by rewrite lookup_alter_ne.
Qed.

Lemma typing_is_mirrored_witness :
  let h := Example.undelivered (Dom.set_kind 5 (Text "HelloX") Example.page)
             (Example.typed "Hello") in
  ∃ h',
    FlushQueue h = Ok h'
    ∧ Dom.textContent (heap h') 14 = Dom.textContent (heap h) 5
    ∧ ∀ n, n ≠ 14 → heap h' !! n = heap h !! n.
Proof.
  intros h.
  apply (typing_is_mirrored h 3 10 12 5 14 (Example.typed "Hello")).
  - reflexivity.
  - reflexivity.
  - reflexivity.
  - repeat split. simpl. eauto.
  - apply wf_by_computation. vm_compute. reflexivity.
  - vm_compute. reflexivity.
  - vm_compute. reflexivity.
  - vm_compute. reflexivity.
  - apply (Mirror.of_text _ _ _ _ 5 4 14 13 0); try (vm_compute; reflexivity).
    + repeat constructor.
    + apply (Mirror.of_element _ _ _ _ 4 3 13 12 0); try (vm_compute; reflexivity).
      * repeat constructor.
      * repeat constructor.
      * apply Mirror.of_watched. vm_compute. reflexivity.
Defined.

(** ** The mirror document follows a deletion *)

Lemma same_views_same_entry (d1 d2 : DOM) n :
  is_Some (d1 !! n) → is_Some (d2 !! n) →
  Dom.parent_of d1 n = Dom.parent_of d2 n →
  Dom.children_of d1 n = Dom.children_of d2 n →
  Dom.kind_of d1 n = Dom.kind_of d2 n →
  d1 !! n = d2 !! n.
Proof.
  unfold Dom.parent_of, Dom.children_of, Dom.kind_of.
  intros [[k1 p1 c1] ->] [[k2 p2 c2] ->]. simpl. by intros -> -> [= ->].
Qed.

(** The record of the deletion of one node, compiled on the heap that
    the deletion left, gives back the heap of before the deletion, and
    one [REMOVE] with the addresses that the node and its parent have
    there. *)
Lemma compile_record_deletion W d0 r d1 x :
  Tree.wf d0 → Tree.wf d1 → Browser.step d0 r d1 →
  Mutation.removedNodes r = [x] → Mutation.addedNodes r = [] →
  compile_record W r d1 []
  = Ok (d0, [Operation.mk REMOVE (Address (getXPathFromNode d0 W x)) None
               (Some (getXPathFromNode d0 W (Mutation.target r))) None]).
Proof.
  intros Hwf0 Hwf1 Hstep Hrem Hadd.
  destruct (compile_record_undoes W d0 r d1 d1 [] Hwf0 Hwf1 Hstep)
    as (dc & logs & Hc & Hsame & Hkinds).
  { rewrite Hrem. simpl. lia. }
  { apply same_structure_refl. }
  assert (Mutation.oldValue r = None
          ∧ ∀ n, Dom.kind_of d1 n = Dom.kind_of d0 n) as [Hold Hk01].
  { destruct Hstep as [pre post Hty Hold Hel Hch Hprev Hnext HND HA|
                       old new Hty Hold Ha Hr Hk]; [|congruence].
    split; [done|]. intros n. apply kind_of_relink. }
  revert Hc. unfold compile_record, compile_text. rewrite Hold, Hrem, Hadd. simpl.
  destruct (Dom.insertBefore d1 (Mutation.target r) x (Mutation.nextSibling r))
    as [d2|] eqn:Hins; [|done].
  simpl. intros [= <- <-].
  assert (d2 = d0) as ->; [|done].
  apply map_eq. intros n.
  destruct (insertBefore_heap _ _ _ _ _ n Hins) as [Hdom Hk2].
  destruct (d0 !! n) as [nd|] eqn:Hn.
  - rewrite <- Hn.
    destruct (Hsame n) as (Hin & Hp & Hch & _); [eauto|].
    apply same_views_same_entry; [done|eauto|done|done|].
    rewrite Hk2. apply Hk01.
  - destruct (d2 !! n) eqn:Hn2; [|done]. exfalso.
    assert (is_Some (d1 !! n)) as Hn1 by (apply Hdom; eauto).
    apply (step_in_heap _ _ _ n Hstep) in Hn1. no_entry.
Qed.

(** X15: the mirror document follows a deletion.  When the queue
    holds the record of the deletion of one node, and the node and its
    parent have counterparts in the mirror document, parent and child of
    each other, the flush returns and leaves the heap of before the
    deletion with the counterpart taken out of the mirror document: the
    live tree is as it was, and nothing else has changed. *)
Theorem deletion_is_mirrored (h : Hook) (d0 : DOM) (w mirror body x x' p' : nid)
  (r : MutationRecord) :
  WatchElementRef h = Some w → MirrorDocumentRef h = Some mirror →
  MutationQueue (DaemonState h) ++ records (Observer (DaemonState h)) = [r] →
  Tree.wf d0 → Tree.wf (heap h) → Browser.step d0 r (heap h) →
  Mutation.removedNodes r = [x] → Mutation.addedNodes r = [] →
  List.filter (XPath.named d0 "body") (Dom.descendants (size d0) d0 mirror) = [body] →
  Mirror.counterpart d0 mirror w body x x' →
  Mirror.counterpart d0 mirror w body (Mutation.target r) p' →
  Dom.parent_of d0 x' = Some p' →
  ∃ h', FlushQueue h = Ok h' ∧ heap h' = Dom.detach x' d0.
Proof.
  destruct h as [d1 W M [[o rs] q] c]. simpl.
  intros -> -> Hq Hwf0 Hwf1 Hstep Hrem Hadd Hbody Hx Hp Hpar.
  assert (x ∈ Dom.children_of d0 (Mutation.target r)) as Hxin.
  { destruct Hstep as [pre post Hty Hold Hel Hch Hprev Hnext HND HA|
                       old new Hty Hold Ha Hr Hk]; [|congruence].
    rewrite Hch, Hrem. apply elem_of_app. right. by left. }
  assert (is_Some (d0 !! x)) as Hxh.
  { eapply parent_of_is_Some. by apply wf_child_parent. }
  assert (is_Some (d0 !! Mutation.target r)) as Hph by (by eapply children_of_in_heap).
  destruct (counterpart_resolved d0 mirror w body x x' Hwf0 Hbody Hx Hxh) as [Hnx Hrx].
  destruct (counterpart_resolved d0 mirror w body _ p' Hwf0 Hbody Hp Hph) as [Hnp Hrp].
  unfold FlushQueue. simpl. rewrite Hq. simpl.
  unfold compile. simpl.
  rewrite (compile_record_deletion (Some w) d0 r d1 x Hwf0 Hwf1 Hstep Hrem Hadd). simpl.
  unfold SyncToMirror. simpl. unfold apply_operation. simpl.
  unfold UpdateMirrorDocument.Remove. rewrite !decide_False by done.
  simpl in Hrp, Hrx. rewrite Hrp. simpl. rewrite Hrx. simpl.
  unfold Dom.removeChild. rewrite decide_True by done. simpl.
  eexists. split; reflexivity.
Qed.

Lemma deletion_is_mirrored_witness :
  let h := Example.undelivered Example.page_ab_deleted Example.deleted in
  ∃ h', FlushQueue h = Ok h' ∧ heap h' = Dom.detach 15 Example.page_ab.
Proof.
  intros h.
  apply (deletion_is_mirrored h Example.page_ab 3 10 12 6 15 12 Example.deleted).
  - reflexivity.
  - reflexivity.
  - reflexivity.
  - apply wf_by_computation. vm_compute. reflexivity.
  - apply wf_by_computation. vm_compute. reflexivity.
  - apply (Browser.childList_step _ Example.deleted [4] []);
      try (vm_compute; reflexivity); constructor.
  - reflexivity.
  - reflexivity.
  - vm_compute. reflexivity.
  - apply (Mirror.of_element _ _ _ _ 6 3 15 12 1); try (vm_compute; reflexivity).
    + repeat constructor.
    + repeat constructor.
    + apply Mirror.of_watched. vm_compute. reflexivity.
  - apply Mirror.of_watched. vm_compute. reflexivity.
  - vm_compute. reflexivity.
Defined.

(** ** New nodes beside a well-formed heap *)

Section extension.

(** [d2] has the nodes of the well-formed heap [d0], as they are in
    [d0], and others: addresses are written and resolved in [d2] as they
    are in [d0]. *)
Variables d0 d2 : DOM.
Hypothesis Hwf : Tree.wf d0.
Hypothesis Hext : ∀ n, is_Some (d0 !! n) → d2 !! n = d0 !! n.

Lemma ext_views n :
  is_Some (d0 !! n) →
  Dom.parent_of d2 n = Dom.parent_of d0 n
  ∧ Dom.children_of d2 n = Dom.children_of d0 n
  ∧ Dom.kind_of d2 n = Dom.kind_of d0 n.
Proof using All. intros Hn. by apply same_entry_views, Hext. Qed.

Lemma ext_tests n :
  is_Some (d0 !! n) →
  Dom.is_text d2 n = Dom.is_text d0 n
  ∧ Dom.is_element d2 n = Dom.is_element d0 n
  ∧ Dom.nodeName d2 n = Dom.nodeName d0 n
  ∧ Dom.tagName d2 n = Dom.tagName d0 n
  ∧ Dom.className d2 n = Dom.className d0 n
  ∧ Dom.id d2 n = Dom.id d0 n.
Proof using All.
  intros (_ & _ & Hk)%ext_views.
  unfold Dom.is_text, Dom.is_element, Dom.nodeType, Dom.nodeName, Dom.tagName,
    Dom.className, Dom.id. by rewrite Hk.
Qed.

Lemma ext_child_in_heap p c : c ∈ Dom.children_of d0 p → is_Some (d0 !! c).
Proof using All. intros Hc. eapply parent_of_is_Some. by apply wf_child_parent. Qed.

Lemma ext_count_text l :
  (∀ x, x ∈ l → is_Some (d0 !! x)) → count_text d2 l = count_text d0 l.
Proof using All.
  unfold count_text. generalize 1.
  induction l as [|x l IH]; intros k Hl; simpl; [done|].
  destruct (ext_tests x) as (-> & _); [apply Hl; by left|].
  apply IH. intros y Hy. apply Hl. by right.
Qed.

Lemma ext_count_same node l : ∀ k,
  is_Some (d0 !! node) → (∀ x, x ∈ l → is_Some (d0 !! x)) →
  count_same d2 node l k = count_same d0 node l k.
Proof using All.
  induction l as [|x l IH]; intros k Hn Hl; simpl; [done|].
  destruct (decide (x = node)); [done|].
  destruct (ext_tests x) as (_ & -> & -> & _); [apply Hl; by left|].
  destruct (ext_tests node Hn) as (_ & _ & -> & _).
  apply IH; [done|]. intros y Hy. apply Hl. by right.
Qed.

Lemma ext_getXPathFromNode_rec W : 
  (∀ w, W = Some w → is_Some (d0 !! w)) → ∀ fuel node,
  is_Some (d0 !! node) →
  getXPathFromNode_rec fuel d2 W node = getXPathFromNode_rec fuel d0 W node.
Proof using All.
  intros HW. induction fuel as [|fuel IH]; intros node Hn; [done|]. simpl.
  destruct W as [w|]; [|done].
  destruct (ext_views node Hn) as (Hp & _ & _).
  destruct (ext_tests node Hn) as (Ht & He & Hname & Htag & Hcls & Hid).
  destruct (ext_tests w (HW w eq_refl)) as (_ & _ & _ & Htagw & Hclsw & _).
  assert (has_id d2 node = has_id d0 node) as -> by (unfold has_id; by rewrite Hid).
  assert (looks_like d2 node w = looks_like d0 node w) as ->.
  { unfold looks_like. by rewrite Htag, Hcls, Htagw, Hclsw. }
  rewrite Ht, Hp.
  assert (lower_name d2 node = lower_name d0 node) as ->
    by (unfold lower_name; by rewrite Hname).
  destruct (has_id d0 node); [done|]. destruct (looks_like d0 node w); [done|].
  destruct (Dom.parent_of d0 node) as [p|] eqn:Hpar.
  - assert (is_Some (d0 !! p)) as Hpin by (by eapply wf_parent_in_heap).
    destruct (ext_views p Hpin) as (_ & Hcp & _).
    rewrite (IH p Hpin).
    assert (Dom.previousSiblings d2 node = Dom.previousSiblings d0 node) as ->.
    { unfold Dom.previousSiblings. by rewrite Hp, Hpar, Hcp. }
    rewrite ext_count_text.
    2:{ intros x Hx. unfold Dom.previousSiblings in Hx. rewrite Hpar in Hx.
        apply list_elem_of_In in Hx. apply <- in_rev in Hx.
        apply list_elem_of_In, before_subseteq in Hx. by eapply ext_child_in_heap. }
    rewrite Hcp, ext_count_same; [done|done|].
    intros x Hx. by eapply ext_child_in_heap.
  - assert (Dom.previousSiblings d2 node = []) as ->.
    { unfold Dom.previousSiblings. by rewrite Hp. }
    assert (Dom.previousSiblings d0 node = []) as ->.
    { unfold Dom.previousSiblings. by rewrite Hpar. }
    done.
Qed.

Lemma ext_size : size d0 ≤ size d2.
Proof using All.
  apply map_subseteq_size, map_subseteq_spec.
  intros i x Hi. rewrite Hext; [done|eauto].
Qed.

Lemma ext_getXPathFromNode W node :
  (∀ w, W = Some w → is_Some (d0 !! w)) → is_Some (d0 !! node) →
  getXPathFromNode d2 W node = getXPathFromNode d0 W node.
Proof using All.
  intros HW Hn. unfold getXPathFromNode at 1.
  pose proof (getXPathFromNode_computed d0 W node (wf_rooted d0 node Hwf Hn)) as Hc.
  rewrite <- (ext_getXPathFromNode_rec W HW _ node Hn) in Hc.
  erewrite getXPathFromNode_rec_mono; [|exact Hc|]; [done|].
  pose proof ext_size. lia.
Qed.

Lemma descendants_in_heap doc : is_Some (d0 !! doc) → ∀ fuel n,
  n ∈ Dom.descendants fuel d0 doc → is_Some (d0 !! n).
Proof using All.
  intros Hdoc fuel. revert doc Hdoc.
  induction fuel as [|fuel IH]; intros doc Hdoc n; [by intros ?%elem_of_nil|].
  rewrite descendants_elem. intros [->|(c & Hc & Hn)]; [done|].
  apply (IH c); [|done]. by eapply ext_child_in_heap.
Qed.

Lemma ext_descendants fuel : ∀ n,
  is_Some (d0 !! n) → Dom.descendants fuel d2 n = Dom.descendants fuel d0 n.
Proof using All.
  induction fuel as [|fuel IH]; intros n Hn; [done|]. simpl.
  destruct (ext_views n Hn) as (_ & -> & _). f_equal.
  assert (∀ c, c ∈ Dom.children_of d0 n → is_Some (d0 !! c)) as Hch
    by (intros c; apply ext_child_in_heap).
  induction (Dom.children_of d0 n) as [|c l IHl]; simpl; [done|].
  rewrite IH, IHl; [done| |apply Hch; by left].
  intros c' Hc'. apply Hch. by right.
Qed.

Lemma descendants_enough : ∀ f f' n k,
  Tree.depth (size d0) d0 n = Some k → size d0 ≤ k + f → size d0 ≤ k + f' →
  Dom.descendants f d0 n = Dom.descendants f' d0 n.
Proof using All.
  induction f as [|f IH]; intros f' n k Hk Hf Hf'.
  { apply depth_lt in Hk. lia. }
  destruct f' as [|f']; [apply depth_lt in Hk; lia|]. simpl. f_equal.
  assert (∀ c, c ∈ Dom.children_of d0 n →
            Dom.descendants f d0 c = Dom.descendants f' d0 c) as Hch.
  { intros c Hc. pose proof (wf_child_parent d0 n c Hwf Hc) as Hp.
    assert (Tree.rooted d0 c) as [kc Hkc].
    { apply wf_rooted; [done|]. by eapply parent_of_is_Some. }
    destruct (depth_step d0 c n kc Hkc Hp) as (k' & -> & Hk').
    assert (k' = k) as -> by congruence.
    apply (IH f' c (S k)); [done|lia|lia]. }
  induction (Dom.children_of d0 n) as [|c l IHl]; simpl; [done|].
  rewrite IHl, Hch; [done|by left|]. intros c' Hc'. apply Hch. by right.
Qed.

Lemma ext_document doc :
  is_Some (d0 !! doc) →
  Dom.descendants (size d2) d2 doc = Dom.descendants (size d0) d0 doc.
Proof using All.
  intros Hdoc. rewrite ext_descendants by done.
  destruct (wf_rooted d0 doc Hwf Hdoc) as [k Hk].
  apply (descendants_enough _ _ doc k Hk); pose proof ext_size; lia.
Qed.

Lemma ext_eval_step st context :
  (∀ c, c ∈ context → is_Some (d0 !! c)) →
  XPath.eval_step d2 st context = XPath.eval_step d0 st context
  ∧ ∀ n, n ∈ XPath.eval_step d0 st context → is_Some (d0 !! n).
Proof using All.
  intros Hctx.
  assert (∀ (test2 test0 : nid → bool) k,
            (∀ x, is_Some (d0 !! x) → test2 x = test0 x) →
            omap (λ c, XPath.nth_match test2 k (Dom.children_of d2 c)) context
            = omap (λ c, XPath.nth_match test0 k (Dom.children_of d0 c)) context
            ∧ ∀ n, n ∈ omap (λ c, XPath.nth_match test0 k (Dom.children_of d0 c)) context
                   → is_Some (d0 !! n)) as Hgen.
  { intros test2 test0 k Htest. split.
    - revert Hctx. unfold omap.
      induction context as [|c l IHl]; intros Hctx; [done|]. simpl.
      destruct (ext_views c) as (_ & -> & _); [apply Hctx; by left|].
      rewrite IHl by (intros c' Hc'; apply Hctx; by right).
      unfold XPath.nth_match. destruct k as [|k]; [done|].
      rewrite (filter_ext_elem test2 test0); [done|].
      intros x Hx. apply Htest. by eapply ext_child_in_heap.
    - intros n (c & Hc & Hn)%list_elem_of_omap.
      unfold XPath.nth_match in Hn. destruct k as [|k]; [done|].
      apply list_elem_of_lookup_2, list_elem_of_In, filter_In in Hn as [Hn _].
      apply list_elem_of_In in Hn. by eapply ext_child_in_heap. }
  destruct st as [name k|k]; simpl.
  - apply Hgen. intros x Hx. unfold XPath.named.
    by destruct (ext_tests x Hx) as (_ & _ & _ & -> & _).
  - apply Hgen. intros x Hx. by destruct (ext_tests x Hx) as (-> & _).
Qed.

Lemma ext_getNodeFromXPath doc XPath :
  is_Some (d0 !! doc) →
  getNodeFromXPath d2 (Some doc) XPath = getNodeFromXPath d0 (Some doc) XPath.
Proof using All.
  intros Hdoc. simpl. unfold XPath.evaluate.
  destruct (XPath.parse XPath) as [[b sts]|]; [|done]. f_equal.
  unfold XPath.first_ordered. rewrite ext_document by done.
  assert (XPath.eval d2 doc (XPath.mkExpr b sts) = XPath.eval d0 doc (XPath.mkExpr b sts))
    as ->; [|done].
  unfold XPath.eval. simpl.
  assert (XPath.eval_base d2 doc b = XPath.eval_base d0 doc b
          ∧ ∀ n, n ∈ XPath.eval_base d0 doc b → is_Some (d0 !! n)) as [Hb Hbin].
  { destruct b as [| |i]; simpl.
    - split; [done|]. by intros n ->%list_elem_of_singleton.
    - rewrite ext_document by done. split.
      + apply filter_ext_elem. intros x Hx%descendants_in_heap; [|done].
        unfold XPath.named. by destruct (ext_tests x Hx) as (_ & _ & _ & -> & _).
      + intros n Hn. apply list_elem_of_In, filter_In in Hn as [Hn _].
        apply list_elem_of_In in Hn. by eapply descendants_in_heap.
    - rewrite ext_document by done. split.
      + apply filter_ext_elem. intros x Hx%descendants_in_heap; [|done].
        unfold XPath.has_id. by destruct (ext_tests x Hx) as (_ & _ & _ & _ & _ & ->).
      + intros n Hn. apply list_elem_of_In, filter_In in Hn as [Hn _].
        apply list_elem_of_In in Hn. by eapply descendants_in_heap. }
  rewrite Hb. revert Hbin. generalize (XPath.eval_base d0 doc b).
  induction sts as [|st sts IH]; intros context Hctx; simpl; [done|].
  destruct (ext_eval_step st context Hctx) as [-> Hnext]. by apply IH.
Qed.

End extension.

(** ** The mirror document follows an insertion *)

Lemma copy_textContent (P : nid → Prop) d0 D x c :
  Tree.wf d0 → is_Some (d0 !! x) → size d0 ≤ size D →
  (∀ f, copy_of f P d0 x D c) →
  Dom.textContent D c = Dom.textContent d0 x.
Proof.
  intros Hwf Hx Hsz Hcopy.
  destruct (wf_rooted d0 x Hwf Hx) as [k Hk].
  pose proof (Hcopy 1) as (_ & Hkind & _).
  unfold Dom.textContent. rewrite Hkind.
  destruct (Dom.kind_of d0 x) as [[]|]; try done. f_equal.
  rewrite (text_of_copy _ _ _ _ _ _ (Hcopy (size D))).
  apply (text_of_enough d0 Hwf _ _ x k Hk); apply depth_lt in Hk; lia.
Qed.

Lemma counterpart_of_element d mirror w body p p' :
  List.filter (XPath.named d "body") (Dom.descendants (size d) d mirror) = [body] →
  Dom.is_element d p = true →
  Mirror.counterpart d mirror w body p p' →
  Dom.is_element d p' = true.
Proof.
  intros Hbody Hp Hc.
  assert (∀ x, is_Some (Dom.tagName d x) → Dom.is_element d x = true) as Htag.
  { intros x [tg Hx]. unfold Dom.tagName, Dom.is_element, Dom.nodeType in *.
    by destruct (Dom.kind_of d x) as [[]|]. }
  destruct Hc as [n n' i Hi Hne Hq Hu|Hid
    |n p0 n' p0' i Hid Hlw Htn Hpar Hn Hn' Hal _
    |n p0 n' p0' i Hid Hlw He Hv Hpar Hn Hn' Hal Hh _].
  - assert (n' ∈ List.filter (XPath.has_id d i) (Dom.descendants (size d) d mirror)) as Hin
      by (rewrite Hu; by left).
    apply list_elem_of_In, filter_In in Hin as [_ Hin].
    unfold XPath.has_id, Dom.id, Dom.is_element, Dom.nodeType in *.
    by destruct (Dom.kind_of d n') as [[]|].
  - assert (body ∈ List.filter (XPath.named d "body") (Dom.descendants (size d) d mirror))
      as Hin by (rewrite Hbody; by left).
    apply list_elem_of_In, filter_In in Hin as [_ Hin].
    apply Htag. unfold XPath.named in Hin. destruct (Dom.tagName d body); [eauto|done].
  - unfold Dom.is_text, Dom.is_element in *.
    apply bool_decide_eq_true in Hp, Htn. congruence.
  - destruct (Forall2_lookup_lr _ _ _ _ _ _ Hal Hn Hn') as [_ Heq].
    apply Htag. rewrite <- Heq.
    unfold Dom.tagName, Dom.is_element, Dom.nodeType in *.
    destruct (Dom.kind_of d n) as [[]|]; try done; eauto.
Qed.

(** The record of the insertion of one node, compiled on the heap that
    the insertion left, gives back the heap of before the insertion with
    a copy of the node beside it, and one [ADD] of the copy. *)
Lemma compile_record_insertion W d0 r d1 a :
  Tree.wf d0 → Browser.step d0 r d1 →
  Mutation.addedNodes r = [a] → Mutation.removedNodes r = [] →
  compile_record W r d1 []
  = let '(dc, clone) := Dom.cloneNode (size d0) a d0 in
    Ok (dc, [Operation.mk ADD (NodeObject clone) None
               (Some (getXPathFromNode dc W (Mutation.target r)))
               (match Mutation.nextSibling r with
                | Some nextSibling => Some (getXPathFromNode dc W nextSibling)
                | None => None
                end)]).
Proof.
  intros Hwf Hstep Hadd Hrem.
  destruct Hstep as [pre post Hty Hold Hel Hch Hprev Hnext HND HA|
                     old new Hty Hold Ha Hr Hk]; [|congruence].
  rewrite Hadd, Hrem in *. simpl in Hch.
  set (t := Mutation.target r) in *.
  set (d1 := Browser.relink t (pre ++ [a] ++ post) [a] [] d0).
  apply Forall_inv in HA as [Hain Hapar].
  assert (is_Some (d0 !! t)) as Htin.
  { unfold Dom.is_element, Dom.nodeType in Hel. apply kind_of_is_Some.
    destruct (Dom.kind_of d0 t); [eauto|done]. }
  assert (Dom.parent_of d1 a = Some t) as Hpa.
  { unfold d1. rewrite parent_of_relink by done. rewrite decide_True; [done|by left]. }
  assert (a ∉ pre ++ post) as Hout.
  { intros Hin. rewrite <- Hch in Hin. apply (wf_child_parent d0 t a Hwf) in Hin.
    congruence. }
  assert (Dom.detach a d1 = d0) as Hback.
  { apply map_eq. intros n.
    destruct (d0 !! n) as [nd|] eqn:Hn.
    - rewrite <- Hn. assert (is_Some (d0 !! n)) as Hnin by eauto.
      apply same_views_same_entry.
      + apply lookup_detach_is_Some. unfold d1. by apply lookup_relink_is_Some.
      + done.
      + rewrite parent_of_detach. destruct (decide (a = n)) as [<-|Hne]; [done|].
        unfold d1. rewrite parent_of_relink by done.
        rewrite decide_False by (intros ?%list_elem_of_singleton; done).
        rewrite decide_False; [done|]. by intros ?%elem_of_nil.
      + rewrite children_of_detach, Hpa. unfold d1. rewrite children_of_relink.
        destruct (decide (t = n)) as [<-|Hne].
        * rewrite !decide_True by done. rewrite Hch. simpl.
          rewrite remove_node_middle; [done|..];
            intros ?; apply Hout; apply elem_of_app; eauto.
        * rewrite decide_False by congruence. rewrite decide_False; [done|].
          by intros [? _].
      + rewrite kind_of_detach. unfold d1. apply kind_of_relink.
    - destruct (Dom.detach a d1 !! n) eqn:Hn2; [|done]. exfalso.
      assert (is_Some (Dom.detach a d1 !! n)) as Hn1 by eauto.
      apply lookup_detach_is_Some in Hn1. unfold d1 in Hn1.
      apply lookup_relink_is_Some in Hn1. no_entry. }
  unfold compile_record, compile_text. rewrite Hold, Hrem, Hadd. simpl.
  fold t. fold d1. rewrite Hpa. unfold Dom.removeChild.
  rewrite decide_True by done. simpl. rewrite Hback.
  by destruct (Dom.cloneNode (size d0) a d0).
Qed.

Lemma ancestors_in_heap d0 dc x y :
  Tree.wf d0 → (∀ n, is_Some (d0 !! n) → dc !! n = d0 !! n) →
  is_Some (d0 !! x) →
  rtc (λ u v, Dom.parent_of dc u = Some v) x y → is_Some (d0 !! y).
Proof.
  intros Hwf Hext Hx Hxy. induction Hxy as [|x y z Hxy _ IH]; [done|].
  apply IH. destruct (same_entry_views _ _ _ (Hext x Hx)) as (Hp & _).
  rewrite Hp in Hxy. by eapply wf_parent_in_heap.
Qed.

Lemma SyncToMirror_one Mirror operation d :
  SyncToMirror Mirror [operation] d = apply_operation Mirror d operation ≫= Ok.
Proof.
  unfold SyncToMirror. cbn [length SyncToMirror_loop]. change (pop [operation]) with (Some (operation, @nil TOperationLog)).
  cbv beta iota. by destruct (apply_operation Mirror d operation).
Qed.

(** X16: the mirror document follows an insertion.  When the queue
    holds the record of the insertion of one node under a parent that has
    a counterpart in the mirror document, before a sibling that has a
    counterpart under that parent (or at the end), the flush returns and
    has put a new node, a deep copy of the inserted one with the same
    text and the same markup, among the children of the parent's
    counterpart, before the sibling's counterpart (or at the end); every
    node of the heap of before the insertion other than that parent is as
    it was, the live tree included. *)
Theorem insertion_is_mirrored (h : Hook) (d0 : DOM) (w mirror body a p' : nid)
  (sibling' : option nid) (r : MutationRecord) :
  WatchElementRef h = Some w → MirrorDocumentRef h = Some mirror →
  MutationQueue (DaemonState h) ++ records (Observer (DaemonState h)) = [r] →
  Tree.wf d0 → Tree.wf (heap h) → Browser.step d0 r (heap h) →
  Mutation.addedNodes r = [a] → Mutation.removedNodes r = [] →
  Dom.is_element d0 w = true → is_Some (d0 !! mirror) →
  List.filter (XPath.named d0 "body") (Dom.descendants (size d0) d0 mirror) = [body] →
  Mirror.counterpart d0 mirror w body (Mutation.target r) p' →
  match Mutation.nextSibling r, sibling' with
  | Some nextSibling, Some s' =>
      Mirror.counterpart d0 mirror w body nextSibling s'
      ∧ Dom.parent_of d0 s' = Some p'
  | None, None => True
  | _, _ => False
  end →
  ∃ h' clone,
    FlushQueue h = Ok h'
    ∧ d0 !! clone = None
    ∧ Dom.children_of (heap h') p'
      = Dom.insert_before clone sibling' (Dom.children_of d0 p')
    ∧ Dom.parent_of (heap h') clone = Some p'
    ∧ Dom.textContent (heap h') clone = Dom.textContent d0 a
    ∧ (∀ fuel, outerHTML fuel (heap h') clone = outerHTML fuel d0 a)
    ∧ ∀ n, is_Some (d0 !! n) → n ≠ p' → heap h' !! n = d0 !! n.
Proof.
  destruct h as [d1 W M [[o rs] q] c]. simpl.
  intros -> -> Hq Hwf0 Hwf1 Hstep Hadd Hrem Hw Hmirror Hbody Hp Hsib.
  (* what the record tells *)
  assert (Dom.is_element d0 (Mutation.target r) = true
          ∧ is_Some (d0 !! a)
          ∧ Dom.parent_of d1 a = Some (Mutation.target r)
          ∧ Dom.kind_of d1 a = Dom.kind_of d0 a
          ∧ ∀ ns, Mutation.nextSibling r = Some ns → is_Some (d0 !! ns))
    as (Hel & Hain & Hpa1 & Hka & Hnsin).
  { destruct Hstep as [pre post Hty Hold Hel Hch Hprev Hnext HND HA|
                       old new Hty Hold Ha Hr Hk]; [|congruence].
    rewrite Hadd in *. apply Forall_inv in HA as [Hain Hapar].
    split; [done|]. split; [done|]. split; [|split].
    - rewrite parent_of_relink by done. rewrite decide_True; [done|by left].
    - apply kind_of_relink.
    - intros ns Hns. rewrite Hnext in Hns. apply head_Some_elem_of in Hns.
      eapply parent_of_is_Some. apply (wf_child_parent d0 (Mutation.target r)); [done|].
      rewrite Hch. apply elem_of_app. right. apply elem_of_app. by right. }
  set (p := Mutation.target r) in *.
  assert (is_Some (d0 !! p)) as Hpin.
  { unfold Dom.is_element, Dom.nodeType in Hel. apply kind_of_is_Some.
    destruct (Dom.kind_of d0 p); [eauto|done]. }
  assert (is_Some (d0 !! w)) as Hwin.
  { unfold Dom.is_element, Dom.nodeType in Hw. apply kind_of_is_Some.
    destruct (Dom.kind_of d0 w); [eauto|done]. }
  (* the copy *)
  pose proof (compile_record_insertion (Some w) d0 r d1 a Hwf0 Hstep Hadd Hrem) as Hcomp.
  pose proof (cloneNode_preserves (size d0) a d0) as Hext.
  destruct (wf_rooted d0 a Hwf0 Hain) as [ka Hdepth].
  destruct (Dom.cloneNode (size d0) a d0) as [dc clone] eqn:Hclone.
  simpl in Hext.
  destruct (cloneNode_root _ _ _ _ _ Hclone) as (Hfresh & Hcpar & Hcin & Hckind).
  assert (∀ f, copy_of f (λ z, d0 !! z = None ∧ is_Some (dc !! z)) d0 a dc clone)
    as Hcopy.
  { apply (cloneNode_copy d0 Hwf0 (size d0) a d0 dc clone ka); [|done|lia|done].
    intros n Hn. split; [|done].
    destruct Hn as [|n y z Hny _]; [done|]. by eapply parent_of_is_Some. }
  (* the addresses are those of the heap of before the insertion *)
  assert (∀ n, is_Some (d0 !! n) →
            getXPathFromNode dc (Some w) n = getXPathFromNode d0 (Some w) n) as Haddr.
  { intros n Hn. apply ext_getXPathFromNode; [done|done| |done]. by intros ? [= <-]. }
  assert (∀ XPath, getNodeFromXPath dc (Some mirror) XPath
                   = getNodeFromXPath d0 (Some mirror) XPath) as Hres.
  { intros XPath. by apply ext_getNodeFromXPath. }
  destruct (counterpart_resolved d0 mirror w body p p' Hwf0 Hbody Hp Hpin) as [Hnp Hrp].
  (* the parent and the sibling in the mirror document *)
  pose proof (counterpart_of_element d0 mirror w body p p' Hbody Hel Hp) as Hel'.
  assert (is_Some (d0 !! p')) as Hp'in.
  { unfold Dom.is_element, Dom.nodeType in Hel'. apply kind_of_is_Some.
    destruct (Dom.kind_of d0 p'); [eauto|done]. }
  destruct (ext_views d0 dc Hwf0 Hext p' Hp'in) as (Hpp' & Hcp' & Hkp').
  assert (∃ pk, Dom.kind_of dc p' = Some pk
                ∧ Dom.can_have_children pk = true ∧ Dom.is_document pk = false)
    as (pk & Hpk & Hcan & Hpdoc).
  { rewrite Hkp'. unfold Dom.is_element, Dom.nodeType in Hel'.
    destruct (Dom.kind_of d0 p') as [[]|]; try done. eauto. }
  assert (∃ nk, Dom.kind_of dc clone = Some nk ∧ Dom.is_document nk = false)
    as (nk & Hnk & Hndoc).
  { destruct (Dom.kind_of d0 a) as [k|] eqn:Hk0.
    2:{ apply kind_of_is_Some in Hain. rewrite Hk0 in Hain. by destruct Hain. }
    exists k. split.
    - apply Hckind; [|done]. by eapply size_pos.
    - apply (wf_not_document d1 p a k Hwf1 Hpa1). by rewrite Hka. }
  assert (Dom.is_inclusive_ancestor (size dc) dc clone p' = false) as Hanc.
  { destruct (Dom.is_inclusive_ancestor (size dc) dc clone p') eqn:E; [|done]. exfalso.
    apply is_inclusive_ancestor_sound in E.
    pose proof (ancestors_in_heap d0 dc p' clone Hwf0 Hext Hp'in E). no_entry. }
  assert (UpdateMirrorDocument.Add dc (Some mirror)
            (Some (getXPathFromNode dc (Some w) p)) (Some clone)
            (match Mutation.nextSibling r with
             | Some nextSibling => Some (getXPathFromNode dc (Some w) nextSibling)
             | None => None
             end)
          = Dom.insertBefore dc p' clone sibling'
          ∧ (sibling' ≫= Dom.parent_of dc) = (sibling' ≫= λ _, Some p')
          ∧ sibling' ≠ Some clone) as (Hadd_eq & Hsp & Hsc).
  { unfold UpdateMirrorDocument.Add. rewrite (Haddr p Hpin).
    rewrite decide_False by done.
    rewrite (Hres (getXPathFromNode d0 (Some w) p)), Hrp. simpl.
    destruct (Mutation.nextSibling r) as [ns|] eqn:Hns, sibling' as [s'|]; try done.
    destruct Hsib as [Hcs Hps].
    destruct (counterpart_resolved d0 mirror w body ns s' Hwf0 Hbody Hcs (Hnsin ns eq_refl))
      as [Hnns Hrns].
    rewrite (Haddr ns (Hnsin ns eq_refl)). rewrite decide_False by done.
    pose proof (Hres (getXPathFromNode d0 (Some w) ns)) as Hres_ns.
    simpl in Hres_ns, Hrns. rewrite Hres_ns, Hrns. simpl.
    assert (is_Some (d0 !! s')) as Hs'in by (by eapply parent_of_is_Some).
    destruct (ext_views d0 dc Hwf0 Hext s' Hs'in) as (-> & _).
    repeat split; [done|]. intros [= ->]. no_entry. }
  (* the flush *)
  unfold FlushQueue. simpl. rewrite Hq. simpl.
  unfold compile. simpl. fold p in Hcomp. rewrite Hcomp. simpl.
  rewrite SyncToMirror_one. unfold apply_operation.
  cbn [Operation.type Operation.node Operation.parentNode Operation.siblingNode].
  rewrite Hadd_eq.
  unfold Dom.insertBefore. rewrite Hpk, Hnk, Hcan, Hanc, Hndoc, Hpdoc. simpl.
  rewrite bool_decide_eq_false_2.
  2:{ intros [Hs1 Hs2]. apply Hs2. rewrite Hsp. by destruct sibling'. }
  rewrite decide_False by done.
  rewrite (detach_no_parent _ _ Hcpar).
  eexists _, clone. split; [reflexivity|]. simpl.
  assert (is_Some (dc !! p')) as Hp'c by (by rewrite Hext).
  split; [done|]. split; [|split; [|split; [|split]]].
  - rewrite children_of_set_parent, children_of_set_children.
    rewrite decide_True by done. by rewrite Hcp'.
  - rewrite parent_of_set_parent. rewrite decide_True; [done|].
    split; [done|]. unfold Dom.set_children. by apply lookup_alter_is_Some.
  - apply (copy_textContent (λ z, d0 !! z = None ∧ is_Some (dc !! z))); [done|done| |].
    + unfold Dom.set_parent, Dom.set_children. rewrite !size_alter.
      by apply (ext_size d0 dc Hwf0 Hext).
    + intros f. eapply copy_of_stable; [|exact (Hcopy f)].
      intros z [Hz _]. apply lookup_set_link_ne. intros ->. no_entry.
  - intros fuel. eapply outerHTML_copy.
    eapply copy_of_stable; [|exact (Hcopy fuel)].
    intros z [Hz _]. apply lookup_set_link_ne. intros ->. no_entry.
  - intros n Hn Hnp'. unfold Dom.set_parent, Dom.set_children.
    rewrite !lookup_alter_ne; [by apply Hext|done|].
    intros <-. no_entry.
Qed.

Lemma insertion_is_mirrored_witness :
  let h := Example.undelivered Insertion.page_inserted Insertion.inserted in
  ∃ h' clone,
    FlushQueue h = Ok h'
    ∧ Insertion.page !! clone = None
    ∧ Dom.children_of (heap h') 12 = [13; clone; 15]
    ∧ Dom.parent_of (heap h') clone = Some 12
    ∧ Dom.textContent (heap h') clone = Some "C"
    ∧ (∀ fuel, outerHTML fuel (heap h') clone = outerHTML fuel Insertion.page 20)
    ∧ ∀ n, is_Some (Insertion.page !! n) → n ≠ 12 →
           heap h' !! n = Insertion.page !! n.
Proof.
  intros h.
  apply (insertion_is_mirrored h Insertion.page 3 10 12 20 12 (Some 15) Insertion.inserted).
  - reflexivity.
  - reflexivity.
  - reflexivity.
  - apply wf_by_computation. vm_compute. reflexivity.
  - apply wf_by_computation. vm_compute. reflexivity.
  - apply (Browser.childList_step _ Insertion.inserted [4] [6]);
      try (vm_compute; reflexivity).
    + repeat constructor. by intros ?%elem_of_nil.
    + repeat constructor; vm_compute; eauto.
  - reflexivity.
  - reflexivity.
  - vm_compute. reflexivity.
  - vm_compute. eauto.
  - vm_compute. reflexivity.
  - apply Mirror.of_watched. vm_compute. reflexivity.
  - split; [|vm_compute; reflexivity].
    apply (Mirror.of_element _ _ _ _ 6 3 15 12 1); try (vm_compute; reflexivity).
    + repeat constructor.
    + repeat constructor.
    + apply Mirror.of_watched. vm_compute. reflexivity.
Defined.

(* ===================================================================== *)
(** * The editor component *)
(* ===================================================================== *)

(** ** The nearest paragraph *)

Lemma depth_tc d x p kx :
  tc (λ x y, Dom.parent_of d x = Some y) x p →
  Tree.depth (size d) d x = Some kx →
  ∃ kp, Tree.depth (size d) d p = Some kp ∧ kp < kx.
Proof.
  intros Htc. revert kx. induction Htc as [x y Hxy|x y z Hxy _ IH]; intros kx Hkx.
  - destruct (depth_step d x y kx Hkx Hxy) as (k' & -> & Hk'). exists k'. split; [done|lia].
  - destruct (depth_step d x y kx Hkx Hxy) as (k' & -> & Hk').
    destruct (IH k' Hk') as (kp & Hkp & Hlt). exists kp. split; [done|lia].
Qed.

Lemma FindNearestParagraph_rec_spec d test fuel : ∀ node k,
  Tree.depth (size d) d node = Some k → k < fuel →
  ∃ result,
    Editor.FindNearestParagraph_rec fuel d test node = Some result
    ∧ match result with
      | Some p =>
          rtc (λ x y, Dom.parent_of d x = Some y) node p
          ∧ Editor.is_paragraph d test p = true
          ∧ ∀ x, rtc (λ x y, Dom.parent_of d x = Some y) node x →
                 tc (λ x y, Dom.parent_of d x = Some y) x p →
                 Editor.is_paragraph d test x = false
      | None =>
          ∀ x, rtc (λ x y, Dom.parent_of d x = Some y) node x →
               Editor.is_paragraph d test x = false
      end.
Proof.
  induction fuel as [|fuel IH]; intros node k Hk Hlt; [lia|]. simpl.
  destruct (Editor.is_paragraph d test node) eqn:Hm.
  - exists (Some node). split; [done|]. split; [constructor|]. split; [done|].
    intros x Hx Htc. exfalso.
    destruct (depth_ancestor d node x k Hx Hk) as (kx & Hkx & Hle).
    destruct (depth_tc d x node kx Htc Hkx) as (k' & Hk' & Hlt').
    assert (k' = k) by congruence. lia.
  - destruct (Dom.parent_of d node) as [p|] eqn:Hp.
    + destruct (depth_step d node p k Hk Hp) as (k' & -> & Hk').
      destruct (IH p k' Hk') as (result & Hres & Hspec); [lia|].
      exists result. split; [done|].
      assert (∀ x, rtc (λ x y, Dom.parent_of d x = Some y) node x →
                x = node ∨ rtc (λ x y, Dom.parent_of d x = Some y) p x) as Hcases.
      { intros x Hx. destruct Hx as [|n y z Hny Hyz]; [by left|].
        right. assert (y = p) as -> by congruence. done. }
      destruct result as [q|].
      * destruct Hspec as (Hq & Hmq & Hnear). split; [by eapply rtc_l|].
        split; [done|]. intros x Hx Htc.
        destruct (Hcases x Hx) as [->|Hpx]; [done|]. by apply Hnear.
      * intros x Hx. destruct (Hcases x Hx) as [->|Hpx]; [done|]. by apply Hspec.
    + exists None. split; [done|]. intros x Hx.
      destruct Hx as [|n y z Hny Hyz]; [done|]. congruence.
Qed.

(** X17: [FindNearestParagraph] returns the nearest match.  The
    node returned is the node itself or one of its ancestors, its name
    passes the test, and no node nearer on the way up does; [null] is
    returned only when neither the node nor any of its ancestors passes
    the test. *)
Theorem FindNearestParagraph_nearest (d : DOM) (node : nid)
  (tagTest : option (string → bool)) :
  Tree.rooted d node →
  let ancestor := rtc (λ x y, Dom.parent_of d x = Some y) in
  let above := tc (λ x y, Dom.parent_of d x = Some y) in
  let paragraph := Editor.is_paragraph d (default Editor.tagNames tagTest) in
  match Editor.FindNearestParagraph d node tagTest with
  | Some p =>
      ancestor node p ∧ paragraph p = true
      ∧ ∀ x, ancestor node x → above x p → paragraph x = false
  | None => ∀ x, ancestor node x → paragraph x = false
  end.
Proof.
  intros [k Hk]. simpl. unfold Editor.FindNearestParagraph.
  destruct (FindNearestParagraph_rec_spec d (default Editor.tagNames tagTest)
              (S (size d)) node k Hk) as (result & -> & Hspec).
  { apply depth_lt in Hk. lia. }
  simpl. exact Hspec.
Qed.

Lemma FindNearestParagraph_nearest_witness :
  Editor.FindNearestParagraph Example.page 5 None = Some 4
  ∧ rtc (λ x y, Dom.parent_of Example.page x = Some y) 5 4
  ∧ Editor.is_paragraph Example.page Editor.tagNames 4 = true
  ∧ ∀ x, rtc (λ x y, Dom.parent_of Example.page x = Some y) 5 x →
         tc (λ x y, Dom.parent_of Example.page x = Some y) x 4 →
         Editor.is_paragraph Example.page Editor.tagNames x = false.
Proof.
  assert (Editor.FindNearestParagraph Example.page 5 None = Some 4) as E
    by (vm_compute; reflexivity).
  split; [exact E|].
  pose proof (FindNearestParagraph_nearest Example.page 5 None) as H.
  simpl in H. rewrite E in H. apply H.
  exists 5. vm_compute. reflexivity.
Defined.

(** ** The following siblings *)

Lemma after_middle x pre post : x ∉ pre → Dom.after x (pre ++ x :: post) = post.
Proof.
  induction pre as [|y pre IH]; simpl; intros Hx.
  - by rewrite decide_True.
  - rewrite decide_False; [|intros ->; apply Hx; by left].
    apply IH. intros ?. apply Hx. by right.
Qed.

Lemma children_length d p : NoDup (Dom.children_of d p) →
  (∀ c, c ∈ Dom.children_of d p → is_Some (d !! c)) →
  length (Dom.children_of d p) ≤ size d.
Proof.
  intros HND Hin.
  rewrite <- size_dom. unfold size, set_size. simpl.
  apply submseteq_length, NoDup_submseteq; [done|].
  intros c Hc. apply elem_of_elements, elem_of_dom. by apply Hin.
Qed.

Lemma GetNextSiblings_loop_spec d p : ∀ post fuel pre x,
  NoDup (pre ++ x :: post) →
  Dom.children_of d p = pre ++ x :: post →
  (∀ c, c ∈ pre ++ x :: post → Dom.parent_of d c = Some p) →
  length post ≤ fuel →
  Editor.GetNextSiblings_loop fuel d x = post.
Proof.
  induction post as [|y post IH]; intros fuel pre x HND Hch Hpar Hlen.
  - destruct fuel as [|fuel]; [done|]. simpl.
    unfold Dom.nextSibling. rewrite (Hpar x), Hch.
    + rewrite after_middle; [done|].
      apply NoDup_app in HND as (_ & Hd & _). intros Hx. apply (Hd x Hx). by left.
    + apply elem_of_app. right. by left.
  - destruct fuel as [|fuel]; [simpl in Hlen; lia|]. simpl.
    unfold Dom.nextSibling. rewrite (Hpar x), Hch.
    + rewrite after_middle.
      * simpl. f_equal. apply (IH fuel (pre ++ [x]) y).
        -- by rewrite <- app_assoc.
        -- by rewrite <- app_assoc.
        -- intros c. rewrite <- app_assoc. apply Hpar.
        -- simpl in Hlen. lia.
      * apply NoDup_app in HND as (_ & Hd & _). intros Hx. apply (Hd x Hx). by left.
    + apply elem_of_app. right. by left.
Qed.

(** X18: [GetNextSiblings] returns the siblings that follow the
    node, all of them and in the order of the tree; nothing for a node
    without parent. *)
Theorem GetNextSiblings_after (d : DOM) (node : nid) :
  Tree.wf d →
  Editor.GetNextSiblings d node
  = match Dom.parent_of d node with
    | Some parent => Dom.after node (Dom.children_of d parent)
    | None => []
    end.
Proof.
  intros Hwf. unfold Editor.GetNextSiblings.
  destruct (Dom.parent_of d node) as [p|] eqn:Hp.
  - pose proof (wf_parent_child d p node Hwf Hp) as Hin.
    pose proof (wf_NoDup d p Hwf) as HND.
    pose proof (before_split node _ Hin) as Hsplit.
    assert (length (Dom.children_of d p) ≤ size d) as Hlen.
    { apply children_length; [done|]. intros c Hc.
      eapply parent_of_is_Some. by apply wf_child_parent. }
    apply (GetNextSiblings_loop_spec d p _ _ (Dom.before node (Dom.children_of d p))).
    + by rewrite <- Hsplit.
    + done.
    + rewrite <- Hsplit. intros c Hc. by apply wf_child_parent.
    + rewrite Hsplit, length_app in Hlen. simpl in Hlen. lia.
  - destruct (size d); simpl; [done|]. unfold Dom.nextSibling. by rewrite Hp.
Qed.

Lemma GetNextSiblings_after_witness :
  Editor.GetNextSiblings Example.body_page 3
  = match Dom.parent_of Example.body_page 3 with
    | Some parent => Dom.after 3 (Dom.children_of Example.body_page parent)
    | None => []
    end.
Proof.
  apply (GetNextSiblings_after Example.body_page 3).
  apply wf_by_computation. vm_compute. reflexivity.
Defined.

(** ** The nearest sibling to move to *)

Lemma after_subseteq n l x : x ∈ Dom.after n l → x ∈ l.
Proof.
  induction l as [|y l IH]; simpl; [done|].
  destruct (decide (y = n)); intros ?; right; [done|by apply IH].
Qed.

Lemma nextSibling_parent d a s :
  Tree.wf d → Dom.nextSibling d a = Some s → Dom.parent_of d s = Dom.parent_of d a.
Proof.
  intros Hwf. unfold Dom.nextSibling.
  destruct (Dom.parent_of d a) as [p|] eqn:Hp; [|done].
  intros Hs%head_Some_elem_of%after_subseteq. by apply wf_child_parent.
Qed.

Lemma previousSibling_parent d a s :
  Tree.wf d → Editor.previousSibling d a = Some s → Dom.parent_of d s = Dom.parent_of d a.
Proof.
  intros Hwf. unfold Editor.previousSibling, Dom.previousSiblings.
  destruct (Dom.parent_of d a) as [p|] eqn:Hp; [|done].
  intros Hs%head_Some_elem_of. apply list_elem_of_In in Hs.
  apply <- in_rev in Hs. apply list_elem_of_In, before_subseteq in Hs.
  by apply wf_child_parent.
Qed.

Lemma available_sibling_spec d sibling upperLimit fuel : ∀ current k,
  Tree.depth (size d) d current = Some k → k < fuel →
  tc (λ x y, Dom.parent_of d x = Some y) current upperLimit →
  ∃ result,
    Editor.available_sibling fuel d sibling upperLimit current = Some result
    ∧ match result with
      | Some s =>
          Editor.available d (Some s) = true
          ∧ ∃ a, rtc (λ x y, Dom.parent_of d x = Some y) current a
                 ∧ tc (λ x y, Dom.parent_of d x = Some y) a upperLimit
                 ∧ sibling d a = Some s
      | None =>
          ∀ a, rtc (λ x y, Dom.parent_of d x = Some y) current a →
               tc (λ x y, Dom.parent_of d x = Some y) a upperLimit →
               Editor.available d (sibling d a) = false
      end.
Proof.
  induction fuel as [|fuel IH]; intros current k Hk Hlt Hup; [lia|]. simpl.
  destruct (Editor.available d (sibling d current)) eqn:Hav.
  - exists (sibling d current). split; [done|].
    destruct (sibling d current) as [s|] eqn:Hs; [|done].
    split; [done|]. exists current. split; [constructor|]. done.
  - assert (∃ p, Dom.parent_of d current = Some p
                 ∧ (p = upperLimit
                    ∨ tc (λ x y, Dom.parent_of d x = Some y) p upperLimit))
      as (p & Hp & Hcase).
    { inversion Hup as [? ? Hxy|? y ? Hxy Hyz]; subst; eauto. }
    rewrite Hp.
    assert (∀ a, rtc (λ x y, Dom.parent_of d x = Some y) current a →
              a = current ∨ rtc (λ x y, Dom.parent_of d x = Some y) p a) as Hcases.
    { intros a Ha. destruct Ha as [|n y z Hny Hyz]; [by left|].
      right. assert (y = p) as -> by congruence. done. }
    destruct (depth_step d current p k Hk Hp) as (k' & -> & Hk').
    destruct (decide (p = upperLimit)) as [->|Hne].
    + exists None. split; [done|]. intros a Ha Htc.
      destruct (Hcases a Ha) as [->|Hpa]; [done|]. exfalso.
      destruct (depth_ancestor d upperLimit a k' Hpa Hk') as (ka & Hka & Hle).
      destruct (depth_tc d a upperLimit ka Htc Hka) as (k2 & Hk2 & Hlt2).
      assert (k2 = k') by congruence. lia.
    + destruct Hcase as [?|Hpup]; [done|].
      destruct (IH p k' Hk') as (result & Hres & Hspec); [lia|done|].
      exists result. split; [done|]. destruct result as [s|].
      * destruct Hspec as (Hs & a & Ha & Hau & Hsa). split; [done|].
        exists a. split; [by eapply rtc_l|]. done.
      * intros a Ha Htc. destruct (Hcases a Ha) as [->|Hpa]; [done|].
        by apply Hspec.
Qed.

(** X19: [GetNextAvailableSibling] and [GetPrevAvailableSibling],
    called on a node below the upper limit.  The sibling returned is an
    element or has a text other than the empty one and a lone line feed;
    it is the next (the previous) sibling of the node or of one of its
    ancestors below the limit, so that it lies below the limit itself;
    and [null] is returned only when no such sibling is available all the
    way up to the limit. *)
Theorem available_sibling_within_limit (d : DOM) (node upperLimit : nid) :
  Tree.wf d → is_Some (d !! node) →
  let ancestor := rtc (λ x y, Dom.parent_of d x = Some y) in
  let below := tc (λ x y, Dom.parent_of d x = Some y) in
  below node upperLimit →
  match Editor.GetNextAvailableSibling d node upperLimit with
  | Some s =>
      Editor.available d (Some s) = true ∧ below s upperLimit
      ∧ ∃ a, ancestor node a ∧ below a upperLimit ∧ Dom.nextSibling d a = Some s
  | None =>
      ∀ a, ancestor node a → below a upperLimit →
           Editor.available d (Dom.nextSibling d a) = false
  end
  ∧ match Editor.GetPrevAvailableSibling d node upperLimit with
    | Some s =>
        Editor.available d (Some s) = true ∧ below s upperLimit
        ∧ ∃ a, ancestor node a ∧ below a upperLimit
               ∧ Editor.previousSibling d a = Some s
    | None =>
        ∀ a, ancestor node a → below a upperLimit →
             Editor.available d (Editor.previousSibling d a) = false
    end.
Proof.
  intros Hwf Hin. simpl. intros Hup.
  destruct (wf_rooted d node Hwf Hin) as [k Hk].
  assert (k < S (size d)) as Hlt by (apply depth_lt in Hk; lia).
  assert (∀ a s, tc (λ x y, Dom.parent_of d x = Some y) a upperLimit →
            Dom.parent_of d s = Dom.parent_of d a →
            tc (λ x y, Dom.parent_of d x = Some y) s upperLimit) as Hsame.
  { intros a s Ha Hp.
    inversion Ha as [? ? Hxy|? y ? Hxy Hyz]; subst.
    - apply tc_once. congruence.
    - eapply tc_l; [|done]. simpl. congruence. }
  split.
  - unfold Editor.GetNextAvailableSibling.
    destruct (available_sibling_spec d Dom.nextSibling upperLimit _ node k Hk Hlt Hup)
      as (result & -> & Hspec).
    simpl. destruct result as [s|]; [|done].
    destruct Hspec as (Hs & a & Ha & Hau & Hsa). split; [done|].
    split; [|eauto]. apply (Hsame a s Hau). by apply nextSibling_parent.
  - unfold Editor.GetPrevAvailableSibling.
    destruct (available_sibling_spec d Editor.previousSibling upperLimit _ node k Hk Hlt Hup)
      as (result & -> & Hspec).
    simpl. destruct result as [s|]; [|done].
    destruct Hspec as (Hs & a & Ha & Hau & Hsa). split; [done|].
    split; [|eauto]. apply (Hsame a s Hau). by apply previousSibling_parent.
Qed.

Lemma available_sibling_within_limit_witness :
  let d := Example.page_ab in
  let ancestor := rtc (λ x y, Dom.parent_of d x = Some y) in
  let below := tc (λ x y, Dom.parent_of d x = Some y) in
  match Editor.GetNextAvailableSibling d 5 3 with
  | Some s =>
      Editor.available d (Some s) = true ∧ below s 3
      ∧ ∃ a, ancestor 5 a ∧ below a 3 ∧ Dom.nextSibling d a = Some s
  | None =>
      ∀ a, ancestor 5 a → below a 3 → Editor.available d (Dom.nextSibling d a) = false
  end
  ∧ match Editor.GetPrevAvailableSibling d 5 3 with
    | Some s =>
        Editor.available d (Some s) = true ∧ below s 3
        ∧ ∃ a, ancestor 5 a ∧ below a 3 ∧ Editor.previousSibling d a = Some s
    | None =>
        ∀ a, ancestor 5 a → below a 3
             → Editor.available d (Editor.previousSibling d a) = false
    end.
Proof.
  apply (available_sibling_within_limit Example.page_ab 5 3).
  - apply wf_by_computation. vm_compute. reflexivity.
  - vm_compute. eauto.
  - apply (tc_l _ 5 4 3); [vm_compute; reflexivity|].
    apply tc_once. vm_compute. reflexivity.
Defined.

(* ===================================================================== *)
(** * Text of a component *)
(* ===================================================================== *)

Import CommonFunctions.

Lemma replace_nbsp_free s : nbsp_free (replace_nbsp s) = true.
Proof.
  induction s as [|c s IH]; [done|]. unfold nbsp_free in *. simpl.
  rewrite IH. destruct (Ascii.eqb c nbsp) eqn:E; [done|]. by rewrite E.
Qed.

Lemma replace_nbsp_id s : nbsp_free s = true → replace_nbsp s = s.
Proof.
  unfold nbsp_free. induction s as [|c s IH]; [done|]. simpl.
  intros [Hc Hs]%andb_prop. destruct (Ascii.eqb c nbsp); [done|]. by rewrite IH.
Qed.

Lemma textActual_free s : nbsp_free (textActual s) = true.
Proof.
  unfold textActual. destruct (String.eqb s "") eqn:E.
  - apply String.eqb_eq in E as ->. done.
  - destruct (String.eqb s (String nbsp "")); [done|apply replace_nbsp_free].
Qed.

Lemma textActual_id s : nbsp_free s = true → textActual s = s.
Proof.
  intros Hs. unfold textActual. destruct (String.eqb s ""); [done|].
  destruct (String.eqb s (String nbsp "")) eqn:E.
  - apply String.eqb_eq in E as ->. done.
  - by apply replace_nbsp_id.
Qed.

Lemma foldl_append {A} (g : A → string) (l : list A) (acc : string) :
  foldl (λ r x, r +:+ g x) acc l = acc +:+ foldr (λ x r, g x +:+ r) "" l.
Proof.
  revert acc. induction l as [|x l IH]; intros acc; simpl.
  - by rewrite append_nil_r.
  - by rewrite IH, append_assoc.
Qed.

Lemma nbsp_free_app s t : nbsp_free (s +:+ t) = nbsp_free s && nbsp_free t.
Proof. apply forallb_app. Qed.

(** X20: the text that [CompileAllTextNode] returns never holds a
    no-break space; and [null] is returned only for a missing
    container. *)
Theorem CompileAllTextNode_no_nbsp (d : DOM) (ContainerElement : option nid) :
  match CompileAllTextNode d ContainerElement with
  | Some textContentResult => nbsp_free textContentResult = true
  | None => ContainerElement = None
  end.
Proof.
  destruct ContainerElement as [c|]; [|done]. simpl.
  rewrite foldl_append, append_nil_l.
  induction (text_nodes d c) as [|x l IH]; [done|]. simpl.
  by rewrite nbsp_free_app, IH, textActual_free.
Qed.

Lemma leaves_children d n k :
  leaves d → Dom.kind_of d n = Some k → Dom.can_have_children k = false →
  Dom.children_of d n = [].
Proof.
  intros Hl Hk Hc. unfold Dom.kind_of, Dom.children_of in *.
  destruct (d !! n) as [nd|] eqn:Hn; [|done]. simpl in Hk. injection Hk as <-.
  by apply (Hl n nd Hn).
Qed.

Lemma foldr_append_app {A} (g : A → string) (l1 l2 : list A) :
  foldr (λ x r, g x +:+ r) "" (l1 ++ l2)
  = foldr (λ x r, g x +:+ r) "" l1 +:+ foldr (λ x r, g x +:+ r) "" l2.
Proof.
  induction l1 as [|x l1 IH]; simpl; [done|]. by rewrite IH, append_assoc.
Qed.

(** The texts of the text nodes of a tree, put together, are the text
    of the tree. *)
Lemma text_of_text_nodes d : Tree.wf d → leaves d → ∀ f n,
  Dom.kind_of d n ≠ Some Document →
  foldr (λ x r, data_of d x +:+ r) "" (List.filter (Dom.is_text d) (Dom.descendants f d n))
  = Dom.text_of f d n.
Proof.
  intros Hwf Hl. induction f as [|f IH]; intros n Hdoc; [done|].
  cbn [Dom.descendants Dom.text_of].
  assert (∀ l, (∀ c, c ∈ l → Dom.kind_of d c ≠ Some Document) →
            foldr (λ x r, data_of d x +:+ r) ""
              (List.filter (Dom.is_text d) (flat_map (Dom.descendants f d) l))
            = foldr (λ ch acc, Dom.text_of f d ch +:+ acc) "" l) as Hflat.
  { induction l as [|c l IHl]; intros Hcs; [done|]. cbn [flat_map foldr].
    rewrite List.filter_app, foldr_append_app, IH, IHl; [done| |].
    - intros c' Hc'. apply Hcs. by right.
    - apply Hcs. by left. }
  assert (∀ c, c ∈ Dom.children_of d n → Dom.kind_of d c ≠ Some Document) as Hch.
  { intros c Hc Hk. pose proof (wf_child_parent d n c Hwf Hc) as Hp.
    by pose proof (wf_not_document d n c Document Hwf Hp Hk). }
  destruct (Dom.kind_of d n) as [[t i c|s|s|]|] eqn:Hk; [| | |done|].
  - cbn [List.filter]. replace (Dom.is_text d n) with false.
    + by apply Hflat.
    + unfold Dom.is_text, Dom.nodeType. by rewrite Hk.
  - rewrite (leaves_children d n (Text s)) by done. cbn [flat_map List.filter].
    replace (Dom.is_text d n) with true.
    + simpl. unfold data_of. by rewrite Hk, append_nil_r.
    + unfold Dom.is_text, Dom.nodeType. by rewrite Hk.
  - rewrite (leaves_children d n (Comment s)) by done. cbn [flat_map List.filter].
    replace (Dom.is_text d n) with false; [done|].
    unfold Dom.is_text, Dom.nodeType. by rewrite Hk.
  - replace (Dom.children_of d n) with (@nil nid).
    + cbn [flat_map List.filter]. replace (Dom.is_text d n) with false; [done|].
      unfold Dom.is_text, Dom.nodeType. by rewrite Hk.
    + unfold Dom.kind_of, Dom.children_of in *. by destruct (d !! n).
Qed.

Lemma leaves_by_computation d : bool_decide (leaves d) = true → leaves d.
Proof. apply bool_decide_eq_true_1. Qed.

(** X21: when no text node below the container holds a no-break
    space, [CompileAllTextNode] returns the [textContent] of the
    container. *)
Theorem CompileAllTextNode_textContent (d : DOM) (ContainerElement : nid) :
  Tree.wf d → leaves d →
  Dom.is_element d ContainerElement = true →
  (∀ node, node ∈ text_nodes d ContainerElement → nbsp_free (data_of d node) = true) →
  CompileAllTextNode d (Some ContainerElement) = Dom.textContent d ContainerElement.
Proof.
  intros Hwf Hl Hel Hfree. unfold CompileAllTextNode.
  rewrite foldl_append, append_nil_l.
  assert (foldr (λ x r, textActual (data_of d x) +:+ r) "" (text_nodes d ContainerElement)
          = foldr (λ x r, data_of d x +:+ r) "" (text_nodes d ContainerElement)) as ->.
  { revert Hfree. induction (text_nodes d ContainerElement) as [|x l IH]; [done|].
    intros Hfree. simpl. rewrite IH, textActual_id; [done| |].
    - apply Hfree. by left.
    - intros y Hy. apply Hfree. by right. }
  unfold Dom.is_element, Dom.nodeType in Hel. unfold Dom.textContent.
  destruct (Dom.kind_of d ContainerElement) as [[t i c|s|s|]|] eqn:Hk; try done.
  f_equal. unfold text_nodes.
  assert (is_Some (d !! ContainerElement)) as Hin by (apply kind_of_is_Some; eauto).
  destruct (size d) as [|f] eqn:Hsz; [by apply size_pos in Hin|].
  pose proof (text_of_text_nodes d Hwf Hl (S f) ContainerElement) as H.
  cbn [Dom.descendants List.filter] in H.
  replace (Dom.is_text d ContainerElement) with false in H.
  - cbn [Dom.descendants tail]. apply H. by rewrite Hk.
  - unfold Dom.is_text, Dom.nodeType. by rewrite Hk.
Qed.

Lemma CompileAllTextNode_textContent_witness :
  CompileAllTextNode Example.page_ab (Some 3) = Dom.textContent Example.page_ab 3.
Proof.
  apply (CompileAllTextNode_textContent Example.page_ab 3).
  - apply wf_by_computation. vm_compute. reflexivity.
  - apply leaves_by_computation. vm_compute. reflexivity.
  - vm_compute. reflexivity.
  - intros node Hnode.
    assert (text_nodes Example.page_ab 3 = [5; 7]) as E by (vm_compute; reflexivity).
    rewrite E in Hnode.
    apply elem_of_cons in Hnode as [->|Hnode]; [vm_compute; reflexivity|].
    apply list_elem_of_singleton in Hnode as ->. vm_compute. reflexivity.
Defined.

(* ===================================================================== *)
(** * Editing a sub-element *)
(* ===================================================================== *)

Lemma toggleEditingSubElement_invariant b i e s :
  i ≠ Some "__proto__" →
  SubElements.isEditingSubElement s = negb (Nat.eqb (size (SubElements.EditingQueue s)) 0) →
  let s' := SubElements.toggleEditingSubElement b i e s in
  SubElements.isEditingSubElement s' = negb (Nat.eqb (size (SubElements.EditingQueue s')) 0).
Proof.
  intros Hi Hs. unfold SubElements.toggleEditingSubElement.
  destruct i as [i|]; [|done]. destruct (decide (i = "")); [done|].
  destruct b; simpl.
  - rewrite decide_False by congruence.
    destruct (size (<[i:=e]> (SubElements.EditingQueue s))) eqn:E; [|done].
    apply map_size_empty_inv in E. by apply insert_non_empty in E.
  - destruct (size (delete i (SubElements.EditingQueue s))) eqn:E; [done|]. simpl.
    rewrite Hs. destruct (size (SubElements.EditingQueue s)) eqn:E'; [|done].
    apply map_size_empty_inv in E'. rewrite E', delete_empty, map_size_empty in E. done.
Qed.

Lemma toggleEditingSubElement_unnamed b i e s :
  i = None ∨ i = Some "" → SubElements.toggleEditingSubElement b i e s = s.
Proof. by intros [->| ->]. Qed.

Lemma run_named calls : ∀ s,
  SubElements.run
    (List.filter (λ c, bool_decide (SubElements.Identifier c ≠ None
                                    ∧ SubElements.Identifier c ≠ Some "")) calls) s
  = SubElements.run calls s.
Proof.
  unfold SubElements.run.
  induction calls as [|c calls IH]; intros s; simpl; [done|].
  destruct (bool_decide_reflect (SubElements.Identifier c ≠ None
                                 ∧ SubElements.Identifier c ≠ Some "")) as [Hc|Hc]; simpl.
  - apply IH.
  - rewrite (toggleEditingSubElement_unnamed _ (SubElements.Identifier c)); [apply IH|].
    destruct (SubElements.Identifier c) as [i|]; [|by left].
    destruct (decide (i = "")) as [->|Hi]; [by right|].
    exfalso. apply Hc. split; congruence.
Qed.

(** X22: whatever calls of [toggleEditingSubElement] were made
    since the component was created, [isEditingSubElement] is set
    exactly when [EditingQueue] holds a sub-element; so the state goes
    back to [false] once every sub-element that started editing has
    stopped.  A call without identifier, or with the empty identifier,
    changes nothing: the state is that of the calls that have one. *)
Theorem isEditingSubElement_invariant (calls : list SubElements.call) :
  Forall (λ c, SubElements.Identifier c ≠ Some "__proto__") calls →
  let s := SubElements.run calls SubElements.initial in
  (SubElements.isEditingSubElement s = true ↔ SubElements.EditingQueue s ≠ ∅)
  ∧ (∀ b e, SubElements.toggleEditingSubElement b None e s = s
            ∧ SubElements.toggleEditingSubElement b (Some "") e s = s)
  ∧ SubElements.run
      (List.filter (λ c, bool_decide (SubElements.Identifier c ≠ None
                                      ∧ SubElements.Identifier c ≠ Some "")) calls)
      SubElements.initial
    = s.
Proof.
  intros Hcalls s. split; [|split; [done|apply run_named]].
  assert (SubElements.isEditingSubElement s
          = negb (Nat.eqb (size (SubElements.EditingQueue s)) 0)) as ->.
  { subst s. induction calls as [|c calls IH] using rev_ind; [done|].
    apply Forall_app in Hcalls as [Hcalls Hc%Forall_inv].
    unfold SubElements.run. rewrite foldl_app. simpl.
    apply toggleEditingSubElement_invariant; [done|]. by apply IH. }
  destruct (size (SubElements.EditingQueue s)) eqn:E; simpl.
  - apply map_size_empty_inv in E. rewrite E. split; done.
  - split; [|done]. intros _ E0. by rewrite E0, map_size_empty in E.
Qed.

Lemma isEditingSubElement_invariant_witness :
  let calls := [SubElements.Notify true (Some "1_strong1") (Some 7);
                SubElements.Notify true None (Some 8);
                SubElements.Notify true (Some "2_em2") (Some 9);
                SubElements.Notify false (Some "") (Some 9);
                SubElements.Notify false (Some "1_strong1") (Some 7)] in
  let s := SubElements.run calls SubElements.initial in
  (SubElements.isEditingSubElement s = true ↔ SubElements.EditingQueue s ≠ ∅)
  ∧ (∀ b e, SubElements.toggleEditingSubElement b None e s = s
            ∧ SubElements.toggleEditingSubElement b (Some "") e s = s)
  ∧ SubElements.run
      [SubElements.Notify true (Some "1_strong1") (Some 7);
       SubElements.Notify true (Some "2_em2") (Some 9);
       SubElements.Notify false (Some "1_strong1") (Some 7)]
      SubElements.initial
    = s.
Proof.
  intros calls. apply (isEditingSubElement_invariant calls).
  repeat constructor; discriminate.
Defined.

(* ===================================================================== *)
(** * The life of the hook *)
(* ===================================================================== *)

Lemma FlushQueue_observed h h' :
  FlushQueue h = Ok h' →
  observed (Observer (DaemonState h)) = WatchElementRef h →
  observed (Observer (DaemonState h')) = WatchElementRef h'
  ∧ WatchElementRef h' = WatchElementRef h.
Proof.
  intros H Hobs.
  destruct (decide (MutationQueue (DaemonState h) ++ records (Observer (DaemonState h)) = []))
    as [He|Hne].
  - apply app_eq_nil in He as [Hq Hr].
    rewrite (FlushQueue_idle h Hq Hr) in H. by injection H as <-.
  - by destruct (FlushQueue_Ok h h' H Hne) as [d ->].
Qed.

Lemma step_observed m m' :
  Lifecycle.step m m' →
  observed (Observer (DaemonState (Lifecycle.hook m))) = WatchElementRef (Lifecycle.hook m)
  ∧ (Lifecycle.pending m = None ↔ WatchElementRef (Lifecycle.hook m) = None) →
  observed (Observer (DaemonState (Lifecycle.hook m')))
  = WatchElementRef (Lifecycle.hook m')
  ∧ (Lifecycle.pending m' = None ↔ WatchElementRef (Lifecycle.hook m') = None).
Proof.
  intros Hstep [Hobs Hpen]. destruct Hstep as [W m|d r m|m|m h' Hf].
  - unfold Lifecycle.effect, Lifecycle.set_ref. simpl. destruct W as [w|]; simpl; [done|].
    split; [|done].
    destruct (Lifecycle.pending m) as [[]|]; simpl; [done|].
    rewrite Hobs. by apply Hpen.
  - simpl. unfold Lifecycle.queue_record. simpl.
    destruct (observed (Observer (DaemonState (Lifecycle.hook m)))) eqn:E;
      simpl; rewrite ?E; done.
  - done.
  - simpl. destruct (FlushQueue_observed _ _ Hf Hobs) as [H E]. rewrite E.
    split; [congruence|done].
Qed.

(** X23: the observer follows the ref.  Whatever renders, mutations,
    callbacks and flushes have happened since the hook was created, the
    observer observes the watched element of the last render, and nothing
    when there is none; once the component is unmounted it observes
    nothing. *)
Theorem observer_follows_the_ref (d : DOM) (Mirror : option nid) (m : Lifecycle.Mounted) :
  rtc Lifecycle.step (Lifecycle.fresh d Mirror) m →
  observed (Observer (DaemonState (Lifecycle.hook m))) = WatchElementRef (Lifecycle.hook m)
  ∧ observed (Observer (DaemonState (Lifecycle.unmount m))) = None.
Proof.
  intros Hm.
  assert (observed (Observer (DaemonState (Lifecycle.hook m)))
          = WatchElementRef (Lifecycle.hook m)
          ∧ (Lifecycle.pending m = None ↔ WatchElementRef (Lifecycle.hook m) = None))
    as [Hobs Hpen].
  { apply rtc_nsteps in Hm as [n Hm]. revert m Hm.
    induction n as [|n IH]; intros m Hm.
    - inversion Hm; subst. done.
    - apply nsteps_inv_r in Hm as (m0 & Hm0 & Hstep).
      eapply step_observed; [exact Hstep|]. by apply IH. }
  split; [done|]. unfold Lifecycle.unmount.
  destruct (Lifecycle.pending m) as [[]|]; simpl; [done|].
  rewrite Hobs. by apply Hpen.
Qed.

Lemma observer_follows_the_ref_witness :
  let m := Lifecycle.mkMounted (Example.idle Example.page) (Some Lifecycle.StopObserving) in
  observed (Observer (DaemonState (Lifecycle.hook m))) = WatchElementRef (Lifecycle.hook m)
  ∧ observed (Observer (DaemonState (Lifecycle.unmount m))) = None.
Proof.
  intros m. apply (observer_follows_the_ref Example.page (Some 10) m).
  eapply rtc_l; [apply (Lifecycle.render (Some 3))|].
  simpl. apply rtc_refl.
Defined.
